(** * island-crisis: the map generation pipeline of [shared/WorldBuilder] and
    the biome classifier of [shared/BiomeManager]

    The development embeds [BuildMapDefinition] (terrain grid, flood fill from
    the origin, demotion of unreached land, town placement) and
    [BiomeManager.getTileBiome].

    Numbers.  Luau numbers are doubles.  Grid extents, coordinates and town
    counts are integer valued and are modelled in [Z].  Heights, the water
    level and the seed are only ever compared with [<=] and [>], and a finite
    double is a rational, so they are modelled in [Q] with the comparisons of
    [Q] (0.2 is read as the decimal 1/5 and -0.4 as -2/5). *)

From Stdlib Require Import ZArith QArith Lia Ascii.
From stdpp Require Import base option list list_numbers numbers strings pretty
  gmap fin_maps.

Local Open Scope Z_scope.

(** ** Comparisons on heights *)

(** [a <= b] on numbers. *)
Definition num_le (a b : Q) : bool := Qle_bool a b.

(** [a > b] on numbers. *)
Definition num_gt (a b : Q) : bool :=
  match (a ?= b)%Q with Gt => true | _ => false end.

(** ** Data model *)

(** [AxialCoordinates] of [shared/HexUtil]: the fields [X] and [Z] of the
    source; the second one is called [Zc] because [Z] is the integer type. *)
Record AxialCoordinates := Axial { X : Z; Zc : Z }.

#[global] Instance AxialCoordinates_eq_dec : EqDecision AxialCoordinates.
Proof. solve_decision. Defined.

Definition origin : AxialCoordinates := Axial 0 0.

Module TileType.
Inductive t := Land | Water | Town.
#[global] Instance eq_dec : EqDecision t.
Proof. solve_decision. Defined.
End TileType.

Module Biome.
Inductive t := Water | Grassland | Coastline | MountainSnow | Mountain.
#[global] Instance eq_dec : EqDecision t.
Proof. solve_decision. Defined.
End Biome.

(** [TileDefinition]; [Type] is a keyword and [Biome] names the enumeration,
    hence the underscores. *)
Record TileDefinition := mkTile {
  Position : AxialCoordinates;
  Type_ : TileType.t;
  Biome_ : Biome.t
}.

#[global] Instance TileDefinition_eq_dec : EqDecision TileDefinition.
Proof. solve_decision. Defined.

Record DebugConfig := mkDebug {
  ShowCoords : option bool;
  VisualizeBiomes : option bool
}.

(** [MapConfig], the record the caller passes: the optional fields of the
    interface are options, [None] being [undefined]. *)
Module MapConfig.
Record t := mk {
  Radius : Z;
  DepthScale : Q;
  TotalTowns : Z;
  GenerateBiomes : option bool;
  WaterLevel : option Q;
  Seed : option Q;
  Debug : option DebugConfig
}.
End MapConfig.

(** [MapConfigImpl = Required<Omit<MapConfig, "Debug">> & Pick<MapConfig, "Debug">]:
    the same object once [WaterLevel] and [Seed] hold numbers.  The assertion
    [config as MapConfigImpl] checks nothing, so [GenerateBiomes] may still be
    [undefined] behind it. *)
Module MapConfigImpl.
Record t := mk {
  Radius : Z;
  DepthScale : Q;
  TotalTowns : Z;
  GenerateBiomes : option bool;
  WaterLevel : Q;
  Seed : Q;
  Debug : option DebugConfig
}.
End MapConfigImpl.

(** [TileMap]: [Map<number, Map<number, TileDefinition>>], outer key the cube
    X, inner key the cube Z. *)
Abbreviation TileMap := (gmap Z (gmap Z TileDefinition)).

Record MapDefinition := mkMap {
  Config : MapConfigImpl.t;
  Tiles : TileMap
}.

(** [tiles.get(x)] followed by [zMap.get(z)]. *)
Definition getTile (tiles : TileMap) (a : AxialCoordinates) : option TileDefinition :=
  match tiles !! X a with
  | Some zMap => zMap !! Zc a
  | None => None
  end.

(** The two statements of the build loop that store a tile: fetch or create
    the row of [x], then [zMap.set(z, tile)]. *)
Definition setTile (tiles : TileMap) (x z : Z) (tile : TileDefinition) : TileMap :=
  let zMap := match tiles !! x with Some zMap => zMap | None => ∅ end in
  <[x := <[z := tile]> zMap]> tiles.

(** A field assignment through a reference to the tile stored at [a]. *)
Definition updateTile (f : TileDefinition -> TileDefinition)
    (a : AxialCoordinates) (tiles : TileMap) : TileMap :=
  alter (alter f (Zc a)) (X a) tiles.

(** All tiles of the grid with their keys, row after row. *)
Definition tileEntries (tiles : TileMap) : list (AxialCoordinates * TileDefinition) :=
  '(x, zMap) ← map_to_list tiles;
  (fun e : Z * TileDefinition => (Axial x e.1, e.2)) <$> map_to_list zMap.

Definition tileList (tiles : TileMap) : list TileDefinition :=
  snd <$> tileEntries tiles.

Definition tileCount (tiles : TileMap) : nat := length (tileList tiles).

Definition countType (ty : TileType.t) (tiles : TileMap) : nat :=
  length (filter (fun t => Type_ t = ty) (tileList tiles)).

(** ** The collaborators of [shared/HexUtil] *)

(** Modelled from the spec: [cubeDistance] of [shared/HexUtil], the number of
    hex steps from the origin, with the implied cube Y = -X-Z. *)
Definition cubeDistance (a : AxialCoordinates) : Z :=
  Z.max (Z.abs (X a)) (Z.max (Z.abs (- X a - Zc a)) (Z.abs (Zc a))).

(** Cube distance between two coordinates. *)
Definition hexDistance (a b : AxialCoordinates) : Z :=
  cubeDistance (Axial (X b - X a) (Zc b - Zc a)).

(** Modelled from the spec: the offsets of the hexagon of radius [r], in the
    order of the standard double loop (x outside, y inside, z = -x-y), from
    which [getNearbyCoordinates] is made. *)
Definition hexOffsets (r : Z) : list AxialCoordinates :=
  x ← seqZ (- r) (2 * r + 1);
  y ← seqZ (Z.max (- r) (- x - r))
         (Z.min r (- x + r) - Z.max (- r) (- x - r) + 1);
  [Axial x (- x - y)].

(** Modelled from the spec: [getNearbyCoordinates] of [shared/HexUtil], the
    coordinates within cube distance [radius] of [a], [a] itself excluded;
    with [radius] 1 these are the six ring-1 neighbours. *)
Definition getNearbyCoordinates (a : AxialCoordinates) (radius : Z)
    : list AxialCoordinates :=
  (fun d => Axial (X a + X d) (Zc a + Zc d)) <$>
    filter (fun d => d <> origin) (hexOffsets radius).

(** Modelled from the spec: [axialKey] of [shared/HexUtil], the canonical
    string of a coordinate; the flood fill writes the key of the origin as the
    literal "0,0". *)
Definition axialKey (a : AxialCoordinates) : string :=
  pretty (X a) +:+ "," +:+ pretty (Zc a).

(** The functions of [shared/HexUtil] that the pipeline calls and whose code
    decides nothing here: the height field, and the random source with the
    sampler built on it.  A reference to a tile of the grid, as
    [getRandomMapTiles] hands them out, is the key of that tile, which is also
    its [Position]. *)
Class HexUtil := {
  (* calculateDecayingNoise(axial, seed, radius) *)
  calculateDecayingNoise : AxialCoordinates -> Q -> Z -> Q;
  (* the engine's Random object and [new Random(seed)] *)
  Random : Type;
  Random_new : Q -> Random;
  (* getRandomMapTiles(tiles, count, type, rand) *)
  getRandomMapTiles :
    TileMap -> Z -> TileType.t -> Random -> list AxialCoordinates * Random
}.

(** [for (let i = lo; i <= hi; i++) body] over a state [S]. *)
Definition forRange {S : Type} (lo hi : Z) (body : Z -> S -> S) (s : S) : S :=
  foldl (fun s i => body i s) s (seqZ lo (hi - lo + 1)).

(** ** [BiomeManager] *)

Module BiomeManager.
Section methods.
Context `{HexUtil}.
(** [this.config] *)
Variable config : MapConfigImpl.t.

(** [calculateDecayingNoise(axial, this.config)]: the class passes the
    configuration, from which the height field takes seed and radius. *)
Definition height (axial : AxialCoordinates) : Q :=
  calculateDecayingNoise axial (MapConfigImpl.Seed config) (MapConfigImpl.Radius config).

Definition tileHasWater (axial : AxialCoordinates) : bool :=
  if num_le (height axial) (MapConfigImpl.WaterLevel config) then true else false.

Definition tileIsCoastline (axial : AxialCoordinates) : bool :=
  existsb tileHasWater (getNearbyCoordinates axial 1).

Definition getTileBiome (axial : AxialCoordinates) : Biome.t :=
  if tileHasWater axial then Biome.Water
  else if tileIsCoastline axial then Biome.Coastline
  else
    if num_gt (height axial) (1 # 5) then Biome.MountainSnow
    else if num_gt (height axial) 0 then Biome.Mountain
    else Biome.Grassland.
End methods.
End BiomeManager.

(** ** [BuildMapDefinition] *)

Inductive LogEvent :=
  | PrintSeed (seed : Q)                  (* print(`Seed: ...`) *)
  | PrintTowns (placed total : Z)         (* print(`towns: ... / ...`) *)
  | WarnFailedTowns (total placed : Z)    (* warn(`failed to place ...`) *)
  | HeartbeatWait.                        (* RunService.Heartbeat.Wait() *)

Section WorldBuilder.
Context `{HexUtil}.

(** *** Terrain generation *)

(** The tile that the inner loop of "Create initial map" makes for [axial]
    (WorldBuilder.ts, lines 88-109). *)
Definition newTile (config : MapConfigImpl.t) (axial : AxialCoordinates)
    : TileDefinition :=
  let height :=
    calculateDecayingNoise axial (MapConfigImpl.Seed config) (MapConfigImpl.Radius config) in
  let tileType :=
    if num_le height (MapConfigImpl.WaterLevel config) then TileType.Water
    else TileType.Land in
  let biome :=
    match MapConfigImpl.GenerateBiomes config with
    | Some true => BiomeManager.getTileBiome config axial
    | _ => Biome.Grassland
    end in
  mkTile axial tileType biome.

(** The body of the inner loop of "Create initial map" (lines 76-110);
    [if (cubeZ === 0) cubeZ = 0] turns a negative zero into zero, which an
    integer never is. *)
Definition buildTile (config : MapConfigImpl.t) (cubeX cubeY : Z)
    (tiles : TileMap) : TileMap :=
  let cubeZ := - cubeX - cubeY in
  let cubeZ := if decide (cubeZ = 0) then 0 else cubeZ in
  setTile tiles cubeX cubeZ (newTile config (Axial cubeX cubeZ)).

(** The two nested loops (lines 70-112). *)
Definition buildTiles (config : MapConfigImpl.t) : TileMap :=
  let R := MapConfigImpl.Radius config in
  forRange (- R) R (fun cubeX tiles =>
    forRange (Z.max (- R) (- cubeX - R)) (Z.min R (- cubeX + R))
      (fun cubeY tiles => buildTile config cubeX cubeY tiles) tiles) ∅.

(** *** Flood fill from the origin *)

(** The body of the loop over the neighbours of the tile being visited
    (lines 125-136). *)
Definition visitNeighbor (config : MapConfigImpl.t)
    (st : gmap string bool * list AxialCoordinates) (neighbor : AxialCoordinates)
    : gmap string bool * list AxialCoordinates :=
  let '(visited, toVisit) := st in
  let neighborKey := axialKey neighbor in
  match visited !! neighborKey with
  | Some _ => (visited, toVisit)
  | None =>
      let height :=
        calculateDecayingNoise neighbor (MapConfigImpl.Seed config) (MapConfigImpl.Radius config) in
      if num_le height (MapConfigImpl.WaterLevel config)
      then (<[neighborKey := false]> visited, toVisit)
      else (<[neighborKey := true]> visited, toVisit ++ [neighbor])
  end.

(** The [for (;;)] loop (lines 120-143); [fuel] bounds the number of times
    its body is entered, [None] meaning that the loop is still running when
    the fuel is spent.  The result is the [visited] map when
    [toVisit[visitIdx]] is [undefined]. *)
Fixpoint floodFillLoop (config : MapConfigImpl.t) (fuel : nat)
    (visited : gmap string bool) (toVisit : list AxialCoordinates)
    (visitIdx : nat) : option (gmap string bool) :=
  match fuel with
  | O => None
  | S fuel =>
      match toVisit !! visitIdx with
      | Some tile =>
          let '(visited, toVisit) :=
            foldl (visitNeighbor config) (visited, toVisit)
              (getNearbyCoordinates tile 1) in
          floodFillLoop config fuel visited toVisit (S visitIdx)
      | None => Some visited
      end
  end.

(** The flood fill from its initial state (lines 115-119). *)
Definition floodFill (config : MapConfigImpl.t) (fuel : nat)
    : option (gmap string bool) :=
  floodFillLoop config fuel {["0,0" := true]} [Axial 0 0] 0.

(** *** Removal of the land that is not on the central island *)

(** The body of the loop over the tiles (lines 148-155); [!visitGood] holds
    of [false] and of [undefined]. *)
Definition demoteTile (visited : gmap string bool) (tile : TileDefinition)
    : TileDefinition :=
  if decide (Type_ tile = TileType.Land) then
    match visited !! axialKey (Position tile) with
    | Some true => tile
    | _ => mkTile (Position tile) TileType.Water Biome.Water
    end
  else tile.

(** The loop over the rows and their tiles (lines 146-157); each tile is
    rewritten on its own, so the order of the iteration is immaterial. *)
Definition removeUnreached (visited : gmap string bool) (tiles : TileMap)
    : TileMap :=
  fmap (M := gmap Z) (fmap (M := gmap Z) (demoteTile visited)) tiles.

(** *** Town placement *)

(** [tile.Type = TileType.Town] *)
Definition setTown (tile : TileDefinition) : TileDefinition :=
  mkTile (Position tile) TileType.Town (Biome_ tile).

(** One turn of the loop over [neighborCoords]: is there a Town tile at
    [coord]?  Missing rows and missing tiles are skipped. *)
Definition isTownAt (tiles : TileMap) (coord : AxialCoordinates) : bool :=
  match getTile tiles coord with
  | Some neighborTile => bool_decide (Type_ neighborTile = TileType.Town)
  | None => false
  end.

(** The loop over [neighborCoords] with its [break] (lines 172-190). *)
Definition canBeTown (tiles : TileMap) (position : AxialCoordinates)
    (townExclusionZoneRadius : Z) : bool :=
  negb (existsb (isTownAt tiles)
          (getNearbyCoordinates position townExclusionZoneRadius)).

(** The body of the loop over [townSeeds] (lines 171-197), on the grid,
    [townsGenerated] and [newTownThisIteration]. *)
Definition placeCandidate (townExclusionZoneRadius : Z)
    (st : TileMap * Z * bool) (tile : AxialCoordinates) : TileMap * Z * bool :=
  let '(tiles, townsGenerated, newTownThisIteration) := st in
  if canBeTown tiles tile townExclusionZoneRadius
  then (updateTile setTown tile tiles, townsGenerated + 1, true)
  else (tiles, townsGenerated, newTownThisIteration).

Record PlacerState := mkPlacer {
  pTiles : TileMap;
  pRand : Random;
  townsGenerated : Z;
  townExclusionZoneRadius : Z;
  townExclusionZoneRetries : Z;
  pLog : list LogEvent
}.

(** The loop over [townSeeds]. *)
Definition placeCandidates (townExclusionZoneRadius : Z)
    (st : TileMap * Z * bool) (townSeeds : list AxialCoordinates)
    : TileMap * Z * bool :=
  foldl (placeCandidate townExclusionZoneRadius) st townSeeds.

(** One round of the placement loop (lines 168-206), up to and including the
    two counter updates that follow the loop over [townSeeds]. *)
Definition placeRound (totalTowns : Z) (st : PlacerState) : PlacerState :=
  let '(townSeeds, rand) :=
    getRandomMapTiles (pTiles st) (totalTowns - townsGenerated st)
      TileType.Land (pRand st) in
  let '(tiles, generated, newTownThisIteration) :=
    placeCandidates (townExclusionZoneRadius st)
      (pTiles st, townsGenerated st, false) townSeeds in
  let retries :=
    if newTownThisIteration then townExclusionZoneRetries st
    else townExclusionZoneRetries st + 1 in
  if decide (retries = 3)
  then mkPlacer tiles rand generated (townExclusionZoneRadius st - 1) 0 (pLog st)
  else mkPlacer tiles rand generated (townExclusionZoneRadius st) retries (pLog st).

(** The placement loop (lines 167-215); [fuel] bounds the number of rounds,
    [None] meaning that the loop is still running when the fuel is spent. *)
Fixpoint placeTowns (totalTowns : Z) (fuel : nat) (st : PlacerState)
    : option PlacerState :=
  if decide (townsGenerated st < totalTowns) then
    match fuel with
    | O => None
    | S fuel =>
        let st := placeRound totalTowns st in
        if decide (townExclusionZoneRadius st = -1) then
          Some (mkPlacer (pTiles st) (pRand st) (townsGenerated st)
                  (townExclusionZoneRadius st) (townExclusionZoneRetries st)
                  (pLog st ++ [WarnFailedTowns totalTowns (townsGenerated st)]))
        else
          placeTowns totalTowns fuel
            (mkPlacer (pTiles st) (pRand st) (townsGenerated st)
               (townExclusionZoneRadius st) (townExclusionZoneRetries st)
               (pLog st ++ [PrintTowns (townsGenerated st) totalTowns; HeartbeatWait]))
    end
  else Some st.

(** *** The whole function *)

(** The two assignments that resolve the defaults (lines 53-60), as the
    caller's object holds them afterwards; [mathRandom] is the number
    [math.random()] draws. *)
Definition resolveDefaults (mathRandom : Q) (config : MapConfig.t) : MapConfig.t :=
  let seed := match MapConfig.Seed config with Some s => s | None => mathRandom end in
  let waterLevel :=
    match MapConfig.WaterLevel config with Some w => w | None => - (2 # 5) end%Q in
  MapConfig.mk (MapConfig.Radius config) (MapConfig.DepthScale config)
    (MapConfig.TotalTowns config) (MapConfig.GenerateBiomes config)
    (Some waterLevel) (Some seed) (MapConfig.Debug config).

(** [config as MapConfigImpl] on the object after [resolveDefaults]. *)
Definition asMapConfigImpl (mathRandom : Q) (config : MapConfig.t) : MapConfigImpl.t :=
  let seed := match MapConfig.Seed config with Some s => s | None => mathRandom end in
  let waterLevel :=
    match MapConfig.WaterLevel config with Some w => w | None => - (2 # 5) end%Q in
  MapConfigImpl.mk (MapConfig.Radius config) (MapConfig.DepthScale config)
    (MapConfig.TotalTowns config) (MapConfig.GenerateBiomes config)
    waterLevel seed (MapConfig.Debug config).

Record BuildResult := mkResult {
  (** the caller's [config] object when the function returns *)
  callerConfig : MapConfig.t;
  returned : MapDefinition;
  output : list LogEvent
}.

(** [BuildMapDefinition(config)].  [fuel] bounds the iterations of each of
    the two unbounded loops; [None] means that one of them is still running
    when the fuel is spent.  The function has no other way not to return:
    it raises no error of its own. *)
Definition BuildMapDefinition (fuel : nat) (mathRandom : Q) (config : MapConfig.t)
    : option BuildResult :=
  let impl := asMapConfigImpl mathRandom config in
  let log := [PrintSeed (MapConfigImpl.Seed impl)] in
  let rand := Random_new (MapConfigImpl.Seed impl) in
  let tiles := buildTiles impl in
  match floodFill impl fuel with
  | None => None
  | Some visited =>
      let tiles := removeUnreached visited tiles in
      let st := mkPlacer tiles rand 0 (Z.min (MapConfigImpl.Radius impl) 10) 0 log in
      match placeTowns (MapConfigImpl.TotalTowns impl) fuel st with
      | None => None
      | Some st =>
          Some (mkResult (resolveDefaults mathRandom config)
                  (mkMap impl (pTiles st)) (pLog st))
      end
  end.
End WorldBuilder.

(** ** Notions used in the statements *)

Section Notions.
Context `{HexUtil}.
Variable config : MapConfigImpl.t.

(** The height of [a] is above the water level: the test [height <=
    config.WaterLevel] of the pipeline fails at [a]. *)
Definition aboveWater (a : AxialCoordinates) : Prop :=
  num_le (BiomeManager.height config a) (MapConfigImpl.WaterLevel config) = false.

(** [a] is joined to the origin by ring-1 steps, every coordinate after the
    origin being above the water level.  Nothing is asked of the origin, and
    nothing keeps the coordinates within the radius of the map. *)
Inductive reachable : AxialCoordinates -> Prop :=
  | reachable_origin : reachable origin
  | reachable_step a b :
      reachable a -> hexDistance a b = 1 -> aboveWater b -> reachable b.

(** What the flood fill keeps true of [visited] and [toVisit]. *)
Record FloodInv (visited : gmap string bool) (toVisit : list AxialCoordinates)
    : Prop := mkFloodInv {
  inv_true : forall a, visited !! axialKey a = Some true -> a ∈ toVisit;
  inv_queue : forall a, a ∈ toVisit -> visited !! axialKey a = Some true;
  inv_false : forall a, visited !! axialKey a = Some false -> ~ aboveWater a;
  inv_nodup : NoDup toVisit;
  inv_reach : forall a, a ∈ toVisit -> reachable a
}.
End Notions.

(** The contract of the sampler: the tiles it returns are distinct tiles of
    the grid and have the requested type. *)
Definition samplerContract `{HexUtil} : Prop :=
  forall (tiles : TileMap) (count : Z) (ty : TileType.t) (rand : Random),
    NoDup (getRandomMapTiles tiles count ty rand).1 /\
    forall c, c ∈ (getRandomMapTiles tiles count ty rand).1 ->
      exists t, getTile tiles c = Some t /\ Type_ t = ty.

(** [tiles'] is [tiles] with some Land tiles turned into Town and nothing else
    changed. *)
Definition promoted (tiles tiles' : TileMap) : Prop :=
  forall a,
    match getTile tiles a, getTile tiles' a with
    | Some t, Some t' =>
        Position t' = Position t /\ Biome_ t' = Biome_ t /\
        (Type_ t' = Type_ t \/
         (Type_ t = TileType.Land /\ Type_ t' = TileType.Town))
    | None, None => True
    | _, _ => False
    end.

(** [a] is joined to the origin by ring-1 steps, every coordinate after the
    origin holding a tile of the grid that is not Water. *)
Inductive tilePath (tiles : TileMap) : AxialCoordinates -> Prop :=
  | tilePath_origin : tilePath tiles origin
  | tilePath_step a b t :
      tilePath tiles a -> hexDistance a b = 1 ->
      getTile tiles b = Some t -> Type_ t <> TileType.Water ->
      tilePath tiles b.

(** ** Instances of the collaborators, to run the pipeline on examples *)

(** A height field given by the list of the coordinates above water: 1/2 on
    them and -1 everywhere else, whatever the seed and the radius. *)
Definition islandNoise (land : list AxialCoordinates)
    (a : AxialCoordinates) (seed : Q) (radius : Z) : Q :=
  if bool_decide (a ∈ land) then 1 # 2 else - (1).

(** A height field that is above water everywhere. *)
Definition plateauNoise (a : AxialCoordinates) (seed : Q) (radius : Z) : Q := 1 # 2.

(** A sampler that draws nothing from its source: the first [count] tiles of
    the requested type, in the order of [tileEntries]. *)
Definition firstTiles (tiles : TileMap) (count : Z) (ty : TileType.t) (rand : unit)
    : list AxialCoordinates * unit :=
  (take (Z.to_nat count)
     (fst <$> filter (fun e : AxialCoordinates * TileDefinition => Type_ e.2 = ty)
                (tileEntries tiles)), rand).

Definition islandUtil (land : list AxialCoordinates) : HexUtil :=
  {| calculateDecayingNoise := islandNoise land;
     Random := unit;
     Random_new := fun _ => tt;
     getRandomMapTiles := firstTiles |}.

Definition plateauUtil : HexUtil :=
  {| calculateDecayingNoise := plateauNoise;
     Random := unit;
     Random_new := fun _ => tt;
     getRandomMapTiles := firstTiles |}.

(** A small island in the shape of a bar: the origin and three of its
    neighbours are above water. *)
Definition barLand : list AxialCoordinates :=
  [origin; Axial 1 0; Axial 0 1; Axial (-1) 0].

(** Heights above water along a detour that leaves the map of radius 2: from
    the origin to (0,2) inside the map, then (0,3), (1,2) and (2,1) outside
    it, and back inside at (2,0). *)
Definition detourLand : list AxialCoordinates :=
  [origin; Axial 0 1; Axial 0 2; Axial 0 3; Axial 1 2; Axial 2 1; Axial 2 0].

(** A configuration with everything optional left out. *)
Definition plainConfig (radius totalTowns : Z) (generateBiomes : option bool)
    : MapConfig.t :=
  MapConfig.mk radius 1 totalTowns generateBiomes None None None.

(** The grid of radius 1 built over [barLand], at the start of a placement
    with an exclusion radius of 2. *)
Definition barState : @PlacerState (islandUtil barLand) :=
  @mkPlacer (islandUtil barLand)
    (@buildTiles (islandUtil barLand) (asMapConfigImpl 0 (plainConfig 1 3 None)))
    tt 0 2 0 [].

(** ** The rest of the two files *)

(** *** [RenderMap]: the height at which a tile is drawn *)

(** The first statements of the loop body of [RenderMap] (WorldBuilder.ts,
    lines 241-244): the height is sampled again from the configuration of the
    map, and replaced by the water level for a Water tile.  The rest of the
    function builds engine objects from it. *)
Definition renderHeight `{HexUtil} (mapDef : MapDefinition) (tileDef : TileDefinition)
    : Q :=
  let height :=
    calculateDecayingNoise (Position tileDef)
      (MapConfigImpl.Seed (Config mapDef)) (MapConfigImpl.Radius (Config mapDef)) in
  if decide (Type_ tileDef = TileType.Water)
  then MapConfigImpl.WaterLevel (Config mapDef)
  else height.

(** *** [BiomeManager]: the region-growing biome *)

(** The numbers of the enumeration [Biome].  At run time a [Biome] is its
    number, and [as Biome] checks nothing. *)
Definition biomeNumber (b : Biome.t) : Z :=
  match b with
  | Biome.Water => 0
  | Biome.Grassland => 1
  | Biome.Coastline => 2
  | Biome.MountainSnow => 3
  | Biome.Mountain => 4
  end.

(** [Object.values(Biome)]: the numbers of the members and, where the
    compiled enumeration keeps the reverse mapping in the same table, their
    names. *)
Definition biomeObject : list (Z + string) :=
  [inl 0; inr "Water"; inl 1; inr "Grassland"; inl 2; inr "Coastline";
   inl 3; inr "MountainSnow"; inl 4; inr "Mountain"].

Section SpecialBiome.
Context `{HexUtil}.
(** [rand.NextInteger(min, max)] of the engine's [Random]. *)
Variable NextInteger : Random -> Z -> Z -> Z * Random.
(** The private method [tileHasSpecialBiome], floating point arithmetic on the
    engine's [math.noise]: a function of the configuration and the
    coordinate. *)
Variable tileHasSpecialBiome : MapConfigImpl.t -> AxialCoordinates -> bool.

(** [randomBiome(rand)] (BiomeManager, lines 12-25). *)
Definition randomBiome (rand : Random) : Z * Random :=
  let min := 3 in
  let max :=
    foldl (fun max value => match value with inl _ => max + 1 | inr _ => max end)
      (-1) biomeObject in
  NextInteger rand min max.

(** The body of the [forEach] over the neighbours (lines 120-125). *)
Definition pushNeighbor (config : MapConfigImpl.t)
    (st : gset string * list AxialCoordinates) (neighbor : AxialCoordinates)
    : gset string * list AxialCoordinates :=
  let '(willVisit, toVisit) := st in
  if negb (bool_decide (axialKey neighbor ∈ willVisit))
     && bool_decide (cubeDistance neighbor <= MapConfigImpl.Radius config)
  then ({[axialKey neighbor]} ∪ willVisit, toVisit ++ [neighbor])
  else (willVisit, toVisit).

(** The [for (;;)] loop of [createBiomeFromSeed] (lines 103-129); [fuel]
    bounds the number of times its body is entered.  [biomeTiles] is a set of
    object references; every coordinate object is added at most once, so it is
    the list of the additions. *)
Fixpoint createBiomeLoop (config : MapConfigImpl.t) (fuel : nat)
    (visited willVisit : gset string) (toVisit biomeTiles : list AxialCoordinates)
    (visitIndex : nat) : option (list AxialCoordinates) :=
  match fuel with
  | O => None
  | S fuel =>
      match toVisit !! visitIndex with
      | None => Some biomeTiles
      | Some tile =>
          if decide (axialKey tile ∈ visited) then
            createBiomeLoop config fuel visited willVisit toVisit biomeTiles
              (S visitIndex)
          else
            let visited := {[axialKey tile]} ∪ visited in
            if tileHasSpecialBiome config tile then
              let '(willVisit, toVisit) :=
                foldl (pushNeighbor config) (willVisit, toVisit)
                  (getNearbyCoordinates tile 1) in
              createBiomeLoop config fuel visited willVisit toVisit
                (biomeTiles ++ [tile]) (S visitIndex)
            else
              createBiomeLoop config fuel visited willVisit toVisit biomeTiles
                (S visitIndex)
      end
  end.

(** [createBiomeFromSeed(seed)] (lines 92-136) on [this.biomeCache] and
    [this.rand]: the biome returned, and the cache and the random source
    afterwards. *)
Definition createBiomeFromSeed (config : MapConfigImpl.t) (fuel : nat)
    (biomeCache : gmap string Z) (rand : Random) (seed : AxialCoordinates)
    : option (Z * gmap string Z * Random) :=
  let '(newBiome, rand) := randomBiome rand in
  match createBiomeLoop config fuel ∅ ∅ [seed] [] 0 with
  | None => None
  | Some biomeTiles =>
      Some (newBiome,
            foldl (fun cache tile => <[axialKey tile := newBiome]> cache)
              biomeCache biomeTiles,
            rand)
  end.
End SpecialBiome.

(** ** Further notions used in the statements *)

(** The sampler returns at most as many tiles as it is asked for. *)
Definition samplerBounded `{HexUtil} : Prop :=
  forall (tiles : TileMap) (count : Z) (ty : TileType.t) (rand : Random),
    Z.of_nat (length (getRandomMapTiles tiles count ty rand).1) <= Z.max 0 count.

(** [NextInteger(min, max)] returns an integer from [min] to [max]. *)
Definition nextIntegerInRange {R : Type} (NextInteger : R -> Z -> Z -> Z * R) : Prop :=
  forall rand min max, min <= max -> min <= (NextInteger rand min max).1 <= max.

(** Any two Town tiles of the grid are farther apart than [r]. *)
Definition spaced (r : Z) (tiles : TileMap) : Prop :=
  forall a b ta tb, a <> b ->
    getTile tiles a = Some ta -> Type_ ta = TileType.Town ->
    getTile tiles b = Some tb -> Type_ tb = TileType.Town ->
    r < hexDistance a b.

(** [tiles'] has the tiles of [tiles] at the same keys, some of them with
    their type set to Town. *)
Definition retyped (tiles tiles' : TileMap) : Prop :=
  forall a,
    match getTile tiles a, getTile tiles' a with
    | Some t, Some t' =>
        Position t' = Position t /\ Biome_ t' = Biome_ t /\
        (Type_ t' = Type_ t \/ Type_ t' = TileType.Town)
    | None, None => True
    | _, _ => False
    end.

(** [a] is joined to [seed] by ring-1 steps through coordinates that have the
    special biome, those after [seed] within the radius. *)
Inductive specialRegion (special : AxialCoordinates -> bool) (radius : Z)
    (seed : AxialCoordinates) : AxialCoordinates -> Prop :=
  | specialRegion_seed : special seed = true -> specialRegion special radius seed seed
  | specialRegion_step a b :
      specialRegion special radius seed a -> hexDistance a b = 1 ->
      cubeDistance b <= radius -> special b = true ->
      specialRegion special radius seed b.

(** A random source that always returns the lower bound, and the special
    biome on the coordinates of a list. *)
Definition lowestInteger (rand : unit) (min max : Z) : Z * unit := (min, rand).

Definition specialOn (l : list AxialCoordinates) (config : MapConfigImpl.t)
    (a : AxialCoordinates) : bool :=
  bool_decide (a ∈ l).

(** * Properties *)

(** ** Numbers *)

Lemma num_le_spec a b : num_le a b = true <-> (a <= b)%Q.
Proof. apply Qle_bool_iff. Qed.

Lemma num_gt_spec a b : num_gt a b = true <-> (b < a)%Q.
Proof.
  unfold num_gt. rewrite Qgt_alt.
  destruct (a ?= b)%Q; split; congruence.
Qed.

Lemma num_le_false a b : num_le a b = false <-> (b < a)%Q.
Proof.
  rewrite <- not_true_iff_false, num_le_spec. split.
  - apply Qnot_le_lt.
  - apply Qlt_not_le.
Qed.

Lemma num_gt_false a b : num_gt a b = false <-> (a <= b)%Q.
Proof.
  rewrite <- not_true_iff_false, num_gt_spec. split.
  - apply Qnot_lt_le.
  - apply Qle_not_lt.
Qed.

(** ** Hexagons *)

Lemma cubeDistance_nonneg a : 0 <= cubeDistance a.
Proof. unfold cubeDistance. lia. Qed.

Lemma cubeDistance_le a r :
  cubeDistance a <= r <->
  - r <= X a <= r /\ - r <= - X a - Zc a <= r /\ - r <= Zc a <= r.
Proof. unfold cubeDistance. lia. Qed.

Lemma hexDistance_sym a b : hexDistance a b = hexDistance b a.
Proof. unfold hexDistance, cubeDistance. simpl. lia. Qed.

Lemma hexDistance_origin a : hexDistance origin a = cubeDistance a.
Proof.
  unfold hexDistance. destruct a as [x z]. simpl.
  by rewrite !Z.sub_0_r.
Qed.

Lemma hexDistance_zero a b : hexDistance a b = 0 <-> a = b.
Proof.
  destruct a as [xa za], b as [xb zb]. unfold hexDistance, cubeDistance. simpl.
  split.
  - intros Hd. f_equal; lia.
  - intros [= -> ->]. lia.
Qed.

(** The double loop enumerates the hexagon of radius [r]: every offset within
    cube distance [r], once. *)
Lemma elem_of_hexOffsets d r : d ∈ hexOffsets r <-> cubeDistance d <= r.
Proof.
  unfold hexOffsets. rewrite cubeDistance_le. split.
  - intros Hd. apply list_elem_of_bind in Hd as (x & Hd & Hx).
    apply list_elem_of_bind in Hd as (y & Hd & Hy).
    apply list_elem_of_singleton in Hd as ->.
    apply elem_of_seqZ in Hx, Hy. simpl. lia.
  - intros Hd. destruct d as [x z]. simpl in Hd.
    apply list_elem_of_bind. exists x. split; [|apply elem_of_seqZ; lia].
    apply list_elem_of_bind. exists (- x - z). split; [|apply elem_of_seqZ; lia].
    apply list_elem_of_singleton. f_equal. lia.
Qed.

Lemma NoDup_hexOffsets r : NoDup (hexOffsets r).
Proof.
  unfold hexOffsets. apply NoDup_bind.
  - intros x1 x2 d _ _ H1 H2.
    apply list_elem_of_bind in H1 as (y1 & H1 & _).
    apply list_elem_of_bind in H2 as (y2 & H2 & _).
    apply list_elem_of_singleton in H1, H2. by simplify_eq.
  - intros x _. apply NoDup_bind.
    + intros y1 y2 d _ _ H1 H2.
      apply list_elem_of_singleton in H1, H2. simplify_eq. lia.
    + intros y _. apply NoDup_singleton.
    + apply NoDup_seqZ.
  - apply NoDup_seqZ.
Qed.

Lemma elem_of_getNearbyCoordinates a b r :
  b ∈ getNearbyCoordinates a r <-> b <> a /\ hexDistance a b <= r.
Proof.
  unfold getNearbyCoordinates. rewrite list_elem_of_fmap. split.
  - intros (d & -> & Hd). apply list_elem_of_filter in Hd as [Hne Hd].
    apply elem_of_hexOffsets in Hd. split.
    + intros Heq. apply Hne. destruct a as [xa za], d as [xd zd].
      simpl in Heq. injection Heq as ??. unfold origin. f_equal; lia.
    + unfold hexDistance. simpl.
      replace (X a + X d - X a) with (X d) by lia.
      replace (Zc a + Zc d - Zc a) with (Zc d) by lia.
      by destruct d.
  - intros [Hne Hd]. exists (Axial (X b - X a) (Zc b - Zc a)). split.
    + destruct b as [xb zb]. simpl. f_equal; lia.
    + apply list_elem_of_filter. split.
      * intros [= Hx Hz]. apply Hne. destruct a, b. simpl in *. f_equal; lia.
      * by apply elem_of_hexOffsets.
Qed.

Lemma NoDup_getNearbyCoordinates a r : NoDup (getNearbyCoordinates a r).
Proof.
  unfold getNearbyCoordinates. apply NoDup_fmap_2.
  - intros [x1 z1] [x2 z2] [= Hx Hz]. f_equal; lia.
  - apply NoDup_filter, NoDup_hexOffsets.
Qed.

(** With radius 1 the neighbours are the six coordinates one step away. *)
Lemma elem_of_ring1 a b : b ∈ getNearbyCoordinates a 1 <-> hexDistance a b = 1.
Proof.
  rewrite elem_of_getNearbyCoordinates. split.
  - intros [Hne Hd].
    assert (hexDistance a b <> 0) by (by rewrite hexDistance_zero).
    pose proof (cubeDistance_nonneg (Axial (X b - X a) (Zc b - Zc a))).
    unfold hexDistance in *. lia.
  - intros Hd. split; [|lia].
    intros ->. assert (hexDistance a a = 0) by (by apply hexDistance_zero). lia.
Qed.

Lemma ring1_six a : length (getNearbyCoordinates a 1) = 6%nat.
Proof. unfold getNearbyCoordinates. by rewrite length_fmap. Qed.

(** ** The biome classifier *)

Section BiomeClassifier.
Context `{HexUtil}.
Variable config : MapConfigImpl.t.

Lemma tileHasWater_spec a :
  BiomeManager.tileHasWater config a = true <->
  (BiomeManager.height config a <= MapConfigImpl.WaterLevel config)%Q.
Proof.
  unfold BiomeManager.tileHasWater. rewrite <- num_le_spec.
  by destruct (num_le _ _).
Qed.

Lemma tileIsCoastline_spec a :
  BiomeManager.tileIsCoastline config a = true <->
  exists n, hexDistance a n = 1 /\
    (BiomeManager.height config n <= MapConfigImpl.WaterLevel config)%Q.
Proof.
  unfold BiomeManager.tileIsCoastline. rewrite existsb_exists. split.
  - intros (n & Hn & Hw). exists n. split.
    + by apply elem_of_ring1, list_elem_of_In.
    + by apply tileHasWater_spec.
  - intros (n & Hn & Hw). exists n. split.
    + by apply list_elem_of_In, elem_of_ring1.
    + by apply tileHasWater_spec.
Qed.

(** C4. [getTileBiome] returns Water when the height of the tile is at most
    the water level (equality included); otherwise Coastline when one of the
    six coordinates one step away has a height at most the water level;
    otherwise MountainSnow above 0.2, Mountain in (0, 0.2] and Grassland at or
    below 0. *)
Theorem getTileBiome_classifies (axial : AxialCoordinates) :
  ((BiomeManager.height config axial <= MapConfigImpl.WaterLevel config)%Q ->
     BiomeManager.getTileBiome config axial = Biome.Water) /\
  ((MapConfigImpl.WaterLevel config < BiomeManager.height config axial)%Q ->
   ((exists n, hexDistance axial n = 1 /\
       (BiomeManager.height config n <= MapConfigImpl.WaterLevel config)%Q) ->
      BiomeManager.getTileBiome config axial = Biome.Coastline) /\
   (~ (exists n, hexDistance axial n = 1 /\
       (BiomeManager.height config n <= MapConfigImpl.WaterLevel config)%Q) ->
      ((1 # 5 < BiomeManager.height config axial)%Q ->
         BiomeManager.getTileBiome config axial = Biome.MountainSnow) /\
      ((0 < BiomeManager.height config axial)%Q ->
       (BiomeManager.height config axial <= 1 # 5)%Q ->
         BiomeManager.getTileBiome config axial = Biome.Mountain) /\
      ((BiomeManager.height config axial <= 0)%Q ->
         BiomeManager.getTileBiome config axial = Biome.Grassland))).
Proof.
  unfold BiomeManager.getTileBiome. split.
  - intros Hw. apply tileHasWater_spec in Hw. by rewrite Hw.
  - intros Hland.
    assert (BiomeManager.tileHasWater config axial = false) as ->.
    { apply not_true_iff_false. rewrite tileHasWater_spec. by apply Qlt_not_le. }
    split.
    + intros Hc. apply tileIsCoastline_spec in Hc. by rewrite Hc.
    + intros Hc.
      assert (BiomeManager.tileIsCoastline config axial = false) as ->.
      { apply not_true_iff_false. by rewrite tileIsCoastline_spec. }
      split; [|split].
      * intros Hh. apply num_gt_spec in Hh. by rewrite Hh.
      * intros H0 H2. apply num_gt_false in H2. apply num_gt_spec in H0.
        by rewrite H2, H0.
      * intros H0.
        assert (num_gt (BiomeManager.height config axial) (1 # 5) = false) as ->.
        { apply num_gt_false. eapply Qle_trans; [exact H0|]. by compute. }
        apply num_gt_false in H0. by rewrite H0.
Qed.
End BiomeClassifier.

(** ** Keys *)

Lemma pretty_N_go_comma_free x s :
  ~ In ","%char (String.list_ascii_of_string s) ->
  ~ In ","%char (String.list_ascii_of_string (pretty_N_go x s)).
Proof.
  revert s. induction (N.lt_wf_0 x) as [x _ IH]; intros s Hs.
  destruct (decide (x = 0)%N) as [->|Hx].
  - by rewrite pretty_N_go_0.
  - rewrite pretty_N_go_step by lia. apply IH.
    + apply N.div_lt; lia.
    + simpl. intros [Hc|Hc]; [|done].
      unfold pretty_N_char in Hc. by repeat case_match.
Qed.

Lemma pretty_Z_comma_free (x : Z) :
  ~ In ","%char (String.list_ascii_of_string (pretty x)).
Proof.
  assert (forall n : N, ~ In ","%char (String.list_ascii_of_string (pretty n))) as HN.
  { intros n. unfold pretty, pretty_N. case_decide.
    - simpl. intros [Hc|[]]. discriminate.
    - apply pretty_N_go_comma_free. simpl. tauto. }
  destruct x as [|p|p]; unfold pretty, pretty_Z.
  - simpl. intros [Hc|[]]. discriminate.
  - apply HN.
  - simpl. intros [Hc|Hc]; [discriminate|]. by apply (HN (N.pos p)).
Qed.

Lemma string_app_nil s : "" +:+ s = s.
Proof. reflexivity. Qed.

Lemma string_app_cons c s t : String c s +:+ t = String c (s +:+ t).
Proof. reflexivity. Qed.

Lemma comma_split s1 s2 t1 t2 :
  ~ In ","%char (String.list_ascii_of_string s1) ->
  ~ In ","%char (String.list_ascii_of_string s2) ->
  s1 +:+ "," +:+ t1 = s2 +:+ "," +:+ t2 -> s1 = s2 /\ t1 = t2.
Proof.
  revert s2. induction s1 as [|c1 s1 IH]; intros [|c2 s2] H1 H2 Heq;
    repeat (rewrite string_app_nil in Heq || rewrite string_app_cons in Heq);
    simpl in H1, H2.
  - by injection Heq as ->.
  - injection Heq as <- _. tauto.
  - injection Heq as -> _. tauto.
  - injection Heq as -> Heq. apply IH in Heq as [-> ->]; tauto.
Qed.

#[global] Instance axialKey_inj : Inj (=) (=) axialKey.
Proof.
  intros [x1 z1] [x2 z2]. unfold axialKey. simpl. intros Heq.
  apply comma_split in Heq as [Hx Hz]; try apply pretty_Z_comma_free.
  apply (inj pretty) in Hx, Hz. by subst.
Qed.

Lemma axialKey_origin : axialKey origin = "0,0".
Proof. reflexivity. Qed.

(** ** The grid as a two-level map *)

Lemma getTile_empty a : getTile ∅ a = None.
Proof. unfold getTile. by rewrite lookup_empty. Qed.

Lemma getTile_setTile (tiles : TileMap) x z t a :
  getTile (setTile tiles x z t) a =
  if decide (a = Axial x z) then Some t else getTile tiles a.
Proof.
  unfold getTile, setTile. destruct a as [xa za]. simpl.
  destruct (decide (x = xa)) as [->|Hx].
  - rewrite lookup_insert_eq.
    destruct (decide (z = za)) as [->|Hz].
    + rewrite lookup_insert_eq. by rewrite decide_True.
    + rewrite lookup_insert_ne by done.
      rewrite decide_False by congruence.
      destruct (tiles !! xa); [done|]. by rewrite lookup_empty.
  - rewrite lookup_insert_ne by done.
    by rewrite decide_False by congruence.
Qed.

Lemma getTile_updateTile f a (tiles : TileMap) b :
  getTile (updateTile f a tiles) b =
  if decide (b = a) then f <$> getTile tiles b else getTile tiles b.
Proof.
  unfold getTile, updateTile. destruct a as [xa za], b as [xb zb]. simpl.
  destruct (decide (xa = xb)) as [->|Hx].
  - rewrite lookup_alter_eq.
    destruct (tiles !! xb) as [zMap|]; simpl.
    + destruct (decide (za = zb)) as [->|Hz].
      * rewrite lookup_alter_eq. by rewrite decide_True.
      * rewrite lookup_alter_ne by done. by rewrite decide_False by congruence.
    + by case_decide.
  - rewrite lookup_alter_ne by done. by rewrite decide_False by congruence.
Qed.

Lemma elem_of_tileEntries (tiles : TileMap) a t :
  (a, t) ∈ tileEntries tiles <-> getTile tiles a = Some t.
Proof.
  unfold tileEntries, getTile. rewrite list_elem_of_bind. split.
  - intros ([x zMap] & Hin & Hx). apply elem_of_map_to_list in Hx.
    apply list_elem_of_fmap in Hin as ([z t'] & [= -> ->] & Hz).
    apply elem_of_map_to_list in Hz. simpl. by rewrite Hx.
  - destruct a as [x z]. simpl. intros Hg.
    destruct (tiles !! x) as [zMap|] eqn:Hx; [|done].
    exists (x, zMap). split; [|by apply elem_of_map_to_list].
    apply list_elem_of_fmap. exists (z, t). split; [done|].
    by apply elem_of_map_to_list.
Qed.

Lemma NoDup_tileEntries (tiles : TileMap) : NoDup (tileEntries tiles).*1.
Proof.
  unfold tileEntries.
  assert (forall l : list (Z * gmap Z TileDefinition), NoDup l.*1 ->
    NoDup ((l ≫= fun '(x, zMap) =>
      (fun e : Z * TileDefinition => (Axial x e.1, e.2)) <$> map_to_list zMap).*1))
    as Hgen.
  { induction l as [|[x zMap] l IH]; intros Hnd; csimpl; [constructor|].
    apply NoDup_cons in Hnd as [Hx Hnd].
    rewrite fmap_app. apply NoDup_app. split_and!.
    - rewrite <- list_fmap_compose.
      apply (NoDup_fmap_2_strong _).
      + intros [z1 t1] [z2 t2] H1 H2 [= Hz]. simpl in *. subst.
        apply elem_of_map_to_list in H1, H2. congruence.
      + apply NoDup_map_to_list.
    - intros a Ha Hb. apply Hx.
      apply list_elem_of_fmap in Ha as ([a1 t1] & -> & Ha).
      apply list_elem_of_fmap in Ha as ([z1 t1'] & [= -> ->] & _).
      apply list_elem_of_fmap in Hb as ([a2 t2] & Heq & Hb). simpl in Heq. subst a2.
      apply list_elem_of_bind in Hb as ([x2 zMap2] & Hb & Hl).
      apply list_elem_of_fmap in Hb as ([z2 t2'] & [= -> -> ->] & _).
      apply list_elem_of_fmap. by exists (x2, zMap2).
    - by apply IH. }
  apply Hgen, NoDup_fst_map_to_list.
Qed.

Lemma elem_of_tileList (tiles : TileMap) t :
  t ∈ tileList tiles <-> exists a, getTile tiles a = Some t.
Proof.
  unfold tileList. rewrite list_elem_of_fmap. split.
  - intros ([a t'] & -> & Hin). exists a. by apply elem_of_tileEntries.
  - intros (a & Hg). exists (a, t). split; [done|]. by apply elem_of_tileEntries.
Qed.

(** The number of tiles of a grid whose keys are exactly the coordinates of a
    duplicate-free list is the length of that list. *)
Lemma tileCount_keys (tiles : TileMap) (keys : list AxialCoordinates) :
  NoDup keys ->
  (forall a, a ∈ keys <-> is_Some (getTile tiles a)) ->
  tileCount tiles = length keys.
Proof.
  intros Hnd Hkeys. unfold tileCount, tileList.
  rewrite length_fmap, <- (length_fmap fst).
  apply Permutation_length, NoDup_Permutation; [apply NoDup_tileEntries|done|].
  intros a. rewrite Hkeys, list_elem_of_fmap. split.
  - intros ([a' t] & -> & Hin). exists t. by apply elem_of_tileEntries.
  - intros [t Ht]. exists (a, t). split; [done|]. by apply elem_of_tileEntries.
Qed.

(** ** The terrain grid *)

Lemma foldl_bind {A B S : Type} (f : S -> B -> S) (g : A -> list B) (s : S) (l : list A) :
  foldl f s (l ≫= g) = foldl (fun s x => foldl f s (g x)) s l.
Proof.
  revert s. induction l as [|x l IH]; intros s; csimpl; [done|].
  by rewrite foldl_app, IH.
Qed.

Lemma foldl_ext_in {A S : Type} (f g : S -> A -> S) (s : S) (l : list A) :
  (forall s x, x ∈ l -> f s x = g s x) -> foldl f s l = foldl g s l.
Proof.
  revert s. induction l as [|x l IH]; intros s Hfg; simpl; [done|].
  rewrite Hfg by apply list_elem_of_here.
  apply IH. intros s' y Hy. apply Hfg. by apply list_elem_of_further.
Qed.

Lemma getTile_foldl_setTile (mk : AxialCoordinates -> TileDefinition)
    (l : list AxialCoordinates) (tiles : TileMap) a :
  getTile (foldl (fun tiles d => setTile tiles (X d) (Zc d) (mk d)) tiles l) a =
  if decide (a ∈ l) then Some (mk a) else getTile tiles a.
Proof.
  revert tiles. induction l as [|d l IH] using rev_ind; intros tiles.
  - destruct (decide (a ∈ [])) as [Hin|]; [by apply not_elem_of_nil in Hin|done].
  - rewrite foldl_app. simpl. rewrite getTile_setTile, IH.
    destruct d as [x z]. simpl.
    destruct (decide (a = Axial x z)) as [->|Hne].
    + rewrite decide_True; [done|]. apply elem_of_app. right. apply list_elem_of_here.
    + destruct (decide (a ∈ l)) as [Hin|Hnin].
      * rewrite decide_True; [done|]. apply elem_of_app. by left.
      * rewrite decide_False; [done|].
        rewrite elem_of_app, list_elem_of_singleton. tauto.
Qed.

Section TerrainGrid.
Context `{HexUtil}.
Variable config : MapConfigImpl.t.

(** The build loop stores [newTile] at every offset of the hexagon. *)
Lemma buildTiles_hexOffsets :
  buildTiles config =
  foldl (fun tiles d => setTile tiles (X d) (Zc d) (newTile config d)) ∅
    (hexOffsets (MapConfigImpl.Radius config)).
Proof.
  unfold buildTiles, forRange, hexOffsets.
  replace (MapConfigImpl.Radius config - - MapConfigImpl.Radius config + 1)
    with (2 * MapConfigImpl.Radius config + 1) by lia.
  rewrite foldl_bind. apply foldl_ext_in. intros tiles x _.
  rewrite foldl_bind. apply foldl_ext_in. intros tiles' y _.
  simpl. unfold buildTile. by case_decide as Hz; [rewrite <- Hz|].
Qed.

Lemma getTile_buildTiles a :
  getTile (buildTiles config) a =
  if decide (cubeDistance a <= MapConfigImpl.Radius config)
  then Some (newTile config a) else None.
Proof.
  rewrite buildTiles_hexOffsets, getTile_foldl_setTile, getTile_empty.
  destruct (decide (cubeDistance a <= _)) as [Hd|Hd].
  - rewrite decide_True; [done|]. by apply elem_of_hexOffsets.
  - rewrite decide_False; [done|]. by rewrite elem_of_hexOffsets.
Qed.
End TerrainGrid.

(** *** The number of offsets of a hexagon *)

Lemma length_row (x : Z) (ys : list Z) :
  length (ys ≫= fun y => [Axial x (- x - y)]) = length ys.
Proof. induction ys as [|y ys IH]; csimpl; [done|]. by rewrite IH. Qed.

Lemma length_hexOffsets_row (r x : Z) :
  - r <= x <= r ->
  Z.of_nat (length (seqZ (Z.max (- r) (- x - r))
                      (Z.min r (- x + r) - Z.max (- r) (- x - r) + 1)
                    ≫= fun y => [Axial x (- x - y)])) = 2 * r + 1 - Z.abs x.
Proof. intros Hx. rewrite length_row, length_seqZ. lia. Qed.

Lemma length_hexOffsets_west (r : Z) (k : nat) :
  Z.of_nat k <= r ->
  2 * Z.of_nat (length (seqZ (- r) (Z.of_nat k) ≫= fun x =>
        seqZ (Z.max (- r) (- x - r))
          (Z.min r (- x + r) - Z.max (- r) (- x - r) + 1)
        ≫= fun y => [Axial x (- x - y)]))
  = Z.of_nat k * (2 * r + Z.of_nat k + 1).
Proof.
  induction k as [|k IH]; intros Hk; [done|].
  rewrite seqZ_S, bind_app, length_app, bind_singleton.
  rewrite Nat2Z.inj_add, length_hexOffsets_row by lia.
  rewrite Z.mul_add_distr_l, IH by lia. lia.
Qed.

Lemma length_hexOffsets_east (r : Z) (k : nat) :
  Z.of_nat k <= r + 1 ->
  2 * Z.of_nat (length (seqZ 0 (Z.of_nat k) ≫= fun x =>
        seqZ (Z.max (- r) (- x - r))
          (Z.min r (- x + r) - Z.max (- r) (- x - r) + 1)
        ≫= fun y => [Axial x (- x - y)]))
  = Z.of_nat k * (4 * r + 3 - Z.of_nat k).
Proof.
  induction k as [|k IH]; intros Hk; [done|].
  rewrite seqZ_S, bind_app, length_app, bind_singleton.
  rewrite Nat2Z.inj_add, length_hexOffsets_row by lia.
  rewrite Z.mul_add_distr_l, IH by lia. lia.
Qed.

Lemma length_hexOffsets (r : Z) :
  0 <= r -> Z.of_nat (length (hexOffsets r)) = 3 * r * r + 3 * r + 1.
Proof.
  intros Hr. unfold hexOffsets.
  replace (2 * r + 1) with (r + (r + 1)) by lia.
  rewrite seqZ_app by lia. rewrite bind_app, length_app, Nat2Z.inj_add.
  replace (- r + r) with 0 by lia.
  pose proof (length_hexOffsets_west r (Z.to_nat r)) as Hw.
  pose proof (length_hexOffsets_east r (Z.to_nat (r + 1))) as He.
  rewrite !Z2Nat.id in Hw, He by lia.
  specialize (Hw ltac:(lia)). specialize (He ltac:(lia)). nia.
Qed.

Lemma newTile_Position `{HexUtil} config a : Position (newTile config a) = a.
Proof. reflexivity. Qed.

(** C5. For a radius R >= 0 the build loop makes 3R^2 + 3R + 1 tiles: one at
    every coordinate within cube distance R of the origin, carrying that
    coordinate as its [Position], no two tiles with the same [Position], and
    none at a coordinate farther away. *)
Theorem buildTiles_hexagon `{HexUtil} (config : MapConfigImpl.t) :
  0 <= MapConfigImpl.Radius config ->
  Z.of_nat (tileCount (buildTiles config)) =
    3 * MapConfigImpl.Radius config * MapConfigImpl.Radius config
    + 3 * MapConfigImpl.Radius config + 1 /\
  NoDup (Position <$> tileList (buildTiles config)) /\
  (forall a, cubeDistance a <= MapConfigImpl.Radius config ->
     exists t, getTile (buildTiles config) a = Some t /\ Position t = a) /\
  (forall a, MapConfigImpl.Radius config < cubeDistance a ->
     getTile (buildTiles config) a = None) /\
  (forall t, t ∈ tileList (buildTiles config) ->
     getTile (buildTiles config) (Position t) = Some t /\
     cubeDistance (Position t) <= MapConfigImpl.Radius config).
Proof.
  intros HR. split_and!.
  - rewrite <- length_hexOffsets by done. f_equal.
    apply tileCount_keys; [apply NoDup_hexOffsets|].
    intros a. rewrite getTile_buildTiles, elem_of_hexOffsets.
    case_decide; split; intros Ha; try done; by destruct Ha.
  - unfold tileList. rewrite <- list_fmap_compose.
    rewrite <- (proj1 (Forall_fmap_ext fst (Position ∘ snd) _)).
    + apply NoDup_tileEntries.
    + apply Forall_forall. intros [a t] Hin. simpl.
      apply elem_of_tileEntries in Hin. rewrite getTile_buildTiles in Hin.
      case_decide; by simplify_eq.
  - intros a Ha. exists (newTile config a).
    rewrite getTile_buildTiles. by rewrite decide_True.
  - intros a Ha. rewrite getTile_buildTiles. by rewrite decide_False by lia.
  - intros t Ht. apply elem_of_tileList in Ht as (a & Ha).
    rewrite getTile_buildTiles in Ha. case_decide; simplify_eq.
    rewrite newTile_Position, getTile_buildTiles. by rewrite decide_True.
Qed.

Lemma buildTiles_hexagon_witness :
  0 <= 2 /\
  Z.of_nat (tileCount (@buildTiles (islandUtil [origin; Axial 1 0])
               (asMapConfigImpl 0 (plainConfig 2 1 (Some true))))) = 19.
Proof.
  split; [lia|].
  apply (@buildTiles_hexagon (islandUtil [origin; Axial 1 0])
           (asMapConfigImpl 0 (plainConfig 2 1 (Some true)))).
  simpl. lia.
Defined.

(** ** The flood fill *)

Lemma foldl_invariant {A S : Type} (P : S -> Prop) (f : S -> A -> S) (l : list A) (s : S) :
  P s -> (forall s x, x ∈ l -> P s -> P (f s x)) -> P (foldl f s l).
Proof.
  revert s. induction l as [|x l IH]; intros s Hs Hstep; simpl; [done|].
  apply IH.
  - apply Hstep; [apply list_elem_of_here|done].
  - intros s' y Hy. apply Hstep. by apply list_elem_of_further.
Qed.

Section FloodFill.
Context `{HexUtil}.
Variable config : MapConfigImpl.t.

Lemma aboveWater_spec a :
  aboveWater config a <->
  (MapConfigImpl.WaterLevel config < BiomeManager.height config a)%Q.
Proof. apply num_le_false. Qed.

Lemma reachable_above a : reachable config a -> a = origin \/ aboveWater config a.
Proof. destruct 1; auto. Qed.

(** The entries of [visited] after one neighbour: only the key of the
    neighbour can change, and only if it had no entry. *)
Lemma visitNeighbor_lookup visited toVisit n k :
  (visitNeighbor config (visited, toVisit) n).1 !! k =
  if decide (k = axialKey n) then
    match visited !! k with
    | Some b => Some b
    | None => Some (negb (num_le (BiomeManager.height config n)
                            (MapConfigImpl.WaterLevel config)))
    end
  else visited !! k.
Proof.
  unfold visitNeighbor, BiomeManager.height.
  destruct (visited !! axialKey n) as [b|] eqn:Hn; simpl.
  - case_decide; [subst; by rewrite Hn|done].
  - destruct (num_le _ _); simpl; rewrite lookup_insert;
      case_decide; subst; rewrite ?decide_True, ?decide_False by done;
      by rewrite ?Hn.
Qed.

Lemma visitNeighbor_mono visited toVisit n k b :
  visited !! k = Some b ->
  (visitNeighbor config (visited, toVisit) n).1 !! k = Some b.
Proof.
  intros Hk. rewrite visitNeighbor_lookup. case_decide; by rewrite Hk.
Qed.

Lemma visitNeighbor_inv visited toVisit n :
  FloodInv config visited toVisit ->
  (aboveWater config n -> reachable config n) ->
  FloodInv config (visitNeighbor config (visited, toVisit) n).1
    (visitNeighbor config (visited, toVisit) n).2.
Proof.
  intros [Ht Hq Hf Hnd Hr] Hn. unfold visitNeighbor.
  destruct (visited !! axialKey n) as [b|] eqn:Hvn; [by constructor|].
  assert (n ∉ toVisit) as Hnq.
  { intros Hin. apply Hq in Hin. congruence. }
  fold (BiomeManager.height config n).
  destruct (num_le _ _) eqn:Hle; simpl; constructor.
  - intros a. rewrite lookup_insert. case_decide; [done|]. apply Ht.
  - intros a Ha. rewrite lookup_insert. case_decide as Hk; [|by apply Hq].
    apply (inj axialKey) in Hk. by subst.
  - intros a. rewrite lookup_insert. case_decide as Hk; [|by apply Hf].
    apply (inj axialKey) in Hk. subst a. intros _. unfold aboveWater. congruence.
  - done.
  - done.
  - intros a. rewrite lookup_insert, elem_of_app, list_elem_of_singleton.
    case_decide as Hk.
    + apply (inj axialKey) in Hk. auto.
    + intros Ha. left. by apply Ht.
  - intros a. rewrite lookup_insert, elem_of_app, list_elem_of_singleton.
    intros [Ha| ->]; [|by rewrite decide_True].
    case_decide; [done|]. by apply Hq.
  - intros a. rewrite lookup_insert. case_decide; [done|]. apply Hf.
  - apply NoDup_app. split_and!; [done| |apply NoDup_singleton].
    intros a Ha Hb. apply list_elem_of_singleton in Hb. by subst.
  - intros a. rewrite elem_of_app, list_elem_of_singleton.
    intros [Ha| ->]; [by apply Hr|]. by apply Hn.
Qed.

Lemma visitNeighbors_inv visited toVisit ns :
  FloodInv config visited toVisit ->
  (forall n, n ∈ ns -> aboveWater config n -> reachable config n) ->
  FloodInv config (foldl (visitNeighbor config) (visited, toVisit) ns).1
    (foldl (visitNeighbor config) (visited, toVisit) ns).2.
Proof.
  intros Hinv Hns.
  apply (foldl_invariant (fun st => FloodInv config st.1 st.2)); [done|].
  intros [v q] n Hn Hst. apply visitNeighbor_inv; [done|]. by apply Hns.
Qed.

Lemma visitNeighbors_mono visited toVisit ns k b :
  visited !! k = Some b ->
  (foldl (visitNeighbor config) (visited, toVisit) ns).1 !! k = Some b.
Proof.
  intros Hk.
  apply (foldl_invariant (fun st => st.1 !! k = Some b)); [done|].
  intros [v q] n _ Hst. by apply visitNeighbor_mono.
Qed.

(** After the loop over the neighbours every one of them has an entry, and
    one that had none is marked by its height. *)
Lemma visitNeighbors_marks visited toVisit ns n :
  n ∈ ns -> visited !! axialKey n = None ->
  (foldl (visitNeighbor config) (visited, toVisit) ns).1 !! axialKey n
  = Some (negb (num_le (BiomeManager.height config n)
                  (MapConfigImpl.WaterLevel config))).
Proof.
  revert visited toVisit. induction ns as [|m ns IH]; intros v q Hin Hv.
  - by apply not_elem_of_nil in Hin.
  - cbn [foldl]. destruct (decide (n = m)) as [->|Hne].
    + destruct (visitNeighbor config (v, q) m) as [v1 q1] eqn:Hstep.
      apply visitNeighbors_mono.
      change v1 with (v1, q1).1. rewrite <- Hstep, visitNeighbor_lookup.
      by rewrite decide_True, Hv.
    + apply elem_of_cons in Hin as [?|Hin]; [done|].
      destruct (visitNeighbor config (v, q) m) as [v1 q1] eqn:Hstep.
      apply IH; [done|].
      change v1 with (v1, q1).1. rewrite <- Hstep, visitNeighbor_lookup.
      rewrite decide_False; [done|]. by intros ?%(inj axialKey).
Qed.
End FloodFill.

Section FloodFillLoop.
Context `{HexUtil}.
Variable config : MapConfigImpl.t.

Lemma FloodInv_initial : FloodInv config {["0,0" := true]} [Axial 0 0].
Proof.
  constructor.
  - intros a. rewrite lookup_singleton. case_decide as Hk; [|done].
    intros _. apply (inj axialKey origin a) in Hk as <-. apply list_elem_of_here.
  - intros a ->%list_elem_of_singleton. by rewrite lookup_singleton.
  - intros a. rewrite lookup_singleton. by case_decide.
  - apply NoDup_singleton.
  - intros a ->%list_elem_of_singleton. constructor.
Qed.

(** One turn of the loop keeps the invariant. *)
Lemma floodFill_turn_inv visited toVisit visitIdx tile :
  FloodInv config visited toVisit ->
  toVisit !! visitIdx = Some tile ->
  FloodInv config
    (foldl (visitNeighbor config) (visited, toVisit) (getNearbyCoordinates tile 1)).1
    (foldl (visitNeighbor config) (visited, toVisit) (getNearbyCoordinates tile 1)).2.
Proof.
  intros Hinv Htile. apply visitNeighbors_inv; [done|].
  intros n Hn Habove. apply reachable_step with tile; [|by apply elem_of_ring1|done].
  eapply inv_reach; [done|]. by eapply list_elem_of_lookup_2.
Qed.

Lemma floodFillLoop_inv fuel visited toVisit visitIdx visited' :
  FloodInv config visited toVisit ->
  floodFillLoop config fuel visited toVisit visitIdx = Some visited' ->
  (exists toVisit', FloodInv config visited' toVisit') /\
  (forall k b, visited !! k = Some b -> visited' !! k = Some b).
Proof.
  revert visited toVisit visitIdx.
  induction fuel as [|fuel IH]; intros v q idx Hinv Hrun; [done|].
  cbn [floodFillLoop] in Hrun.
  destruct (q !! idx) as [tile|] eqn:Htile.
  - pose proof (floodFill_turn_inv _ _ _ _ Hinv Htile) as Hinv'.
    destruct (foldl (visitNeighbor config) (v, q) (getNearbyCoordinates tile 1))
      as [v1 q1] eqn:Hfold.
    apply IH in Hrun as [Hex Hmono]; [|done]. split; [done|].
    intros k b Hk. apply Hmono.
    change v1 with (v1, q1).1. rewrite <- Hfold. by apply visitNeighbors_mono.
  - injection Hrun as <-. split; [by exists q|done].
Qed.

(** More fuel does not change a result. *)
Lemma floodFillLoop_fuel fuel fuel' visited toVisit visitIdx visited' :
  floodFillLoop config fuel visited toVisit visitIdx = Some visited' ->
  (fuel <= fuel')%nat ->
  floodFillLoop config fuel' visited toVisit visitIdx = Some visited'.
Proof.
  revert fuel' visited toVisit visitIdx.
  induction fuel as [|fuel IH]; intros fuel' v q idx Hrun Hle; [done|].
  destruct fuel' as [|fuel']; [lia|].
  cbn [floodFillLoop] in *.
  destruct (q !! idx) as [tile|]; [|done].
  destruct (foldl _ _ _) as [v1 q1]. apply IH; [done|lia].
Qed.

Lemma floodFill_fuel fuel fuel' visited :
  floodFill config fuel = Some visited -> (fuel <= fuel')%nat ->
  floodFill config fuel' = Some visited.
Proof. apply floodFillLoop_fuel. Qed.

(** What the marks of a finished flood fill mean. *)
Lemma floodFill_sound fuel visited :
  floodFill config fuel = Some visited ->
  visited !! "0,0" = Some true /\
  (forall a, visited !! axialKey a = Some true -> reachable config a) /\
  (forall a, visited !! axialKey a = Some false -> ~ aboveWater config a).
Proof.
  intros Hrun. apply floodFillLoop_inv in Hrun as [[q Hinv] Hmono];
    [|apply FloodInv_initial].
  split_and!.
  - apply Hmono. by rewrite lookup_singleton.
  - intros a Ha. eapply inv_reach; [done|]. by eapply inv_true.
  - by eapply inv_false.
Qed.

(** The first turn marks the six neighbours of the origin by their heights,
    and no later turn changes a mark. *)
Lemma floodFill_ring1 fuel visited n :
  floodFill config fuel = Some visited ->
  hexDistance origin n = 1 ->
  visited !! axialKey n
  = Some (negb (num_le (BiomeManager.height config n)
                  (MapConfigImpl.WaterLevel config))).
Proof.
  unfold floodFill. destruct fuel as [|fuel]; [done|].
  cbn [floodFillLoop]. change ([Axial 0 0] !! 0%nat) with (Some origin).
  intros Hrun Hn. cbv match in Hrun.
  pose proof (visitNeighbors_marks config {["0,0" := true]} [Axial 0 0]
                (getNearbyCoordinates origin 1) n) as Hmark.
  pose proof (visitNeighbors_inv config {["0,0" := true]} [Axial 0 0]
                (getNearbyCoordinates origin 1) FloodInv_initial) as Hinv.
  destruct (foldl _ _ _) as [v1 q1].
  eapply floodFillLoop_inv in Hrun as [_ Hmono].
  - apply Hmono, Hmark; [by apply elem_of_ring1|].
    rewrite lookup_singleton. rewrite decide_False; [done|].
    intros Hk. apply (inj axialKey origin n) in Hk as <-.
    by rewrite (proj2 (hexDistance_zero origin origin) eq_refl) in Hn.
  - apply Hinv. intros m Hm Habove.
    apply reachable_step with origin; [constructor|by apply elem_of_ring1|done].
Qed.
End FloodFillLoop.

(** *** Termination when the heights decay *)

Section FloodFillTermination.
Context `{HexUtil}.
Variable config : MapConfigImpl.t.
Variable D : Z.
Hypothesis decay : forall a, D < cubeDistance a -> ~ aboveWater config a.

Lemma queue_bound visited toVisit :
  FloodInv config visited toVisit ->
  (length toVisit <= length (hexOffsets (Z.max D 0)))%nat.
Proof.
  intros Hinv. apply submseteq_length, NoDup_submseteq; [by eapply inv_nodup|].
  intros a Ha. apply elem_of_hexOffsets.
  eapply inv_reach, reachable_above in Ha as [->|Ha]; [| |done].
  - unfold cubeDistance. simpl. lia.
  - destruct (decide (D < cubeDistance a)) as [Hfar|]; [|lia].
    by apply decay in Hfar.
Qed.

Lemma floodFillLoop_terminates fuel visited toVisit visitIdx :
  FloodInv config visited toVisit ->
  (1 <= fuel)%nat ->
  (length (hexOffsets (Z.max D 0)) + 1 <= fuel + visitIdx)%nat ->
  exists visited', floodFillLoop config fuel visited toVisit visitIdx = Some visited'.
Proof.
  revert visited toVisit visitIdx.
  induction fuel as [|fuel IH]; intros v q idx Hinv Hfuel Hbound; [lia|].
  cbn [floodFillLoop].
  destruct (q !! idx) as [tile|] eqn:Htile; [|by eexists].
  pose proof (floodFill_turn_inv config _ _ _ _ Hinv Htile) as Hinv'.
  apply lookup_lt_Some in Htile. apply queue_bound in Hinv.
  destruct (foldl _ _ _) as [v1 q1]. apply IH; [done|lia..].
Qed.

Lemma floodFill_terminates :
  exists visited,
    floodFill config (S (length (hexOffsets (Z.max D 0)))) = Some visited.
Proof.
  apply floodFillLoop_terminates; [apply FloodInv_initial|lia..].
Qed.
End FloodFillTermination.

(** *** No termination when the heights are above water everywhere *)

Lemma max_X_exists (l : list AxialCoordinates) :
  l <> [] -> exists a, a ∈ l /\ forall b, b ∈ l -> X b <= X a.
Proof.
  induction l as [|c l IH]; [done|]. intros _.
  destruct l as [|c' l].
  - exists c. split; [apply list_elem_of_here|].
    intros b ->%list_elem_of_singleton. lia.
  - destruct IH as (a & Ha & Hmax); [done|].
    destruct (decide (X a <= X c)).
    + exists c. split; [apply list_elem_of_here|].
      intros b [->|Hb]%elem_of_cons; [lia|]. apply Hmax in Hb. lia.
    + exists a. split; [by apply list_elem_of_further|].
      intros b [->|Hb]%elem_of_cons; [lia|]. by apply Hmax.
Qed.

Lemma visitNeighbors_prefix `{HexUtil} config visited toVisit ns :
  exists l, (foldl (visitNeighbor config) (visited, toVisit) ns).2 = toVisit ++ l.
Proof.
  apply (foldl_invariant (fun st => exists l, st.2 = toVisit ++ l)).
  - exists []. by rewrite app_nil_r.
  - intros [v q] n _ [l Hl]. simpl in Hl. subst q. unfold visitNeighbor.
    destruct (v !! axialKey n); [by exists l|].
    destruct (num_le _ _); [by exists l|].
    exists (l ++ [n]). simpl. by rewrite app_assoc.
Qed.

Section FloodFillPlateau.
Context `{HexUtil}.
Variable config : MapConfigImpl.t.
Hypothesis plateau : forall a, aboveWater config a.

Lemma floodFillLoop_plateau fuel visited toVisit visitIdx :
  FloodInv config visited toVisit ->
  origin ∈ toVisit ->
  (forall i a, (i < visitIdx)%nat -> toVisit !! i = Some a ->
     forall n, hexDistance a n = 1 -> n ∈ toVisit) ->
  floodFillLoop config fuel visited toVisit visitIdx = None.
Proof.
  revert visited toVisit visitIdx.
  induction fuel as [|fuel IH]; intros v q idx Hinv Horigin Hclosed; [done|].
  cbn [floodFillLoop].
  destruct (q !! idx) as [tile|] eqn:Htile.
  - pose proof (floodFill_turn_inv config _ _ _ _ Hinv Htile) as Hinv'.
    destruct (visitNeighbors_prefix config v q (getNearbyCoordinates tile 1))
      as [l Hl].
    assert (forall n, hexDistance tile n = 1 ->
      n ∈ (foldl (visitNeighbor config) (v, q) (getNearbyCoordinates tile 1)).2)
      as Htile_closed.
    { intros n Hn. eapply inv_true; [done|].
      destruct (v !! axialKey n) as [b|] eqn:Hvn.
      - destruct b.
        + by apply visitNeighbors_mono.
        + eapply inv_false in Hvn; [|done]. by destruct Hvn.
      - rewrite visitNeighbors_marks; [|by apply elem_of_ring1|done].
        by rewrite (plateau n). }
    destruct (foldl _ _ _) as [v1 q1]. simpl in *. subst q1.
    apply IH; [done|apply elem_of_app; by left|].
    intros i a Hi Ha n Hn.
    destruct (decide (i = idx)) as [->|Hne].
    + rewrite lookup_app_l in Ha by (by eapply lookup_lt_Some).
      assert (a = tile) as -> by congruence. by apply Htile_closed.
    + apply lookup_lt_Some in Htile.
      rewrite lookup_app_l in Ha by lia.
      apply elem_of_app. left. apply (Hclosed i a); [lia|done..].
  - exfalso. apply lookup_ge_None in Htile.
    destruct (max_X_exists q) as (a & Ha & Hmax).
    { intros ->. by apply not_elem_of_nil in Horigin. }
    apply list_elem_of_lookup in Ha as [i Hi].
    assert (Axial (X a + 1) (Zc a) ∈ q) as Hn.
    { apply (Hclosed i a); [apply lookup_lt_Some in Hi; lia|done|].
      unfold hexDistance, cubeDistance. simpl. lia. }
    apply Hmax in Hn. simpl in Hn. lia.
Qed.

Lemma floodFill_plateau fuel : floodFill config fuel = None.
Proof.
  apply floodFillLoop_plateau.
  - apply FloodInv_initial.
  - apply list_elem_of_here.
  - intros i a Hi. lia.
Qed.
End FloodFillPlateau.

(** ** Counting tiles *)

(** A field assignment through a reference changes one element of the list
    of tiles. *)
Lemma tileList_updateTile f c (tiles : TileMap) t :
  getTile tiles c = Some t ->
  exists rest, tileList tiles ≡ₚ t :: rest /\
               tileList (updateTile f c tiles) ≡ₚ f t :: rest.
Proof.
  unfold getTile, updateTile, tileList, tileEntries. destruct c as [x z]. simpl.
  destruct (tiles !! x) as [zMap|] eqn:Hx; [|done]. intros Hz.
  set (row := fun (zMap : gmap Z TileDefinition) =>
    (fun e : Z * TileDefinition => (Axial x e.1, e.2)) <$> map_to_list zMap).
  exists ((row (delete z zMap)).*2 ++
    (map_to_list (delete x tiles) ≫= fun '(x, zMap) =>
       (fun e : Z * TileDefinition => (Axial x e.1, e.2)) <$> map_to_list zMap).*2).
  assert (forall t', (row (<[z := t']> (delete z zMap))).*2
                     ≡ₚ t' :: (row (delete z zMap)).*2) as Hrow.
  { intros t'. unfold row.
    rewrite map_to_list_insert by apply lookup_delete_eq. done. }
  assert (forall zMap', (map_to_list (<[x := zMap']> (delete x tiles)) ≫= fun '(x, zMap) =>
       (fun e : Z * TileDefinition => (Axial x e.1, e.2)) <$> map_to_list zMap).*2
     ≡ₚ (row zMap').*2 ++ (map_to_list (delete x tiles) ≫= fun '(x, zMap) =>
       (fun e : Z * TileDefinition => (Axial x e.1, e.2)) <$> map_to_list zMap).*2) as Hgrid.
  { intros zMap'. rewrite map_to_list_insert by apply lookup_delete_eq.
    csimpl. by rewrite fmap_app. }
  split.
  - rewrite <- (insert_id tiles x zMap Hx) at 1.
    rewrite <- insert_delete_eq, Hgrid.
    rewrite <- (insert_id zMap z t Hz) at 1.
    rewrite <- insert_delete_eq, Hrow. done.
  - assert (alter (alter f z) x tiles
            = <[x := <[z := f t]> (delete z zMap)]> (delete x tiles)) as ->.
    { apply map_eq. intros x'. destruct (decide (x = x')) as [<-|Hne].
      - rewrite lookup_alter_eq, lookup_insert_eq, Hx. simpl. f_equal.
        apply map_eq. intros z'. destruct (decide (z = z')) as [<-|Hnz].
        + by rewrite lookup_alter_eq, lookup_insert_eq, Hz.
        + by rewrite lookup_alter_ne, lookup_insert_ne, lookup_delete_ne.
      - by rewrite lookup_alter_ne, lookup_insert_ne, lookup_delete_ne. }
    rewrite Hgrid, Hrow. done.
Qed.

Lemma countType_updateTile ty f c (tiles : TileMap) t :
  getTile tiles c = Some t ->
  (countType ty (updateTile f c tiles) + (if decide (Type_ t = ty) then 1 else 0)
   = countType ty tiles + (if decide (Type_ (f t) = ty) then 1 else 0))%nat.
Proof.
  intros Ht. destruct (tileList_updateTile f c tiles t Ht) as (rest & H1 & H2).
  unfold countType. rewrite H1, H2, !filter_cons.
  repeat case_decide; simpl; lia.
Qed.

Lemma updateTile_None f c (tiles : TileMap) :
  getTile tiles c = None -> updateTile f c tiles = tiles.
Proof.
  unfold getTile, updateTile. intros Hc. apply map_eq. intros x.
  destruct (decide (X c = x)) as [<-|Hne]; [|by rewrite lookup_alter_ne].
  rewrite lookup_alter_eq. destruct (tiles !! X c) as [zMap|]; [|done].
  simpl. f_equal. apply map_eq. intros z.
  destruct (decide (Zc c = z)) as [<-|Hnz]; [|by rewrite lookup_alter_ne].
  by rewrite lookup_alter_eq, Hc.
Qed.

Lemma countType_zero ty (tiles : TileMap) :
  (forall t, t ∈ tileList tiles -> Type_ t <> ty) -> countType ty tiles = 0%nat.
Proof.
  unfold countType. induction (tileList tiles) as [|t l IH]; intros Hall; [done|].
  rewrite filter_cons_False by (apply Hall, list_elem_of_here).
  apply IH. intros t' Ht'. by apply Hall, list_elem_of_further.
Qed.

Lemma getTile_removeUnreached visited (tiles : TileMap) a :
  getTile (removeUnreached visited tiles) a
  = demoteTile visited <$> getTile tiles a.
Proof.
  unfold getTile, removeUnreached. rewrite lookup_fmap.
  destruct (tiles !! X a) as [zMap|]; simpl; [|done]. by rewrite lookup_fmap.
Qed.

(** ** Town placement *)

Section Placement.
Context `{HexUtil}.

Lemma canBeTown_spec (tiles : TileMap) c r :
  canBeTown tiles c r = false <->
  exists b t, b <> c /\ hexDistance c b <= r /\
    getTile tiles b = Some t /\ Type_ t = TileType.Town.
Proof.
  unfold canBeTown. rewrite negb_false_iff, existsb_exists. split.
  - intros (b & Hb & Htown). apply list_elem_of_In, elem_of_getNearbyCoordinates in Hb.
    unfold isTownAt in Htown. destruct (getTile tiles b) as [t|] eqn:Ht; [|done].
    apply bool_decide_eq_true in Htown. exists b, t. tauto.
  - intros (b & t & Hne & Hd & Ht & Htown). exists b. split.
    + by apply list_elem_of_In, elem_of_getNearbyCoordinates.
    + unfold isTownAt. rewrite Ht. by apply bool_decide_eq_true.
Qed.

Lemma countType_setTown_le (tiles : TileMap) c :
  (countType TileType.Town tiles
   <= countType TileType.Town (updateTile setTown c tiles))%nat.
Proof.
  destruct (getTile tiles c) as [t|] eqn:Ht.
  - pose proof (countType_updateTile TileType.Town setTown c tiles t Ht) as Hc.
    simpl in Hc. case_decide; lia.
  - by rewrite updateTile_None.
Qed.

Lemma placeCandidate_towns_le r st c :
  (countType TileType.Town st.1.1
   <= countType TileType.Town (placeCandidate r st c).1.1)%nat.
Proof.
  destruct st as [[g n] b]. unfold placeCandidate.
  destruct (canBeTown g c r); simpl; [apply countType_setTown_le|done].
Qed.

Lemma placeCandidates_towns_le r st l :
  (countType TileType.Town st.1.1
   <= countType TileType.Town (placeCandidates r st l).1.1)%nat.
Proof.
  unfold placeCandidates.
  apply (foldl_invariant (fun st' =>
    (countType TileType.Town st.1.1 <= countType TileType.Town st'.1.1)%nat));
    [done|].
  intros st' c _ Hle. etrans; [exact Hle|]. apply placeCandidate_towns_le.
Qed.

Lemma placeCandidates_app r st l1 l2 :
  placeCandidates r st (l1 ++ l2)
  = placeCandidates r (placeCandidates r st l1) l2.
Proof. apply foldl_app. Qed.

Lemma placeCandidates_cons r st c l :
  placeCandidates r st (c :: l) = placeCandidates r (placeCandidate r st c) l.
Proof. reflexivity. Qed.

(** The fields of the state after a round, in terms of the loop over the
    candidates. *)
Lemma placeRound_fields totalTowns st :
  let seeds := getRandomMapTiles (pTiles st) (totalTowns - townsGenerated st)
                 TileType.Land (pRand st) in
  let res := placeCandidates (townExclusionZoneRadius st)
               (pTiles st, townsGenerated st, false) seeds.1 in
  let retries := if res.2 then townExclusionZoneRetries st
                 else townExclusionZoneRetries st + 1 in
  pTiles (placeRound totalTowns st) = res.1.1 /\
  townsGenerated (placeRound totalTowns st) = res.1.2 /\
  pLog (placeRound totalTowns st) = pLog st /\
  townExclusionZoneRadius (placeRound totalTowns st)
    = (if decide (retries = 3) then townExclusionZoneRadius st - 1
       else townExclusionZoneRadius st) /\
  townExclusionZoneRetries (placeRound totalTowns st)
    = (if decide (retries = 3) then 0 else retries).
Proof.
  unfold placeRound. destruct (getRandomMapTiles _ _ _ _) as [seeds rand].
  simpl. destruct (placeCandidates _ _ _) as [[g n] b]. simpl.
  by case_decide.
Qed.

Lemma placeRound_towns_le totalTowns st :
  (countType TileType.Town (pTiles st)
   <= countType TileType.Town (pTiles (placeRound totalTowns st)))%nat.
Proof.
  destruct (placeRound_fields totalTowns st) as [-> _].
  apply (placeCandidates_towns_le _ (pTiles st, townsGenerated st, false)).
Qed.

(** The loop over the candidates touches no tile but theirs. *)
Lemma placeCandidates_frame r l (g : TileMap) n b a :
  a ∉ l -> getTile (placeCandidates r (g, n, b) l).1.1 a = getTile g a.
Proof.
  revert g n b. induction l as [|c l IH]; intros g n b Ha; [done|].
  apply not_elem_of_cons in Ha as [Hne Ha].
  rewrite placeCandidates_cons. unfold placeCandidate.
  destruct (canBeTown g c r); rewrite IH by done; [|done].
  rewrite getTile_updateTile. by rewrite decide_False.
Qed.

Lemma placeTowns_towns_le totalTowns fuel st st' :
  placeTowns totalTowns fuel st = Some st' ->
  (countType TileType.Town (pTiles st) <= countType TileType.Town (pTiles st'))%nat.
Proof.
  revert st. induction fuel as [|fuel IH]; intros st; cbn [placeTowns];
    case_decide; try done; try (by intros [= ->]).
  pose proof (placeRound_towns_le totalTowns st) as Hle.
  case_decide.
  - intros [= <-]. done.
  - intros Hrun. apply IH in Hrun. simpl in Hrun. lia.
Qed.
End Placement.

(** C7. In a round of the placement loop, let [before] be the state of the
    round when the candidate [c] comes up, the candidates [pre] drawn in the
    same round having been handled.  The number of Town tiles does not
    decrease from the start of the round to [before], across [c], to the end
    of the round, nor across the whole loop.  If a tile other than [c] within
    cube distance [townExclusionZoneRadius] of [c] is Town in [before], Towns
    promoted earlier in the round included, then [c] is rejected: nothing
    changes.  Otherwise [c] is promoted and counted.  With a sampler that
    keeps its contract, [c] itself is a Land tile in [before]. *)
Theorem placer_monotone_and_spaced `{HexUtil} (totalTowns : Z) (st : PlacerState)
    (pre post : list AxialCoordinates) (c : AxialCoordinates) :
  (getRandomMapTiles (pTiles st) (totalTowns - townsGenerated st)
     TileType.Land (pRand st)).1 = pre ++ c :: post ->
  (countType TileType.Town (pTiles st)
   <= countType TileType.Town
        (placeCandidates (townExclusionZoneRadius st)
           (pTiles st, townsGenerated st, false) pre).1.1)%nat /\
  (countType TileType.Town
     (placeCandidates (townExclusionZoneRadius st)
        (pTiles st, townsGenerated st, false) pre).1.1
   <= countType TileType.Town
        (placeCandidate (townExclusionZoneRadius st)
           (placeCandidates (townExclusionZoneRadius st)
              (pTiles st, townsGenerated st, false) pre) c).1.1)%nat /\
  (countType TileType.Town
     (placeCandidate (townExclusionZoneRadius st)
        (placeCandidates (townExclusionZoneRadius st)
           (pTiles st, townsGenerated st, false) pre) c).1.1
   <= countType TileType.Town (pTiles (placeRound totalTowns st)))%nat /\
  (forall fuel st', placeTowns totalTowns fuel st = Some st' ->
     (countType TileType.Town (pTiles st)
      <= countType TileType.Town (pTiles st'))%nat) /\
  ((exists b t, b <> c /\ hexDistance c b <= townExclusionZoneRadius st /\
      getTile (placeCandidates (townExclusionZoneRadius st)
                 (pTiles st, townsGenerated st, false) pre).1.1 b = Some t /\
      Type_ t = TileType.Town) ->
   placeCandidate (townExclusionZoneRadius st)
     (placeCandidates (townExclusionZoneRadius st)
        (pTiles st, townsGenerated st, false) pre) c
   = placeCandidates (townExclusionZoneRadius st)
       (pTiles st, townsGenerated st, false) pre) /\
  (~ (exists b t, b <> c /\ hexDistance c b <= townExclusionZoneRadius st /\
      getTile (placeCandidates (townExclusionZoneRadius st)
                 (pTiles st, townsGenerated st, false) pre).1.1 b = Some t /\
      Type_ t = TileType.Town) ->
   placeCandidate (townExclusionZoneRadius st)
     (placeCandidates (townExclusionZoneRadius st)
        (pTiles st, townsGenerated st, false) pre) c
   = (updateTile setTown c
        (placeCandidates (townExclusionZoneRadius st)
           (pTiles st, townsGenerated st, false) pre).1.1,
      (placeCandidates (townExclusionZoneRadius st)
         (pTiles st, townsGenerated st, false) pre).1.2 + 1,
      true)) /\
  (samplerContract ->
   exists t,
     getTile (placeCandidates (townExclusionZoneRadius st)
                (pTiles st, townsGenerated st, false) pre).1.1 c = Some t /\
     Type_ t = TileType.Land).
Proof.
  intros Hseeds. split_and!.
  - apply (placeCandidates_towns_le _ (pTiles st, townsGenerated st, false)).
  - apply placeCandidate_towns_le.
  - destruct (placeRound_fields totalTowns st) as [-> _].
    rewrite Hseeds, placeCandidates_app, placeCandidates_cons.
    apply placeCandidates_towns_le.
  - intros fuel st'. apply placeTowns_towns_le.
  - intros Htown. apply canBeTown_spec in Htown.
    destruct (placeCandidates _ _ pre) as [[g n] b]. unfold placeCandidate.
    simpl in Htown. by rewrite Htown.
  - intros Hfree. rewrite <- canBeTown_spec in Hfree.
    apply not_false_iff_true in Hfree.
    destruct (placeCandidates _ _ pre) as [[g n] b]. unfold placeCandidate.
    simpl in *. by rewrite Hfree.
  - intros contract.
    destruct (contract (pTiles st) (totalTowns - townsGenerated st) TileType.Land
                (pRand st)) as [Hnd Hland].
    rewrite Hseeds in Hnd, Hland.
    apply NoDup_app in Hnd as (_ & Hpre & _).
    rewrite placeCandidates_frame.
    + apply Hland. apply elem_of_app. right. apply list_elem_of_here.
    + intros Hc. apply (Hpre c Hc), list_elem_of_here.
Qed.

Lemma placer_monotone_and_spaced_witness :
  (@getRandomMapTiles (islandUtil barLand) (pTiles barState)
     (3 - townsGenerated barState) TileType.Land (pRand barState)).1
  = [Axial (-1) 0] ++ Axial 1 0 :: [Axial 0 1] /\
  (countType TileType.Town (pTiles barState)
   <= countType TileType.Town (pTiles (placeRound 3 barState)))%nat.
Proof.
  assert ((@getRandomMapTiles (islandUtil barLand) (pTiles barState)
             (3 - townsGenerated barState) TileType.Land (pRand barState)).1
          = [Axial (-1) 0] ++ Axial 1 0 :: [Axial 0 1]) as Hseeds
    by (vm_compute; reflexivity).
  split; [exact Hseeds|].
  pose proof (placer_monotone_and_spaced 3 barState _ _ _ Hseeds)
    as (H1 & H2 & H3 & _).
  etrans; [exact H1|]. etrans; [exact H2|exact H3].
Defined.

(** *** Placement with a sampler that keeps its contract *)

Lemma promoted_refl (tiles : TileMap) : promoted tiles tiles.
Proof. intros a. destruct (getTile tiles a); auto. Qed.

Lemma promoted_trans (g1 g2 g3 : TileMap) :
  promoted g1 g2 -> promoted g2 g3 -> promoted g1 g3.
Proof.
  intros H12 H23 a. specialize (H12 a). specialize (H23 a).
  destruct (getTile g1 a) as [t1|], (getTile g2 a) as [t2|],
    (getTile g3 a) as [t3|]; try done.
  destruct H12 as (Hp & Hb & Ht), H23 as (Hp' & Hb' & Ht').
  split_and!; [congruence..|].
  destruct Ht as [Ht|[Ht1 Ht2]], Ht' as [Ht'|[Ht1' Ht2']]; try (left; congruence);
    try (right; split; congruence).
Qed.

Lemma promoted_setTown (tiles : TileMap) c t :
  getTile tiles c = Some t -> Type_ t = TileType.Land ->
  promoted tiles (updateTile setTown c tiles).
Proof.
  intros Ht Hland a. rewrite getTile_updateTile.
  case_decide as Ha.
  - subst a. rewrite Ht. simpl. auto.
  - destruct (getTile tiles a); auto.
Qed.

Section PlacementContract.
Context `{HexUtil}.

Lemma placeCandidates_contract r l (g : TileMap) n b :
  NoDup l ->
  (forall c, c ∈ l -> exists t, getTile g c = Some t /\ Type_ t = TileType.Land) ->
  promoted g (placeCandidates r (g, n, b) l).1.1 /\
  n <= (placeCandidates r (g, n, b) l).1.2 /\
  Z.of_nat (countType TileType.Land (placeCandidates r (g, n, b) l).1.1)
    + (placeCandidates r (g, n, b) l).1.2
  = Z.of_nat (countType TileType.Land g) + n /\
  Z.of_nat (countType TileType.Town (placeCandidates r (g, n, b) l).1.1)
    - (placeCandidates r (g, n, b) l).1.2
  = Z.of_nat (countType TileType.Town g) - n /\
  ((placeCandidates r (g, n, b) l).2 = true <->
   b = true \/ n < (placeCandidates r (g, n, b) l).1.2).
Proof.
  revert g n b. induction l as [|c l IH]; intros g n b Hnd Hland.
  - simpl. split_and!; [apply promoted_refl|lia..|]. split; [auto|].
    intros [?|?]; [done|lia].
  - apply NoDup_cons in Hnd as [Hc Hnd].
    rewrite placeCandidates_cons.
    assert (placeCandidate r (g, n, b) c
            = if canBeTown g c r then (updateTile setTown c g, n + 1, true)
              else (g, n, b)) as -> by reflexivity.
    destruct (canBeTown g c r).
    + destruct (Hland c) as (t & Ht & Htype); [apply list_elem_of_here|].
      destruct (IH (updateTile setTown c g) (n + 1) true Hnd)
        as (Hp & Hn & Hl & Htn & Hb).
      { intros c' Hc'. rewrite getTile_updateTile.
        rewrite decide_False by (by intros ->).
        apply Hland. by apply list_elem_of_further. }
      pose proof (countType_updateTile TileType.Land setTown c g t Ht) as HL.
      pose proof (countType_updateTile TileType.Town setTown c g t Ht) as HT.
      rewrite Htype in HL, HT. simpl in HL, HT.
      split_and!.
      * eapply promoted_trans; [by eapply promoted_setTown|done].
      * lia.
      * lia.
      * lia.
      * split; [intros _; right; lia|intros _; apply Hb; by left].
    + apply IH; [done|]. intros c' Hc'. apply Hland. by apply list_elem_of_further.
Qed.

Hypothesis contract : samplerContract.

(** A round with a sampler that keeps its contract: Land tiles become Town,
    one for every town counted. *)
Lemma placeRound_contract totalTowns st :
  promoted (pTiles st) (pTiles (placeRound totalTowns st)) /\
  townsGenerated st <= townsGenerated (placeRound totalTowns st) /\
  Z.of_nat (countType TileType.Land (pTiles (placeRound totalTowns st)))
    + townsGenerated (placeRound totalTowns st)
  = Z.of_nat (countType TileType.Land (pTiles st)) + townsGenerated st /\
  Z.of_nat (countType TileType.Town (pTiles (placeRound totalTowns st)))
    - townsGenerated (placeRound totalTowns st)
  = Z.of_nat (countType TileType.Town (pTiles st)) - townsGenerated st /\
  pLog (placeRound totalTowns st) = pLog st /\
  (townsGenerated st < townsGenerated (placeRound totalTowns st) ->
   townExclusionZoneRetries st <> 3 ->
   townExclusionZoneRadius (placeRound totalTowns st) = townExclusionZoneRadius st /\
   townExclusionZoneRetries (placeRound totalTowns st) = townExclusionZoneRetries st) /\
  (townsGenerated st = townsGenerated (placeRound totalTowns st) ->
   (townExclusionZoneRetries st + 1 = 3 ->
    townExclusionZoneRadius (placeRound totalTowns st) = townExclusionZoneRadius st - 1 /\
    townExclusionZoneRetries (placeRound totalTowns st) = 0) /\
   (townExclusionZoneRetries st + 1 <> 3 ->
    townExclusionZoneRadius (placeRound totalTowns st) = townExclusionZoneRadius st /\
    townExclusionZoneRetries (placeRound totalTowns st) = townExclusionZoneRetries st + 1)).
Proof.
  destruct (placeRound_fields totalTowns st) as (-> & -> & -> & -> & ->).
  destruct (contract (pTiles st) (totalTowns - townsGenerated st) TileType.Land
              (pRand st)) as [Hnd Hland].
  destruct (placeCandidates_contract (townExclusionZoneRadius st) _
              (pTiles st) (townsGenerated st) false Hnd Hland)
    as (Hp & Hn & Hl & Ht & Hb).
  split_and!; try done.
  - intros Hlt Hr. assert ((placeCandidates (townExclusionZoneRadius st)
      (pTiles st, townsGenerated st, false)
      (getRandomMapTiles (pTiles st) (totalTowns - townsGenerated st)
         TileType.Land (pRand st)).1).2 = true) as -> by (apply Hb; by right).
    by rewrite !decide_False.
  - intros Heq. destruct (placeCandidates _ _ _).2.
    + destruct (proj1 Hb eq_refl); [done|lia].
    + split; intros Hr; [by rewrite !decide_True|by rewrite !decide_False].
Qed.
End PlacementContract.

Section PlacementLoop.
Context `{HexUtil}.

Lemma placeTowns_done totalTowns fuel st :
  totalTowns <= townsGenerated st -> placeTowns totalTowns fuel st = Some st.
Proof. intros Hle. destruct fuel; cbn [placeTowns]; by rewrite decide_False by lia. Qed.

(** More fuel does not change a result. *)
Lemma placeTowns_fuel totalTowns fuel fuel' st st' :
  placeTowns totalTowns fuel st = Some st' -> (fuel <= fuel')%nat ->
  placeTowns totalTowns fuel' st = Some st'.
Proof.
  revert fuel' st. induction fuel as [|fuel IH]; intros fuel' st Hrun Hle.
  - cbn [placeTowns] in Hrun. case_decide; [done|].
    injection Hrun as <-. apply placeTowns_done. lia.
  - destruct fuel' as [|fuel']; [lia|]. cbn [placeTowns] in *.
    case_decide; [|done]. case_decide; [done|]. apply IH; [done|lia].
Qed.

Hypothesis contract : samplerContract.

Lemma placeTowns_contract totalTowns fuel st st' :
  placeTowns totalTowns fuel st = Some st' ->
  promoted (pTiles st) (pTiles st') /\
  townsGenerated st <= townsGenerated st' /\
  Z.of_nat (countType TileType.Land (pTiles st')) + townsGenerated st'
  = Z.of_nat (countType TileType.Land (pTiles st)) + townsGenerated st /\
  Z.of_nat (countType TileType.Town (pTiles st')) - townsGenerated st'
  = Z.of_nat (countType TileType.Town (pTiles st)) - townsGenerated st.
Proof.
  revert st. induction fuel as [|fuel IH]; intros st; cbn [placeTowns];
    (case_decide; [|intros [= <-]; split_and!; [apply promoted_refl|lia..]]);
    [done|].
  destruct (placeRound_contract contract totalTowns st)
    as (Hp & Hn & Hl & Ht & _).
  case_decide.
  - intros [= <-]. done.
  - intros Hrun. apply IH in Hrun as (Hp' & Hn' & Hl' & Ht').
    cbn [pTiles pRand townsGenerated townExclusionZoneRadius
         townExclusionZoneRetries pLog] in *.
    split_and!; [by eapply promoted_trans|lia..].
Qed.

(** With fewer Land tiles than towns still asked for, the loop runs until
    the exclusion radius is -1 and leaves through the warning. *)
Lemma placeTowns_exhausts totalTowns fuel st :
  0 <= townExclusionZoneRadius st ->
  0 <= townExclusionZoneRetries st <= 2 ->
  Z.of_nat (countType TileType.Land (pTiles st)) + townsGenerated st < totalTowns ->
  Z.of_nat (countType TileType.Land (pTiles st))
    + 3 * (townExclusionZoneRadius st + 1) - townExclusionZoneRetries st
    <= Z.of_nat fuel ->
  exists st', placeTowns totalTowns fuel st = Some st' /\
    townExclusionZoneRadius st' = -1 /\
    townsGenerated st' < totalTowns /\
    exists log, pLog st' = pLog st ++ log ++
                  [WarnFailedTowns totalTowns (townsGenerated st')].
Proof.
  revert st. induction fuel as [|fuel IH]; intros st Hr Hretries Hland Hfuel;
    [lia|].
  cbn [placeTowns]. rewrite decide_True by lia.
  destruct (placeRound_contract contract totalTowns st)
    as (Hp & Hn & Hl & Ht & Hlog & Hprogress & Hstall).
  case_decide as Hexit.
  - eexists. split; [done|].
    cbn [pTiles pRand townsGenerated townExclusionZoneRadius
         townExclusionZoneRetries pLog].
    split_and!; [done|lia|]. exists []. by rewrite Hlog.
  - assert (0 <= townExclusionZoneRadius (placeRound totalTowns st)
            /\ 0 <= townExclusionZoneRetries (placeRound totalTowns st) <= 2
            /\ Z.of_nat (countType TileType.Land (pTiles (placeRound totalTowns st)))
               + 3 * (townExclusionZoneRadius (placeRound totalTowns st) + 1)
               - townExclusionZoneRetries (placeRound totalTowns st)
               <= Z.of_nat fuel) as (Hr' & Hretries' & Hfuel').
    { destruct (decide (townsGenerated st < townsGenerated (placeRound totalTowns st)))
        as [Hlt|Hge].
      - destruct (Hprogress Hlt) as [Hr1 Hr2]; [lia|]. lia.
      - assert (townsGenerated st = townsGenerated (placeRound totalTowns st))
          as Heq by lia.
        destruct (Hstall Heq) as [H3 Hn3].
        destruct (decide (townExclusionZoneRetries st + 1 = 3)) as [Hthree|Hthree].
        + destruct (H3 Hthree). lia.
        + destruct (Hn3 Hthree). lia. }
    edestruct (IH (mkPlacer (pTiles (placeRound totalTowns st))
                     (pRand (placeRound totalTowns st))
                     (townsGenerated (placeRound totalTowns st))
                     (townExclusionZoneRadius (placeRound totalTowns st))
                     (townExclusionZoneRetries (placeRound totalTowns st))
                     (pLog (placeRound totalTowns st) ++
                        [PrintTowns (townsGenerated (placeRound totalTowns st)) totalTowns;
                         HeartbeatWait])))
      as (st' & Hrun & Hr'' & Htowns & log & Hlog');
      cbn [pTiles pRand townsGenerated townExclusionZoneRadius
           townExclusionZoneRetries pLog]; [done|done|lia|done|].
    exists st'. split_and!; [done..|].
    exists ([PrintTowns (townsGenerated (placeRound totalTowns st)) totalTowns;
             HeartbeatWait] ++ log).
    rewrite Hlog'.
    cbn [pTiles pRand townsGenerated townExclusionZoneRadius
         townExclusionZoneRetries pLog].
    by rewrite Hlog, <- !app_assoc.
Qed.
End PlacementLoop.

(** ** The whole function *)

Section WholeFunction.
Context `{HexUtil}.

Lemma BuildMapDefinition_Some fuel mathRandom config r :
  BuildMapDefinition fuel mathRandom config = Some r <->
  exists visited st',
    floodFill (asMapConfigImpl mathRandom config) fuel = Some visited /\
    placeTowns (MapConfig.TotalTowns config) fuel
      (mkPlacer
         (removeUnreached visited (buildTiles (asMapConfigImpl mathRandom config)))
         (Random_new (MapConfigImpl.Seed (asMapConfigImpl mathRandom config)))
         0 (Z.min (MapConfig.Radius config) 10) 0
         [PrintSeed (MapConfigImpl.Seed (asMapConfigImpl mathRandom config))])
    = Some st' /\
    r = mkResult (resolveDefaults mathRandom config)
          (mkMap (asMapConfigImpl mathRandom config) (pTiles st')) (pLog st').
Proof.
  unfold BuildMapDefinition. split.
  - destruct (floodFill _ fuel) as [visited|]; [|done].
    destruct (placeTowns _ fuel _) as [st'|] eqn:Hplace; [|done].
    intros [= <-]. by exists visited, st'.
  - intros (visited & st' & -> & Hplace & ->).
    change (MapConfigImpl.TotalTowns (asMapConfigImpl mathRandom config))
      with (MapConfig.TotalTowns config).
    change (MapConfigImpl.Radius (asMapConfigImpl mathRandom config))
      with (MapConfig.Radius config).
    by rewrite Hplace.
Qed.

(** More fuel does not change a result. *)
Lemma BuildMapDefinition_fuel fuel fuel' mathRandom config r :
  BuildMapDefinition fuel mathRandom config = Some r -> (fuel <= fuel')%nat ->
  BuildMapDefinition fuel' mathRandom config = Some r.
Proof.
  rewrite !BuildMapDefinition_Some. intros (visited & st' & Hff & Hpl & ->) Hle.
  exists visited, st'. split_and!; [|by eapply placeTowns_fuel|done].
  by eapply floodFill_fuel.
Qed.

Variable config : MapConfigImpl.t.

(** The grid after the removal of the land that the flood fill has not
    reached. *)
Lemma getTile_filtered visited a :
  getTile (removeUnreached visited (buildTiles config)) a =
  if decide (cubeDistance a <= MapConfigImpl.Radius config)
  then Some (demoteTile visited (newTile config a)) else None.
Proof.
  rewrite getTile_removeUnreached, getTile_buildTiles. by case_decide.
Qed.

Lemma newTile_Type_Water a :
  Type_ (newTile config a) = TileType.Water <-> ~ aboveWater config a.
Proof.
  unfold newTile, aboveWater, BiomeManager.height. simpl.
  destruct (num_le _ _); split; try done; by intros [].
Qed.

Lemma newTile_Type_Land a :
  Type_ (newTile config a) = TileType.Land <-> aboveWater config a.
Proof.
  unfold newTile, aboveWater, BiomeManager.height. simpl.
  by destruct (num_le _ _).
Qed.

Lemma newTile_not_Town a : Type_ (newTile config a) <> TileType.Town.
Proof. unfold newTile. simpl. by destruct (num_le _ _). Qed.

Lemma getTileBiome_Water a :
  BiomeManager.getTileBiome config a = Biome.Water <-> ~ aboveWater config a.
Proof.
  unfold BiomeManager.getTileBiome, BiomeManager.tileHasWater, aboveWater.
  destruct (num_le _ _); [split; [by intros _ ?|done]|].
  split; [|by intros []].
  by destruct (BiomeManager.tileIsCoastline _ _),
    (num_gt (BiomeManager.height config a) (1 # 5)),
    (num_gt (BiomeManager.height config a) 0).
Qed.

(** The biome that the build loop gives to a tile. *)
Lemma newTile_Biome a :
  Biome_ (newTile config a) =
  match MapConfigImpl.GenerateBiomes config with
  | Some true => BiomeManager.getTileBiome config a
  | _ => Biome.Grassland
  end.
Proof. reflexivity. Qed.

Lemma demoteTile_Position visited t : Position (demoteTile visited t) = Position t.
Proof.
  unfold demoteTile. case_decide; [|done].
  by destruct (visited !! _) as [[]|].
Qed.

Lemma demoteTile_not_Land visited t :
  Type_ t <> TileType.Land -> demoteTile visited t = t.
Proof. unfold demoteTile. by case_decide. Qed.

Lemma demoteTile_not_Town visited t :
  Type_ t <> TileType.Town -> Type_ (demoteTile visited t) <> TileType.Town.
Proof.
  unfold demoteTile. case_decide; [|done].
  by destruct (visited !! _) as [[]|].
Qed.

Lemma demoteTile_Land visited t :
  Type_ (demoteTile visited t) = TileType.Land <->
  Type_ t = TileType.Land /\ visited !! axialKey (Position t) = Some true.
Proof.
  unfold demoteTile. case_decide as Ht.
  - destruct (visited !! _) as [[]|]; simpl; split; try done; by intros [].
  - split; [done|]. by intros [].
Qed.

Lemma demoteTile_Land_eq visited t :
  Type_ (demoteTile visited t) = TileType.Land -> demoteTile visited t = t.
Proof.
  intros Hl. apply demoteTile_Land in Hl as [Ht Hv].
  unfold demoteTile. by rewrite decide_True, Hv.
Qed.

Lemma filtered_no_Town visited :
  countType TileType.Town (removeUnreached visited (buildTiles config)) = 0%nat.
Proof.
  apply countType_zero. intros t Ht Htown.
  apply elem_of_tileList in Ht as (a & Ha). rewrite getTile_filtered in Ha.
  case_decide; [|done]. injection Ha as <-. revert Htown.
  apply demoteTile_not_Town, newTile_not_Town.
Qed.
End WholeFunction.

(** ** The instances keep the contract of the sampler *)

Lemma firstTiles_NoDup (tiles : TileMap) count ty rand :
  NoDup (firstTiles tiles count ty rand).1.
Proof.
  unfold firstTiles. simpl.
  eapply sublist_NoDup; [|apply sublist_take].
  eapply sublist_NoDup; [apply (NoDup_tileEntries tiles)|].
  apply fmap_sublist, sublist_filter.
Qed.

Lemma firstTiles_typed (tiles : TileMap) count ty rand c :
  c ∈ (firstTiles tiles count ty rand).1 ->
  exists t, getTile tiles c = Some t /\ Type_ t = ty.
Proof.
  unfold firstTiles. simpl. intros Hc. apply subseteq_take in Hc.
  apply list_elem_of_fmap in Hc as ([a t] & -> & Hin).
  apply list_elem_of_filter in Hin as [Hty Hin].
  exists t. split; [by apply elem_of_tileEntries|done].
Qed.

Lemma islandUtil_contract land : @samplerContract (islandUtil land).
Proof.
  intros tiles count ty rand. split.
  - apply firstTiles_NoDup.
  - apply firstTiles_typed.
Qed.

Lemma plateauUtil_contract : @samplerContract plateauUtil.
Proof.
  intros tiles count ty rand. split.
  - apply firstTiles_NoDup.
  - apply firstTiles_typed.
Qed.

(** ** Water tiles and Water biome (C1) *)

Section Biomes.
Context `{HexUtil}.

(** The three kinds of tiles after the filter: land kept, land demoted, water
    from the build loop. *)
Lemma filtered_tile_cases (config : MapConfigImpl.t) visited a :
  (Type_ (demoteTile visited (newTile config a)) = TileType.Land /\
   demoteTile visited (newTile config a) = newTile config a /\
   aboveWater config a /\ visited !! axialKey a = Some true) \/
  (demoteTile visited (newTile config a) = mkTile a TileType.Water Biome.Water /\
   aboveWater config a /\ visited !! axialKey a <> Some true) \/
  (Type_ (demoteTile visited (newTile config a)) = TileType.Water /\
   demoteTile visited (newTile config a) = newTile config a /\
   ~ aboveWater config a).
Proof.
  destruct (Type_ (newTile config a)) eqn:Hty.
  - pose proof (proj1 (newTile_Type_Land config a) Hty) as Habove.
    unfold demoteTile. rewrite Hty, decide_True by done.
    rewrite newTile_Position.
    destruct (visited !! axialKey a) as [[]|]; [left|right; left..]; done.
  - right; right. rewrite demoteTile_not_Land by congruence.
    split_and!; [done..|]. by apply newTile_Type_Water.
  - by apply newTile_not_Town in Hty.
Qed.

(** Every tile of the returned grid comes from a tile of the filtered grid by
    at most a promotion from Land to Town. *)
Lemma returned_tile fuel mathRandom config r t :
  samplerContract ->
  BuildMapDefinition fuel mathRandom config = Some r ->
  t ∈ tileList (Tiles (returned r)) ->
  exists visited,
    floodFill (asMapConfigImpl mathRandom config) fuel = Some visited /\
    cubeDistance (Position t) <= MapConfig.Radius config /\
    getTile (Tiles (returned r)) (Position t) = Some t /\
    Biome_ t = Biome_ (demoteTile visited
                         (newTile (asMapConfigImpl mathRandom config) (Position t))) /\
    (Type_ t = Type_ (demoteTile visited
                        (newTile (asMapConfigImpl mathRandom config) (Position t))) \/
     (Type_ (demoteTile visited
               (newTile (asMapConfigImpl mathRandom config) (Position t)))
      = TileType.Land /\ Type_ t = TileType.Town)).
Proof.
  intros contract Hrun Ht.
  apply BuildMapDefinition_Some in Hrun as (visited & st' & Hff & Hplace & ->).
  apply (placeTowns_contract contract) in Hplace as (Hp & _). simpl in *.
  apply elem_of_tileList in Ht as (a & Ha).
  specialize (Hp a). rewrite Ha, getTile_filtered in Hp.
  case_decide as Hd; [|done]. destruct Hp as (Hpos & Hb & Hty).
  rewrite demoteTile_Position, newTile_Position in Hpos. subst a.
  exists visited. split_and!; done.
Qed.

(** C1, amended.  With a sampler that keeps its contract, no Town tile of the
    returned map has Water biome.  When [GenerateBiomes] is true, every Water
    tile has Water biome.  When it is false or left out, a Water tile has
    Water biome if the filter has demoted it (its height is above the water
    level) and Grassland biome if the build loop has made it Water. *)
Theorem water_biome_when_generated fuel mathRandom config r t :
  samplerContract ->
  BuildMapDefinition fuel mathRandom config = Some r ->
  t ∈ tileList (Tiles (returned r)) ->
  (Type_ t = TileType.Town -> Biome_ t <> Biome.Water) /\
  (MapConfig.GenerateBiomes config = Some true ->
   Type_ t = TileType.Water -> Biome_ t = Biome.Water) /\
  (MapConfig.GenerateBiomes config <> Some true ->
   Type_ t = TileType.Water ->
   (aboveWater (asMapConfigImpl mathRandom config) (Position t) ->
    Biome_ t = Biome.Water) /\
   (~ aboveWater (asMapConfigImpl mathRandom config) (Position t) ->
    Biome_ t = Biome.Grassland)).
Proof.
  intros contract Hrun Ht.
  destruct (returned_tile _ _ _ _ _ contract Hrun Ht)
    as (visited & _ & _ & _ & Hb & Hty).
  pose proof (newTile_Biome (asMapConfigImpl mathRandom config) (Position t)) as Hnb.
  change (MapConfigImpl.GenerateBiomes (asMapConfigImpl mathRandom config))
    with (MapConfig.GenerateBiomes config) in Hnb.
  pose proof (getTileBiome_Water (asMapConfigImpl mathRandom config) (Position t))
    as Hgw.
  destruct (filtered_tile_cases (asMapConfigImpl mathRandom config) visited (Position t))
    as [(Hl & Heq & Ha & _)|[(Heq & Ha & _)|(Hw & Heq & Ha)]];
    rewrite Heq in *; cbn [Type_ Biome_] in Hty, Hb.
  - split_and!.
    + intros _. rewrite Hb, Hnb. destruct (MapConfig.GenerateBiomes config) as [[]|];
        [|done..]. by rewrite Hgw; intros [].
    + intros _ Hwt. destruct Hty as [Hty|[_ Hty]]; congruence.
    + intros _ Hwt. destruct Hty as [Hty|[_ Hty]]; congruence.
  - split_and!.
    + intros Htown. destruct Hty as [Hty|[Hty _]]; congruence.
    + done.
    + done.
  - split_and!.
    + intros Htown. destruct Hty as [Hty|[Hty _]]; congruence.
    + intros Hgen _. rewrite Hb, Hnb, Hgen. by apply Hgw.
    + intros Hgen _. split; [done|]. intros _. rewrite Hb, Hnb.
      by destruct (MapConfig.GenerateBiomes config) as [[]|].
Qed.
End Biomes.

Lemma water_biome_when_generated_witness :
  exists r t,
    @samplerContract (islandUtil barLand) /\
    @BuildMapDefinition (islandUtil barLand) 20 0 (plainConfig 1 1 (Some true)) = Some r /\
    t ∈ tileList (Tiles (returned r)) /\
    Position t = Axial 1 (-1) /\ Type_ t = TileType.Water /\
    Biome_ t = Biome.Water.
Proof.
  eexists _, _.
  assert (forall (A B C D E F : Prop),
    A -> B -> C -> D -> E -> (A -> B -> C -> E -> F) -> A /\ B /\ C /\ D /\ E /\ F)
    as Hand by tauto.
  apply Hand.
  - apply islandUtil_contract.
  - vm_compute. reflexivity.
  - apply elem_of_tileList. exists (Axial 1 (-1)). vm_compute. reflexivity.
  - reflexivity.
  - reflexivity.
  - intros contract Hrun Ht Hty.
    destruct (water_biome_when_generated _ _ _ _ _ contract Hrun Ht)
      as (_ & Hw & _).
    apply Hw; [reflexivity|exact Hty].
Defined.

(** With [GenerateBiomes] left out, the tile at (1,0), below the water
    level, is Water with Grassland biome in the returned map. *)
Lemma water_tile_grassland_example :
  exists r t,
    @BuildMapDefinition (islandUtil [origin]) 10 0 (plainConfig 1 0 None) = Some r /\
    getTile (Tiles (returned r)) (Axial 1 0) = Some t /\
    Type_ t = TileType.Water /\ Biome_ t = Biome.Grassland.
Proof.
  eexists _, _. split_and!.
  - vm_compute. reflexivity.
  - vm_compute. reflexivity.
  - reflexivity.
  - reflexivity.
Qed.

(** C1 as stated does not hold: not every Water tile of a returned map has
    Water biome, even with a sampler that keeps its contract. *)
Lemma water_biome_counterexample :
  ~ (forall (H : HexUtil) fuel mathRandom config r t,
       samplerContract ->
       BuildMapDefinition fuel mathRandom config = Some r ->
       t ∈ tileList (Tiles (returned r)) ->
       (Type_ t = TileType.Water -> Biome_ t = Biome.Water) /\
       (Type_ t = TileType.Town -> Biome_ t <> Biome.Water)).
Proof.
  intros Hclaim.
  destruct water_tile_grassland_example as (r & t & Hrun & Ht & Hty & Hb).
  destruct (Hclaim (islandUtil [origin]) _ _ _ r t (islandUtil_contract _) Hrun)
    as [Hw _].
  - apply elem_of_tileList. by exists (Axial 1 0).
  - specialize (Hw Hty). congruence.
Qed.

(** ** The caller's configuration (C3) *)

(** C3, amended.  A call that returns leaves [Radius], [DepthScale],
    [TotalTowns], [GenerateBiomes] and [Debug] of the caller's configuration
    as they were, and also [Seed] and [WaterLevel] when they held a number.
    An absent [Seed] has been assigned the number drawn by [math.random()]
    and an absent [WaterLevel] has been assigned -0.4.  The [Config] of the
    returned map is that same object. *)
Theorem config_frame `{HexUtil} fuel mathRandom config r :
  BuildMapDefinition fuel mathRandom config = Some r ->
  MapConfig.Radius (callerConfig r) = MapConfig.Radius config /\
  MapConfig.DepthScale (callerConfig r) = MapConfig.DepthScale config /\
  MapConfig.TotalTowns (callerConfig r) = MapConfig.TotalTowns config /\
  MapConfig.GenerateBiomes (callerConfig r) = MapConfig.GenerateBiomes config /\
  MapConfig.Debug (callerConfig r) = MapConfig.Debug config /\
  (forall s, MapConfig.Seed config = Some s ->
     MapConfig.Seed (callerConfig r) = Some s) /\
  (forall w, MapConfig.WaterLevel config = Some w ->
     MapConfig.WaterLevel (callerConfig r) = Some w) /\
  (MapConfig.Seed config = None ->
     MapConfig.Seed (callerConfig r) = Some mathRandom) /\
  (MapConfig.WaterLevel config = None ->
     MapConfig.WaterLevel (callerConfig r) = Some (- (2 # 5))%Q) /\
  MapConfig.Seed (callerConfig r) = Some (MapConfigImpl.Seed (Config (returned r))) /\
  MapConfig.WaterLevel (callerConfig r)
    = Some (MapConfigImpl.WaterLevel (Config (returned r))) /\
  MapConfigImpl.Radius (Config (returned r)) = MapConfig.Radius config /\
  MapConfigImpl.DepthScale (Config (returned r)) = MapConfig.DepthScale config /\
  MapConfigImpl.TotalTowns (Config (returned r)) = MapConfig.TotalTowns config /\
  MapConfigImpl.GenerateBiomes (Config (returned r)) = MapConfig.GenerateBiomes config /\
  MapConfigImpl.Debug (Config (returned r)) = MapConfig.Debug config.
Proof.
  intros Hrun.
  apply BuildMapDefinition_Some in Hrun as (visited & st' & _ & _ & ->).
  destruct config as [R ds tt gb [w|] [s|] dbg]; simpl;
    split_and!; try done; by intros ? [= ->].
Qed.

Lemma config_frame_witness :
  exists r,
    @BuildMapDefinition (islandUtil barLand) 20 (1 # 3) (plainConfig 1 1 None) = Some r /\
    MapConfig.Seed (callerConfig r) = Some (1 # 3) /\
    MapConfig.WaterLevel (callerConfig r) = Some (- (2 # 5))%Q.
Proof.
  assert (exists r,
    @BuildMapDefinition (islandUtil barLand) 20 (1 # 3) (plainConfig 1 1 None) = Some r)
    as [r Hrun] by (eexists; vm_compute; reflexivity).
  exists r. split; [exact Hrun|].
  destruct (config_frame _ _ _ _ Hrun) as (_ & _ & _ & _ & _ & _ & _ & Hs & Hw & _).
  split; [by apply Hs|by apply Hw].
Defined.

(** A call with [Seed] and [WaterLevel] left out. *)
Lemma config_assigned_example :
  exists r,
    @BuildMapDefinition (islandUtil barLand) 20 (1 # 3) (plainConfig 1 1 None) = Some r /\
    MapConfig.Seed (plainConfig 1 1 None) = None /\
    MapConfig.Seed (callerConfig r) = Some (1 # 3) /\
    MapConfig.WaterLevel (plainConfig 1 1 None) = None /\
    MapConfig.WaterLevel (callerConfig r) = Some (- (2 # 5))%Q.
Proof.
  eexists. split_and!; [vm_compute; reflexivity|reflexivity..].
Qed.

(** C3 as stated does not hold: a call can change [Seed] and [WaterLevel] of
    the caller's configuration. *)
Lemma config_frame_counterexample :
  ~ (forall (H : HexUtil) fuel mathRandom config r,
       BuildMapDefinition fuel mathRandom config = Some r ->
       MapConfig.Seed (callerConfig r) = MapConfig.Seed config /\
       MapConfig.WaterLevel (callerConfig r) = MapConfig.WaterLevel config).
Proof.
  intros Hclaim.
  destruct config_assigned_example as (r & Hrun & Hs & Hs' & _).
  destruct (Hclaim _ _ _ _ _ Hrun) as [Heq _]. congruence.
Qed.

(** ** Defective configurations (C2) *)

Lemma hexOffsets_negative r : r < 0 -> hexOffsets r = [].
Proof. intros Hr. unfold hexOffsets. by rewrite seqZ_nil by lia. Qed.

Lemma buildTiles_negative `{HexUtil} config :
  MapConfigImpl.Radius config < 0 -> buildTiles config = ∅.
Proof. intros Hr. by rewrite buildTiles_hexOffsets, hexOffsets_negative. Qed.

(** C2, amended.  A negative radius or a negative number of towns is not
    refused: nothing validates the configuration.  When no town is asked for
    (which covers every negative [TotalTowns]), the placement loop is not
    entered and, once the flood fill has ended, [BuildMapDefinition] returns
    the filtered grid as it is, without a Town tile, having printed the seed
    and nothing else; with a negative radius that grid is empty. *)
Theorem defective_config_not_refused `{HexUtil} fuel mathRandom config visited :
  MapConfig.Radius config < 0 \/ MapConfig.TotalTowns config < 0 ->
  MapConfig.TotalTowns config <= 0 ->
  floodFill (asMapConfigImpl mathRandom config) fuel = Some visited ->
  BuildMapDefinition fuel mathRandom config
  = Some (mkResult (resolveDefaults mathRandom config)
            (mkMap (asMapConfigImpl mathRandom config)
               (removeUnreached visited
                  (buildTiles (asMapConfigImpl mathRandom config))))
            [PrintSeed (MapConfigImpl.Seed (asMapConfigImpl mathRandom config))]) /\
  countType TileType.Town
    (removeUnreached visited (buildTiles (asMapConfigImpl mathRandom config)))
  = 0%nat /\
  (MapConfig.Radius config < 0 ->
   removeUnreached visited (buildTiles (asMapConfigImpl mathRandom config)) = ∅).
Proof.
  intros _ Htowns Hff. split_and!.
  - apply BuildMapDefinition_Some. exists visited. eexists.
    split; [done|]. split; [by apply placeTowns_done|reflexivity].
  - apply filtered_no_Town.
  - intros Hr. rewrite buildTiles_negative by done.
    unfold removeUnreached. by rewrite fmap_empty.
Qed.

Lemma defective_config_not_refused_witness :
  exists visited,
    (MapConfig.Radius (plainConfig (-1) (-2) None) < 0 \/
     MapConfig.TotalTowns (plainConfig (-1) (-2) None) < 0) /\
    MapConfig.TotalTowns (plainConfig (-1) (-2) None) <= 0 /\
    @floodFill (islandUtil barLand) (asMapConfigImpl 0 (plainConfig (-1) (-2) None)) 20
    = Some visited /\
    @BuildMapDefinition (islandUtil barLand) 20 0 (plainConfig (-1) (-2) None)
    = Some (mkResult (resolveDefaults 0 (plainConfig (-1) (-2) None))
              (mkMap (asMapConfigImpl 0 (plainConfig (-1) (-2) None)) ∅)
              [PrintSeed 0]).
Proof.
  assert (exists visited,
    @floodFill (islandUtil barLand)
      (asMapConfigImpl 0 (plainConfig (-1) (-2) None)) 20 = Some visited)
    as [visited Hff] by (eexists; vm_compute; reflexivity).
  assert (MapConfig.Radius (plainConfig (-1) (-2) None) < 0 \/
          MapConfig.TotalTowns (plainConfig (-1) (-2) None) < 0) as Hdefect
    by (left; simpl; lia).
  assert (MapConfig.TotalTowns (plainConfig (-1) (-2) None) <= 0) as Htowns
    by (simpl; lia).
  exists visited. split; [exact Hdefect|]. split; [exact Htowns|].
  split; [exact Hff|].
  destruct (defective_config_not_refused _ _ _ _ Hdefect Htowns Hff)
    as (Hrun & _ & Hempty).
  rewrite Hrun, Hempty; [reflexivity|]. simpl. lia.
Defined.

(** A negative radius with no town asked for, and a negative number of
    towns: both calls return a map. *)
Lemma defective_config_example :
  (exists r,
     @BuildMapDefinition (islandUtil barLand) 20 0 (plainConfig (-1) 0 None) = Some r /\
     Tiles (returned r) = ∅) /\
  (exists r,
     @BuildMapDefinition (islandUtil barLand) 20 0 (plainConfig 1 (-1) None) = Some r /\
     tileCount (Tiles (returned r)) = 7%nat).
Proof.
  split; eexists; (split; [vm_compute; reflexivity|]); vm_compute; reflexivity.
Qed.

(** C2 as stated does not hold: a configuration with a negative radius or a
    negative number of towns can have a map returned. *)
Lemma defective_config_counterexample :
  ~ (forall (H : HexUtil) fuel mathRandom config,
       MapConfig.Radius config < 0 \/ MapConfig.TotalTowns config < 0 ->
       BuildMapDefinition fuel mathRandom config = None).
Proof.
  intros Hclaim.
  destruct defective_config_example as [(r & Hrun & _) _].
  rewrite Hclaim in Hrun; [done|]. left. simpl. lia.
Qed.

(** ** The connectivity filter (C6, C10) *)

(** C6, amended.  Once the flood fill has ended, every tile of the filtered
    grid that is still Land is joined to the origin by ring-1 steps through
    coordinates whose height is above the water level; the origin itself is
    exempt from that test, and the steps are not kept within the radius of the
    map.  No coordinate other than the origin is marked reachable with a
    height at or below the water level, and no Water tile other than the one
    at the origin is marked reachable. *)
Theorem land_reachable_after_filter `{HexUtil} (config : MapConfigImpl.t) fuel visited :
  floodFill config fuel = Some visited ->
  (forall t, t ∈ tileList (removeUnreached visited (buildTiles config)) ->
     Type_ t = TileType.Land -> reachable config (Position t)) /\
  (forall a, visited !! axialKey a = Some true ->
     a = origin \/ aboveWater config a) /\
  (forall a t, getTile (removeUnreached visited (buildTiles config)) a = Some t ->
     Type_ t = TileType.Water -> a <> origin ->
     visited !! axialKey a <> Some true).
Proof.
  intros Hff. destruct (floodFill_sound config fuel visited Hff) as (_ & Ht & Hf).
  split_and!.
  - intros t Hin Hland. apply elem_of_tileList in Hin as (a & Ha).
    rewrite getTile_filtered in Ha. case_decide; [|done]. injection Ha as <-.
    rewrite demoteTile_Position, newTile_Position.
    apply demoteTile_Land in Hland as [_ Hv].
    rewrite newTile_Position in Hv. by apply Ht.
  - intros a Ha. by apply reachable_above, Ht.
  - intros a t Ha Hw Hne Hv. rewrite getTile_filtered in Ha.
    case_decide; [|done]. injection Ha as <-.
    destruct (filtered_tile_cases config visited a)
      as [(Hl & _)|[(_ & _ & Hnv)|(_ & _ & Hna)]]; [congruence|done|].
    apply Ht, reachable_above in Hv as [?|?]; done.
Qed.

Lemma land_reachable_after_filter_witness :
  exists visited t,
    @floodFill (islandUtil barLand) (asMapConfigImpl 0 (plainConfig 1 1 None)) 20
    = Some visited /\
    t ∈ tileList (removeUnreached visited
                    (@buildTiles (islandUtil barLand)
                       (asMapConfigImpl 0 (plainConfig 1 1 None)))) /\
    Position t = Axial 1 0 /\
    Type_ t = TileType.Land /\
    @reachable (islandUtil barLand) (asMapConfigImpl 0 (plainConfig 1 1 None))
      (Axial 1 0).
Proof.
  assert (exists visited,
    @floodFill (islandUtil barLand) (asMapConfigImpl 0 (plainConfig 1 1 None)) 20
    = Some visited) as [visited Hff] by (eexists; vm_compute; reflexivity).
  assert (visited !! axialKey (Axial 1 0) = Some true) as Hv.
  { rewrite (floodFill_ring1 _ _ _ (Axial 1 0) Hff eq_refl). reflexivity. }
  exists visited,
    (@newTile (islandUtil barLand) (asMapConfigImpl 0 (plainConfig 1 1 None)) (Axial 1 0)).
  assert (@newTile (islandUtil barLand) (asMapConfigImpl 0 (plainConfig 1 1 None))
            (Axial 1 0)
          ∈ tileList (removeUnreached visited
                        (@buildTiles (islandUtil barLand)
                           (asMapConfigImpl 0 (plainConfig 1 1 None))))) as Hin.
  { apply elem_of_tileList. exists (Axial 1 0).
    rewrite getTile_filtered, decide_True by (vm_compute; discriminate).
    f_equal. unfold demoteTile. rewrite decide_True by reflexivity.
    rewrite newTile_Position, Hv. reflexivity. }
  split; [exact Hff|]. split; [exact Hin|]. split; [reflexivity|].
  split; [reflexivity|].
  destruct (land_reachable_after_filter _ _ _ Hff) as (Hreach & _).
  apply (Hreach _ Hin). reflexivity.
Defined.

(** With the origin below the water level and (1,0) above it, the tile at the
    origin is Water after the filter and is marked reachable. *)
Lemma water_origin_marked_example :
  exists visited t,
    @floodFill (islandUtil [Axial 1 0]) (asMapConfigImpl 0 (plainConfig 1 0 None)) 20
    = Some visited /\
    getTile (removeUnreached visited
               (@buildTiles (islandUtil [Axial 1 0])
                  (asMapConfigImpl 0 (plainConfig 1 0 None)))) origin = Some t /\
    Type_ t = TileType.Water /\
    visited !! axialKey origin = Some true.
Proof.
  assert (exists visited,
    @floodFill (islandUtil [Axial 1 0]) (asMapConfigImpl 0 (plainConfig 1 0 None)) 20
    = Some visited) as [visited Hff] by (eexists; vm_compute; reflexivity).
  exists visited. eexists. split; [exact Hff|]. split_and!.
  - rewrite getTile_filtered, decide_True by (vm_compute; discriminate).
    rewrite demoteTile_not_Land by (vm_compute; discriminate). reflexivity.
  - reflexivity.
  - by apply floodFill_sound in Hff as (Ho & _).
Qed.

(** With [detourLand] and radius 2, the tile at (2,0) is still Land after the
    filter, and every tile next to it is Water or missing. *)
Lemma detour_example :
  exists visited t,
    @floodFill (islandUtil detourLand) (asMapConfigImpl 0 (plainConfig 2 0 None)) 30
    = Some visited /\
    getTile (removeUnreached visited
               (@buildTiles (islandUtil detourLand)
                  (asMapConfigImpl 0 (plainConfig 2 0 None)))) (Axial 2 0) = Some t /\
    Type_ t = TileType.Land /\
    ~ tilePath (removeUnreached visited
                  (@buildTiles (islandUtil detourLand)
                     (asMapConfigImpl 0 (plainConfig 2 0 None)))) (Axial 2 0).
Proof.
  assert (exists visited,
    @floodFill (islandUtil detourLand) (asMapConfigImpl 0 (plainConfig 2 0 None)) 30
    = Some visited /\ visited !! axialKey (Axial 2 0) = Some true)
    as (visited & Hff & Hv) by (eexists; split; vm_compute; reflexivity).
  exists visited,
    (@newTile (islandUtil detourLand) (asMapConfigImpl 0 (plainConfig 2 0 None))
       (Axial 2 0)).
  split; [exact Hff|]. split_and!.
  - rewrite getTile_filtered, decide_True by (vm_compute; discriminate).
    f_equal. unfold demoteTile. rewrite decide_True by reflexivity.
    rewrite newTile_Position, Hv. reflexivity.
  - reflexivity.
  - intros Hpath. inversion Hpath as [Ho|a b t Ha Hd Ht Hnw]; subst.
    assert (a ∈ getNearbyCoordinates (Axial 2 0) 1) as Hin.
    { apply elem_of_ring1. by rewrite hexDistance_sym. }
    inversion Ha as [Ho|a' b' t' Ha' Hd' Ht' Hnw']; subst.
    { vm_compute in Hd. discriminate. }
    change (getNearbyCoordinates (Axial 2 0) 1)
      with [Axial 1 1; Axial 1 0; Axial 2 1; Axial 2 (-1); Axial 3 0; Axial 3 (-1)]
      in Hin.
    rewrite getTile_filtered in Ht'.
    repeat (apply elem_of_cons in Hin as [->|Hin]);
      try (by apply elem_of_nil in Hin);
      try (rewrite decide_False in Ht' by (vm_compute; congruence); discriminate);
      rewrite decide_True in Ht' by (vm_compute; discriminate);
      rewrite demoteTile_not_Land in Ht' by (vm_compute; discriminate);
      injection Ht' as <-; by apply Hnw'.
Qed.

(** C6 as stated does not hold, for each of its two halves: a tile that is
    still Land need not be joined to the origin through tiles of the grid
    that are not Water, and a Water tile can be marked reachable. *)
Lemma land_reachable_counterexample :
  ~ (forall (H : HexUtil) (config : MapConfigImpl.t) fuel visited a t,
       floodFill config fuel = Some visited ->
       getTile (removeUnreached visited (buildTiles config)) a = Some t ->
       Type_ t = TileType.Land ->
       tilePath (removeUnreached visited (buildTiles config)) a) /\
  ~ (forall (H : HexUtil) (config : MapConfigImpl.t) fuel visited a t,
       floodFill config fuel = Some visited ->
       getTile (removeUnreached visited (buildTiles config)) a = Some t ->
       Type_ t = TileType.Water ->
       visited !! axialKey a <> Some true).
Proof.
  split; intros Hclaim.
  - destruct detour_example as (visited & t & Hff & Ht & Hland & Hno).
    apply Hno. by eapply Hclaim.
  - destruct water_origin_marked_example as (visited & t & Hff & Ht & Hw & Hv).
    by eapply Hclaim.
Qed.

(** ** Termination of the flood fill (C9) *)

(** C9, amended.  When the heights are at or below the water level at every
    coordinate farther than some cube distance [D] from the origin, the flood
    fill ends with its queue exhausted, after at most as many turns as there
    are coordinates within distance [D] plus one, although it never compares
    a coordinate with the radius of the map; the demotion pass that follows
    is a total function of the grid. *)
Theorem floodFill_terminates_when_decaying `{HexUtil} (config : MapConfigImpl.t) (D : Z) :
  (forall a, D < cubeDistance a ->
     (BiomeManager.height config a <= MapConfigImpl.WaterLevel config)%Q) ->
  exists visited,
    floodFill config (S (length (hexOffsets (Z.max D 0)))) = Some visited /\
    (forall fuel, (S (length (hexOffsets (Z.max D 0))) <= fuel)%nat ->
       floodFill config fuel = Some visited) /\
    (forall a, visited !! axialKey a = Some true -> cubeDistance a <= Z.max D 0).
Proof.
  intros Hdecay.
  assert (forall a, D < cubeDistance a -> ~ aboveWater config a) as Hdecay'.
  { intros a Ha Habove. apply aboveWater_spec in Habove.
    apply Qlt_not_le in Habove. by apply Habove, Hdecay. }
  destruct (floodFill_terminates config D Hdecay') as [visited Hff].
  exists visited. split_and!; [done| |].
  - intros fuel Hfuel. by eapply floodFill_fuel.
  - intros a Ha. apply floodFill_sound in Hff as (_ & Ht & _).
    apply Ht, reachable_above in Ha as [->|Ha].
    + unfold cubeDistance. simpl. lia.
    + destruct (decide (D < cubeDistance a)) as [Hfar|]; [|lia].
      by apply Hdecay' in Hfar.
Qed.

Lemma barLand_decays a :
  1 < cubeDistance a ->
  (@BiomeManager.height (islandUtil barLand) (asMapConfigImpl 0 (plainConfig 1 1 None)) a
   <= MapConfigImpl.WaterLevel (asMapConfigImpl 0 (plainConfig 1 1 None)))%Q.
Proof.
  intros Hfar. unfold BiomeManager.height. simpl. unfold islandNoise.
  case_bool_decide as Hin; [|by compute].
  unfold barLand in Hin.
  repeat (apply elem_of_cons in Hin as [->|Hin]);
    try (by apply elem_of_nil in Hin); by vm_compute in Hfar.
Qed.

Lemma floodFill_terminates_when_decaying_witness :
  exists visited,
    (forall a, 1 < cubeDistance a ->
       (@BiomeManager.height (islandUtil barLand)
          (asMapConfigImpl 0 (plainConfig 1 1 None)) a
        <= MapConfigImpl.WaterLevel (asMapConfigImpl 0 (plainConfig 1 1 None)))%Q) /\
    @floodFill (islandUtil barLand) (asMapConfigImpl 0 (plainConfig 1 1 None)) 8
    = Some visited.
Proof.
  destruct (@floodFill_terminates_when_decaying (islandUtil barLand)
              (asMapConfigImpl 0 (plainConfig 1 1 None)) 1 barLand_decays)
    as (visited & Hff & _).
  exists visited. split; [exact barLand_decays|exact Hff].
Defined.

(** Over a height field that is above the water level everywhere, the loop
    of the flood fill is still running after any number of turns, and so is
    [BuildMapDefinition]. *)
Lemma plateau_example (fuel : nat) :
  @floodFill plateauUtil (asMapConfigImpl 0 (plainConfig 1 0 None)) fuel = None /\
  @BuildMapDefinition plateauUtil fuel 0 (plainConfig 1 0 None) = None.
Proof.
  assert (@floodFill plateauUtil (asMapConfigImpl 0 (plainConfig 1 0 None)) fuel = None)
    as Hff by (apply floodFill_plateau; intros a; reflexivity).
  split; [done|].
  destruct (@BuildMapDefinition plateauUtil fuel 0 (plainConfig 1 0 None))
    as [r|] eqn:Hrun; [|done].
  apply BuildMapDefinition_Some in Hrun as (visited & _ & Hff' & _). congruence.
Qed.

(** C9 as stated does not hold: a height field that is pure, deterministic
    and bounded, here the constant 1/2, keeps the flood fill running for
    ever. *)
Lemma floodFill_terminates_counterexample :
  ~ (forall (H : HexUtil) (config : MapConfigImpl.t),
       exists fuel visited, floodFill config fuel = Some visited).
Proof.
  intros Hclaim.
  destruct (Hclaim plateauUtil (asMapConfigImpl 0 (plainConfig 1 0 None)))
    as (fuel & visited & Hff).
  destruct (plateau_example fuel) as [Hnone _]. congruence.
Qed.

(** ** Under-placement (C8) *)

(** C8.  With a sampler that keeps its contract and a radius that is not
    negative, when more towns are asked for than there are Land tiles after
    the filter, the placement loop leaves through the branch where the
    exclusion radius is -1: its last output is the warning, it has placed
    fewer towns than asked for, as many as there are Town tiles, and
    [BuildMapDefinition] returns the map. *)
Theorem under_placement `{HexUtil} fuel0 mathRandom config visited :
  samplerContract ->
  0 <= MapConfig.Radius config ->
  floodFill (asMapConfigImpl mathRandom config) fuel0 = Some visited ->
  Z.of_nat (countType TileType.Land
              (removeUnreached visited
                 (buildTiles (asMapConfigImpl mathRandom config))))
    < MapConfig.TotalTowns config ->
  exists fuel st',
    placeTowns (MapConfig.TotalTowns config) fuel
      (mkPlacer
         (removeUnreached visited (buildTiles (asMapConfigImpl mathRandom config)))
         (Random_new (MapConfigImpl.Seed (asMapConfigImpl mathRandom config)))
         0 (Z.min (MapConfig.Radius config) 10) 0
         [PrintSeed (MapConfigImpl.Seed (asMapConfigImpl mathRandom config))])
    = Some st' /\
    townExclusionZoneRadius st' = -1 /\
    (forall fuel', (fuel <= fuel')%nat ->
       BuildMapDefinition fuel' mathRandom config
       = Some (mkResult (resolveDefaults mathRandom config)
                 (mkMap (asMapConfigImpl mathRandom config) (pTiles st'))
                 (pLog st'))) /\
    last (pLog st')
    = Some (WarnFailedTowns (MapConfig.TotalTowns config) (townsGenerated st')) /\
    Z.of_nat (countType TileType.Town (pTiles st')) = townsGenerated st' /\
    townsGenerated st' < MapConfig.TotalTowns config.
Proof.
  intros contract HR Hff Hland.
  set (F := removeUnreached visited (buildTiles (asMapConfigImpl mathRandom config)))
    in *.
  set (st0 := mkPlacer F
         (Random_new (MapConfigImpl.Seed (asMapConfigImpl mathRandom config)))
         0 (Z.min (MapConfig.Radius config) 10) 0
         [PrintSeed (MapConfigImpl.Seed (asMapConfigImpl mathRandom config))]).
  set (fuel1 := Z.to_nat (Z.of_nat (countType TileType.Land F)
                          + 3 * (Z.min (MapConfig.Radius config) 10 + 1))).
  destruct (placeTowns_exhausts contract (MapConfig.TotalTowns config) fuel1 st0)
    as (st' & Hplace & Hr & Htowns & log & Hlog);
    cbn [st0 pTiles pRand townsGenerated townExclusionZoneRadius
         townExclusionZoneRetries pLog]; [lia..|].
  exists (Nat.max fuel0 fuel1), st'. split_and!.
  - eapply placeTowns_fuel; [done|lia].
  - done.
  - intros fuel' Hfuel. apply BuildMapDefinition_Some. exists visited, st'.
    split_and!; [|eapply placeTowns_fuel; [exact Hplace|lia]|done].
    eapply floodFill_fuel; [done|lia].
  - rewrite Hlog, !app_assoc. apply last_snoc.
  - apply (placeTowns_contract contract) in Hplace as (_ & _ & _ & Htn).
    cbn [st0 pTiles townsGenerated] in Htn.
    unfold F in Htn. rewrite filtered_no_Town in Htn. lia.
  - done.
Qed.

Lemma under_placement_witness :
  exists visited fuel (st' : @PlacerState (islandUtil barLand)),
    @samplerContract (islandUtil barLand) /\
    0 <= MapConfig.Radius (plainConfig 1 5 None) /\
    @floodFill (islandUtil barLand) (asMapConfigImpl 0 (plainConfig 1 5 None)) 20
    = Some visited /\
    Z.of_nat (countType TileType.Land
                (removeUnreached visited
                   (@buildTiles (islandUtil barLand)
                      (asMapConfigImpl 0 (plainConfig 1 5 None)))))
      < MapConfig.TotalTowns (plainConfig 1 5 None) /\
    @BuildMapDefinition (islandUtil barLand) fuel 0 (plainConfig 1 5 None)
    = Some (mkResult (resolveDefaults 0 (plainConfig 1 5 None))
              (mkMap (asMapConfigImpl 0 (plainConfig 1 5 None)) (pTiles st'))
              (pLog st')) /\
    townsGenerated st' < 5.
Proof.
  assert (exists visited,
    @floodFill (islandUtil barLand) (asMapConfigImpl 0 (plainConfig 1 5 None)) 20
    = Some visited /\
    Z.of_nat (countType TileType.Land
                (removeUnreached visited
                   (@buildTiles (islandUtil barLand)
                      (asMapConfigImpl 0 (plainConfig 1 5 None)))))
      < MapConfig.TotalTowns (plainConfig 1 5 None))
    as (visited & Hff & Hland) by (eexists; split; vm_compute; reflexivity).
  assert (0 <= MapConfig.Radius (plainConfig 1 5 None)) as HR by (simpl; lia).
  destruct (under_placement 20 0 (plainConfig 1 5 None) visited
              (islandUtil_contract barLand) HR Hff Hland)
    as (fuel & st' & _ & _ & Hrun & _ & _ & Hlt).
  exists visited, fuel, st'.
  split; [apply islandUtil_contract|]. split; [exact HR|].
  split; [exact Hff|]. split; [exact Hland|].
  split; [apply Hrun; lia|exact Hlt].
Defined.

(** ** A Water tile at the origin (C10) *)

Lemma promoted_Water (tiles tiles' : TileMap) a t :
  promoted tiles tiles' -> getTile tiles a = Some t ->
  Type_ t = TileType.Water -> getTile tiles' a = Some t.
Proof.
  intros Hp Ht Hw. specialize (Hp a). rewrite Ht in Hp.
  destruct (getTile tiles' a) as [t'|]; [|done].
  destruct Hp as (Hpos & Hb & [Hty|[Hty _]]); [|congruence].
  f_equal. destruct t, t'. simpl in *. congruence.
Qed.

Lemma promoted_Land (tiles tiles' : TileMap) a t :
  promoted tiles tiles' -> getTile tiles a = Some t ->
  Type_ t = TileType.Land ->
  exists t', getTile tiles' a = Some t' /\ Position t' = Position t /\
    Biome_ t' = Biome_ t /\
    (Type_ t' = TileType.Land \/ Type_ t' = TileType.Town).
Proof.
  intros Hp Ht Hl. specialize (Hp a). rewrite Ht in Hp.
  destruct (getTile tiles' a) as [t'|]; [|done].
  destruct Hp as (Hpos & Hb & [Hty|[_ Hty]]); exists t'; split_and!; try done.
  - left. congruence.
  - by right.
Qed.

(** C10.  The flood fill marks the origin reachable whatever its height, and
    the demotion pass leaves every tile that is not Land as it is.  So when
    the height of the origin is at or below the water level (radius not
    negative, sampler keeping its contract), the tile at the origin is Water
    from the build loop on, through the filter, to the returned map; and every
    coordinate one step from the origin with a height above the water level is
    marked reachable, is joined to the origin, and, when it lies on the map,
    holds a tile that is Land after the filter and Land or Town in the
    returned map. *)
Theorem water_origin_kept `{HexUtil} fuel mathRandom config r :
  samplerContract ->
  0 <= MapConfig.Radius config ->
  (BiomeManager.height (asMapConfigImpl mathRandom config) origin
   <= MapConfigImpl.WaterLevel (asMapConfigImpl mathRandom config))%Q ->
  BuildMapDefinition fuel mathRandom config = Some r ->
  exists visited,
    floodFill (asMapConfigImpl mathRandom config) fuel = Some visited /\
    visited !! "0,0" = Some true /\
    (forall t, Type_ t <> TileType.Land -> demoteTile visited t = t) /\
    Type_ (newTile (asMapConfigImpl mathRandom config) origin) = TileType.Water /\
    getTile (buildTiles (asMapConfigImpl mathRandom config)) origin
    = Some (newTile (asMapConfigImpl mathRandom config) origin) /\
    getTile (removeUnreached visited (buildTiles (asMapConfigImpl mathRandom config)))
      origin
    = Some (newTile (asMapConfigImpl mathRandom config) origin) /\
    getTile (Tiles (returned r)) origin
    = Some (newTile (asMapConfigImpl mathRandom config) origin) /\
    (forall n, hexDistance origin n = 1 ->
       aboveWater (asMapConfigImpl mathRandom config) n ->
       visited !! axialKey n = Some true /\
       reachable (asMapConfigImpl mathRandom config) n /\
       (1 <= MapConfig.Radius config ->
        Type_ (newTile (asMapConfigImpl mathRandom config) n) = TileType.Land /\
        getTile (removeUnreached visited
                   (buildTiles (asMapConfigImpl mathRandom config))) n
        = Some (newTile (asMapConfigImpl mathRandom config) n) /\
        exists t, getTile (Tiles (returned r)) n = Some t /\
          (Type_ t = TileType.Land \/ Type_ t = TileType.Town))).
Proof.
  intros contract HR Hlow Hrun.
  apply BuildMapDefinition_Some in Hrun as (visited & st' & Hff & Hplace & ->).
  apply (placeTowns_contract contract) in Hplace as (Hp & _).
  cbn [pTiles returned Tiles] in *.
  pose proof (floodFill_sound _ _ _ Hff) as (Ho & Hsound & _).
  assert (Type_ (newTile (asMapConfigImpl mathRandom config) origin) = TileType.Water)
    as Hwater.
  { apply newTile_Type_Water. intros Habove%aboveWater_spec.
    by apply Qlt_not_le in Habove. }
  assert (getTile (removeUnreached visited
                     (buildTiles (asMapConfigImpl mathRandom config))) origin
          = Some (newTile (asMapConfigImpl mathRandom config) origin)) as Hfo.
  { rewrite getTile_filtered, decide_True by (unfold cubeDistance; simpl; lia).
    by rewrite demoteTile_not_Land by congruence. }
  exists visited. split_and!; try done.
  - apply demoteTile_not_Land.
  - rewrite getTile_buildTiles. by rewrite decide_True by (unfold cubeDistance; simpl; lia).
  - by eapply promoted_Water.
  - intros n Hn Habove.
    assert (visited !! axialKey n = Some true) as Hv.
    { rewrite (floodFill_ring1 _ _ _ n Hff Hn). by rewrite Habove. }
    split_and!; [done|by apply Hsound|].
    intros HR1.
    assert (Type_ (newTile (asMapConfigImpl mathRandom config) n) = TileType.Land)
      as Hland by (by apply newTile_Type_Land).
    assert (getTile (removeUnreached visited
                       (buildTiles (asMapConfigImpl mathRandom config))) n
            = Some (newTile (asMapConfigImpl mathRandom config) n)) as Hfn.
    { rewrite getTile_filtered, decide_True
        by (rewrite <- hexDistance_origin, Hn; simpl; lia).
      f_equal. unfold demoteTile. rewrite decide_True by done.
      by rewrite newTile_Position, Hv. }
    split_and!; [done..|].
    destruct (promoted_Land _ _ _ _ Hp Hfn Hland) as (t & Ht & _ & _ & Hty).
    by exists t.
Qed.

Lemma water_origin_kept_witness :
  exists r,
    @samplerContract (islandUtil [Axial 1 0]) /\
    0 <= MapConfig.Radius (plainConfig 1 1 None) /\
    (@BiomeManager.height (islandUtil [Axial 1 0])
       (asMapConfigImpl 0 (plainConfig 1 1 None)) origin
     <= MapConfigImpl.WaterLevel (asMapConfigImpl 0 (plainConfig 1 1 None)))%Q /\
    @BuildMapDefinition (islandUtil [Axial 1 0]) 20 0 (plainConfig 1 1 None) = Some r /\
    getTile (Tiles (returned r)) origin
    = Some (mkTile origin TileType.Water Biome.Grassland).
Proof.
  assert (exists r,
    @BuildMapDefinition (islandUtil [Axial 1 0]) 20 0 (plainConfig 1 1 None) = Some r)
    as [r Hrun] by (eexists; vm_compute; reflexivity).
  assert (0 <= MapConfig.Radius (plainConfig 1 1 None)) as HR by (simpl; lia).
  assert ((@BiomeManager.height (islandUtil [Axial 1 0])
             (asMapConfigImpl 0 (plainConfig 1 1 None)) origin
           <= MapConfigImpl.WaterLevel (asMapConfigImpl 0 (plainConfig 1 1 None)))%Q)
    as Hlow by (vm_compute; discriminate).
  exists r. split; [apply islandUtil_contract|]. split; [exact HR|].
  split; [exact Hlow|]. split; [exact Hrun|].
  destruct (water_origin_kept 20 0 (plainConfig 1 1 None) r
              (islandUtil_contract _) HR Hlow Hrun)
    as (visited & _ & _ & _ & _ & _ & _ & Hfinal & _).
  rewrite Hfinal. reflexivity.
Defined.

(** The situation of C10 with a town asked for: the origin is Water, and the
    only Land tile, at (1,0), becomes the Town. *)
Lemma water_origin_example :
  exists r,
    @BuildMapDefinition (islandUtil [Axial 1 0]) 20 0 (plainConfig 1 1 None) = Some r /\
    getTile (Tiles (returned r)) origin
    = Some (mkTile origin TileType.Water Biome.Grassland) /\
    getTile (Tiles (returned r)) (Axial 1 0)
    = Some (mkTile (Axial 1 0) TileType.Town Biome.Grassland).
Proof.
  eexists. split; [vm_compute; reflexivity|]. split; vm_compute; reflexivity.
Qed.

(** ** Remarks *)

(** The ties of the classifier: a height equal to the water level is Water;
    away from water, a height equal to 0.2 is Mountain and a height equal to 0
    is Grassland. *)
Lemma getTileBiome_ties `{HexUtil} (config : MapConfigImpl.t) (axial : AxialCoordinates) :
  ((BiomeManager.height config axial == MapConfigImpl.WaterLevel config)%Q ->
     BiomeManager.getTileBiome config axial = Biome.Water) /\
  (BiomeManager.tileHasWater config axial = false ->
   BiomeManager.tileIsCoastline config axial = false ->
   ((BiomeManager.height config axial == 1 # 5)%Q ->
      BiomeManager.getTileBiome config axial = Biome.Mountain) /\
   ((BiomeManager.height config axial == 0)%Q ->
      BiomeManager.getTileBiome config axial = Biome.Grassland)).
Proof.
  unfold BiomeManager.getTileBiome. split.
  - intros Heq. assert (BiomeManager.tileHasWater config axial = true) as ->; [|done].
    apply tileHasWater_spec. rewrite Heq. apply Qle_refl.
  - intros -> ->. split; intros Heq.
    + assert (num_gt (BiomeManager.height config axial) (1 # 5) = false) as ->.
      { apply num_gt_false. rewrite Heq. apply Qle_refl. }
      assert (num_gt (BiomeManager.height config axial) 0 = true) as ->; [|done].
      apply num_gt_spec. by rewrite Heq.
    + assert (num_gt (BiomeManager.height config axial) (1 # 5) = false) as ->.
      { apply num_gt_false. by rewrite Heq. }
      assert (num_gt (BiomeManager.height config axial) 0 = false) as ->; [|done].
      apply num_gt_false. rewrite Heq. apply Qle_refl.
Qed.

(** Below the floor.  The placement loop leaves through the warning only when
    the exclusion radius is exactly -1.  With a radius of -2 or less the grid
    is empty, the exclusion radius starts below -1 and moves away from it, and
    a sampler that keeps its contract has nothing to return: when a town is
    asked for, the loop is still running after any number of rounds. *)
Lemma placeTowns_below_floor `{HexUtil} totalTowns fuel st :
  samplerContract ->
  townExclusionZoneRadius st <= -2 ->
  countType TileType.Land (pTiles st) = 0%nat ->
  townsGenerated st < totalTowns ->
  placeTowns totalTowns fuel st = None.
Proof.
  intros contract. revert st.
  induction fuel as [|fuel IH]; intros st Hr Hland Htowns; cbn [placeTowns];
    rewrite decide_True by done; [done|].
  destruct (placeRound_contract contract totalTowns st)
    as (_ & Hn & Hl & _ & _ & Hprogress & Hstall).
  assert (townsGenerated st = townsGenerated (placeRound totalTowns st)) as Heq by lia.
  destruct (Hstall Heq) as [H3 Hn3].
  assert (townExclusionZoneRadius (placeRound totalTowns st) <= -2) as Hr'.
  { destruct (decide (townExclusionZoneRetries st + 1 = 3)) as [Hthree|Hthree].
    - destruct (H3 Hthree). lia.
    - destruct (Hn3 Hthree). lia. }
  rewrite decide_False by lia.
  apply IH;
    cbn [pTiles townsGenerated townExclusionZoneRadius]; [done|lia|lia].
Qed.

Lemma negative_radius_towns_example (fuel : nat) :
  @BuildMapDefinition (islandUtil barLand) fuel 0 (plainConfig (-2) 1 None) = None.
Proof.
  destruct (@BuildMapDefinition (islandUtil barLand) fuel 0 (plainConfig (-2) 1 None))
    as [r|] eqn:Hrun; [|done].
  apply BuildMapDefinition_Some in Hrun as (visited & st' & _ & Hplace & _).
  rewrite placeTowns_below_floor in Hplace; [done| | | |].
  - apply islandUtil_contract.
  - simpl. lia.
  - cbn [pTiles]. rewrite buildTiles_negative by (simpl; lia).
    unfold removeUnreached. by rewrite fmap_empty.
  - simpl. lia.
Qed.

(** C8 as stated does not hold: it has no condition on the radius.  With a
    radius of -2 and one town asked for, which the code accepts, the flood
    fill ends, the grid has no Land tile, fewer than the one town asked for,
    and the sampler keeps its contract; yet the exclusion radius starts at -2,
    never equals -1, and the call is still in the placement loop after any
    number of rounds: no map is returned and no warning is issued. *)
Lemma under_placement_counterexample :
  (exists visited,
     @floodFill (islandUtil barLand) (asMapConfigImpl 0 (plainConfig (-2) 1 None)) 20
     = Some visited /\
     Z.of_nat (countType TileType.Land
                 (removeUnreached visited
                    (@buildTiles (islandUtil barLand)
                       (asMapConfigImpl 0 (plainConfig (-2) 1 None)))))
       < MapConfig.TotalTowns (plainConfig (-2) 1 None)) /\
  (forall fuel,
     @BuildMapDefinition (islandUtil barLand) fuel 0 (plainConfig (-2) 1 None) = None) /\
  ~ (forall (H : HexUtil) fuel0 mathRandom config visited,
       samplerContract ->
       floodFill (asMapConfigImpl mathRandom config) fuel0 = Some visited ->
       Z.of_nat (countType TileType.Land
                   (removeUnreached visited
                      (buildTiles (asMapConfigImpl mathRandom config))))
         < MapConfig.TotalTowns config ->
       exists fuel st',
         placeTowns (MapConfig.TotalTowns config) fuel
           (mkPlacer
              (removeUnreached visited (buildTiles (asMapConfigImpl mathRandom config)))
              (Random_new (MapConfigImpl.Seed (asMapConfigImpl mathRandom config)))
              0 (Z.min (MapConfig.Radius config) 10) 0
              [PrintSeed (MapConfigImpl.Seed (asMapConfigImpl mathRandom config))])
         = Some st' /\
         townExclusionZoneRadius st' = -1 /\
         (forall fuel', (fuel <= fuel')%nat ->
            BuildMapDefinition fuel' mathRandom config
            = Some (mkResult (resolveDefaults mathRandom config)
                      (mkMap (asMapConfigImpl mathRandom config) (pTiles st'))
                      (pLog st'))) /\
         last (pLog st')
         = Some (WarnFailedTowns (MapConfig.TotalTowns config) (townsGenerated st')) /\
         Z.of_nat (countType TileType.Town (pTiles st')) = townsGenerated st' /\
         townsGenerated st' < MapConfig.TotalTowns config).
Proof.
  assert (exists visited,
     @floodFill (islandUtil barLand) (asMapConfigImpl 0 (plainConfig (-2) 1 None)) 20
     = Some visited /\
     Z.of_nat (countType TileType.Land
                 (removeUnreached visited
                    (@buildTiles (islandUtil barLand)
                       (asMapConfigImpl 0 (plainConfig (-2) 1 None)))))
       < MapConfig.TotalTowns (plainConfig (-2) 1 None)) as Hinput
    by (eexists; split; vm_compute; reflexivity).
  split; [exact Hinput|]. split; [exact negative_radius_towns_example|].
  intros Hclaim. destruct Hinput as (visited & Hff & Hland).
  destruct (Hclaim (islandUtil barLand) 20%nat 0%Q (plainConfig (-2) 1 None) visited
              (islandUtil_contract barLand) Hff Hland)
    as (fuel & st' & _ & _ & Hrun & _).
  specialize (Hrun fuel ltac:(lia)).
  rewrite negative_radius_towns_example in Hrun. discriminate.
Qed.

(** * Further properties *)

(** ** The flood fill marks exactly the island *)

Section FloodFillExact.
Context `{HexUtil}.
Variable config : MapConfigImpl.t.

(** The loop over the neighbours changes no entry but theirs. *)
Lemma visitNeighbors_frame visited toVisit ns k :
  (foldl (visitNeighbor config) (visited, toVisit) ns).1 !! k = visited !! k \/
  exists n, n ∈ ns /\ k = axialKey n.
Proof.
  apply (foldl_invariant (fun st =>
    st.1 !! k = visited !! k \/ exists n, n ∈ ns /\ k = axialKey n)); [by left|].
  intros [v q] n Hn [Hsame|Hkey]; [|by right].
  rewrite visitNeighbor_lookup. case_decide as Hk; [|by left].
  right. by exists n.
Qed.

Lemma floodFillLoop_closed fuel visited toVisit visitIdx visited' :
  FloodInv config visited toVisit ->
  (forall i a, (i < visitIdx)%nat -> toVisit !! i = Some a ->
     forall n, hexDistance a n = 1 -> is_Some (visited !! axialKey n)) ->
  (forall a, visited !! axialKey a = Some false ->
     exists b, b ∈ toVisit /\ hexDistance b a = 1) ->
  floodFillLoop config fuel visited toVisit visitIdx = Some visited' ->
  exists toVisit',
    FloodInv config visited' toVisit' /\
    (forall a, a ∈ toVisit' ->
       forall n, hexDistance a n = 1 -> is_Some (visited' !! axialKey n)) /\
    (forall a, visited' !! axialKey a = Some false ->
       exists b, b ∈ toVisit' /\ hexDistance b a = 1).
Proof.
  revert visited toVisit visitIdx.
  induction fuel as [|fuel IH]; intros v q idx Hinv Hclosed Hfalse Hrun; [done|].
  cbn [floodFillLoop] in Hrun.
  destruct (q !! idx) as [tile|] eqn:Htile.
  - pose proof (floodFill_turn_inv config _ _ _ _ Hinv Htile) as Hinv'.
    destruct (visitNeighbors_prefix config v q (getNearbyCoordinates tile 1))
      as [l Hl].
    assert (forall n b, v !! axialKey n = Some b ->
      (foldl (visitNeighbor config) (v, q) (getNearbyCoordinates tile 1)).1
        !! axialKey n = Some b) as Hmono
      by (intros n b; apply visitNeighbors_mono).
    assert (forall n, hexDistance tile n = 1 ->
      is_Some ((foldl (visitNeighbor config) (v, q) (getNearbyCoordinates tile 1)).1
                 !! axialKey n)) as Hmarks.
    { intros n Hn. destruct (v !! axialKey n) as [b|] eqn:Hvn.
      - exists b. by apply Hmono.
      - eexists. apply visitNeighbors_marks; [by apply elem_of_ring1|done]. }
    pose proof (fun k => visitNeighbors_frame v q (getNearbyCoordinates tile 1) k)
      as Hframe.
    destruct (foldl _ _ _) as [v1 q1]. simpl in *. subst q1.
    apply (IH _ _ _ Hinv') in Hrun; [done| |].
    + intros i a Hi Ha n Hn. destruct (decide (i = idx)) as [->|Hne].
      * rewrite lookup_app_l in Ha by (by eapply lookup_lt_Some).
        assert (a = tile) as -> by congruence. by apply Hmarks.
      * apply lookup_lt_Some in Htile. rewrite lookup_app_l in Ha by lia.
        destruct (Hclosed i a ltac:(lia) Ha n Hn) as [b Hb].
        exists b. by apply Hmono.
    + intros a Ha. destruct (Hframe (axialKey a)) as [Hsame|(n & Hn & Hk)].
      * rewrite Hsame in Ha. destruct (Hfalse a Ha) as (b & Hb & Hd).
        exists b. split; [|done]. apply elem_of_app. by left.
      * apply (inj axialKey) in Hk. subst n. exists tile. split.
        -- apply elem_of_app. left. by eapply list_elem_of_lookup_2.
        -- by apply elem_of_ring1.
  - injection Hrun as <-. exists q. split_and!; [done| |done].
    intros a Ha n Hn. apply list_elem_of_lookup in Ha as [i Hi].
    apply lookup_ge_None in Htile. apply (Hclosed i a); [|done..].
    apply lookup_lt_Some in Hi. lia.
Qed.

(** A finished flood fill has handled its whole queue. *)
Lemma floodFill_done fuel visited :
  floodFill config fuel = Some visited ->
  exists toVisit,
    FloodInv config visited toVisit /\
    (forall a, a ∈ toVisit ->
       forall n, hexDistance a n = 1 -> is_Some (visited !! axialKey n)) /\
    (forall a, visited !! axialKey a = Some false ->
       exists b, b ∈ toVisit /\ hexDistance b a = 1).
Proof.
  intros Hff.
  apply floodFillLoop_closed in Hff; [done|apply FloodInv_initial| |].
  - intros i a Hi. lia.
  - intros a. rewrite lookup_singleton. by case_decide.
Qed.

(** Every coordinate joined to the origin is marked reachable. *)
Lemma floodFill_complete fuel visited a :
  floodFill config fuel = Some visited ->
  reachable config a -> visited !! axialKey a = Some true.
Proof.
  intros Hff.
  destruct (floodFill_sound config fuel visited Hff) as (Ho & _ & Hbelow).
  destruct (floodFill_done fuel visited Hff) as (q & Hinv & Hclosed & _).
  induction 1 as [|a b Ha IH Hd Habove]; [done|].
  destruct (Hclosed a (inv_true _ _ _ Hinv a IH) b Hd) as [[] Hb]; [done|].
  by apply Hbelow in Hb.
Qed.

(** X1.  When the flood fill ends, the coordinates marked reachable are
    exactly those joined to the origin by ring-1 steps through heights above
    the water level, and the coordinates marked unreachable are exactly the
    other coordinates, at or below the water level, one step away from them. *)
Theorem floodFill_exact fuel visited :
  floodFill config fuel = Some visited ->
  (forall a, visited !! axialKey a = Some true <-> reachable config a) /\
  (forall a, visited !! axialKey a = Some false <->
     a <> origin /\ ~ aboveWater config a /\
     exists b, reachable config b /\ hexDistance b a = 1).
Proof.
  intros Hff.
  destruct (floodFill_sound config fuel visited Hff) as (Ho & Hsound & Hbelow).
  destruct (floodFill_done fuel visited Hff) as (q & Hinv & Hclosed & Hfalse).
  split; intros a.
  - split; [apply Hsound|by apply (floodFill_complete fuel)].
  - split.
    + intros Ha. split_and!.
      * intros ->. change (axialKey origin) with "0,0" in Ha. congruence.
      * by apply Hbelow.
      * destruct (Hfalse a Ha) as (b & Hb & Hd). exists b. split; [|done].
        by eapply inv_reach.
    + intros (Hne & Hbelow' & b & Hb & Hd).
      pose proof (floodFill_complete fuel visited b Hff Hb) as Hb'.
      destruct (Hclosed b (inv_true _ _ _ Hinv b Hb') a Hd) as [[] Ha]; [|done].
      by apply Hsound, reachable_above in Ha as [?|?].
Qed.

(** X2.  After the filter, the tile at a coordinate of the map is Land exactly
    when its height is above the water level and it is joined to the origin;
    otherwise it is Water.  The filter makes no Town. *)
Theorem filter_keeps_island fuel visited a :
  floodFill config fuel = Some visited ->
  cubeDistance a <= MapConfigImpl.Radius config ->
  exists t,
    getTile (removeUnreached visited (buildTiles config)) a = Some t /\
    Position t = a /\
    (Type_ t = TileType.Land <-> aboveWater config a /\ reachable config a) /\
    (Type_ t = TileType.Water <-> ~ (aboveWater config a /\ reachable config a)).
Proof.
  intros Hff Ha.
  assert (forall c, visited !! axialKey c = Some true <-> reachable config c) as Htrue.
  { intros c. split; [by apply (floodFill_sound config fuel)|].
    by apply (floodFill_complete fuel). }
  exists (demoteTile visited (newTile config a)).
  rewrite getTile_filtered, decide_True by done.
  rewrite demoteTile_Position, newTile_Position.
  split_and!; [done..| |];
    destruct (filtered_tile_cases config visited a)
      as [(Hl & _ & Habove & Hv)|[(Heq & Habove & Hv)|(Hw & _ & Hbelow)]].
  - rewrite Hl. apply Htrue in Hv. done.
  - rewrite Heq. simpl. split; [done|]. intros [_ Hr]. by apply Htrue in Hr.
  - rewrite Hw. split; [done|]. by intros [? _].
  - rewrite Hl. apply Htrue in Hv. split; [done|]. by intros [].
  - rewrite Heq. simpl. split; [|done]. intros _ [_ Hr]. by apply Htrue in Hr.
  - rewrite Hw. split; [|done]. by intros _ [? _].
Qed.
End FloodFillExact.

(** Runs on the bar island, computed once. *)
Lemma barLand_floodFill :
  exists visited,
    @floodFill (islandUtil barLand) (asMapConfigImpl 0 (plainConfig 1 2 None)) 20
    = Some visited.
Proof. eexists. vm_compute. reflexivity. Qed.

(** With two towns asked for, the tile at (-1,0) is one of them. *)
Lemma barLand_run :
  exists r t,
    @BuildMapDefinition (islandUtil barLand) 20 0 (plainConfig 1 2 None) = Some r /\
    t ∈ tileList (Tiles (returned r)) /\
    Position t = Axial (-1) 0 /\ Type_ t = TileType.Town.
Proof.
  eexists _, _. split; [vm_compute; reflexivity|]. split.
  - apply elem_of_tileList. exists (Axial (-1) 0). vm_compute. reflexivity.
  - split; reflexivity.
Qed.

Lemma barLand_reachable :
  @aboveWater (islandUtil barLand) (asMapConfigImpl 0 (plainConfig 1 2 None)) (Axial 1 0) /\
  @reachable (islandUtil barLand) (asMapConfigImpl 0 (plainConfig 1 2 None)) (Axial 1 0).
Proof.
  split; [reflexivity|].
  apply reachable_step with origin; [constructor|reflexivity|reflexivity].
Qed.

Lemma floodFill_exact_witness :
  exists visited,
    @floodFill (islandUtil barLand) (asMapConfigImpl 0 (plainConfig 1 2 None)) 20
    = Some visited /\
    visited !! axialKey (Axial 1 0) = Some true.
Proof.
  destruct barLand_floodFill as [visited Hff]. exists visited.
  split; [exact Hff|].
  apply (proj1 (floodFill_exact _ _ _ Hff) (Axial 1 0)), barLand_reachable.
Defined.

Lemma filter_keeps_island_witness :
  exists visited t,
    @floodFill (islandUtil barLand) (asMapConfigImpl 0 (plainConfig 1 2 None)) 20
    = Some visited /\
    cubeDistance (Axial 1 0)
    <= MapConfigImpl.Radius (asMapConfigImpl 0 (plainConfig 1 2 None)) /\
    getTile (removeUnreached visited
               (@buildTiles (islandUtil barLand)
                  (asMapConfigImpl 0 (plainConfig 1 2 None)))) (Axial 1 0) = Some t /\
    Type_ t = TileType.Land.
Proof.
  destruct barLand_floodFill as [visited Hff].
  assert (cubeDistance (Axial 1 0)
          <= MapConfigImpl.Radius (asMapConfigImpl 0 (plainConfig 1 2 None))) as Hd
    by (vm_compute; discriminate).
  destruct (filter_keeps_island _ _ _ (Axial 1 0) Hff Hd) as (t & Ht & _ & Hl & _).
  exists visited, t. split; [exact Hff|]. split; [exact Hd|].
  split; [exact Ht|]. apply Hl, barLand_reachable.
Defined.

(** X3.  The demotion pass is idempotent: a second pass with the same marks
    changes nothing. *)
Theorem removeUnreached_idempotent (visited : gmap string bool) (tiles : TileMap) :
  removeUnreached visited (removeUnreached visited tiles)
  = removeUnreached visited tiles.
Proof.
  assert (forall t, demoteTile visited (demoteTile visited t) = demoteTile visited t)
    as Hidem.
  { intros t.
    destruct (decide (Type_ (demoteTile visited t) = TileType.Land)) as [Hl|Hl].
    - pose proof (demoteTile_Land_eq _ _ Hl) as Heq. by rewrite !Heq.
    - by apply demoteTile_not_Land. }
  unfold removeUnreached. rewrite <- map_fmap_compose.
  apply map_fmap_ext. intros x zMap _. simpl.
  rewrite <- map_fmap_compose. apply map_fmap_ext. intros z t _. apply Hidem.
Qed.

(** ** Town placement, whatever the sampler returns *)

Lemma retyped_refl (tiles : TileMap) : retyped tiles tiles.
Proof. intros a. destruct (getTile tiles a); auto. Qed.

Lemma retyped_trans (g1 g2 g3 : TileMap) :
  retyped g1 g2 -> retyped g2 g3 -> retyped g1 g3.
Proof.
  intros H12 H23 a. specialize (H12 a). specialize (H23 a).
  destruct (getTile g1 a) as [t1|], (getTile g2 a) as [t2|],
    (getTile g3 a) as [t3|]; try done.
  destruct H12 as (Hp & Hb & Ht), H23 as (Hp' & Hb' & Ht').
  split_and!; [congruence..|].
  destruct Ht' as [Ht'|Ht']; [|by right].
  destruct Ht as [Ht|Ht]; [left|right]; congruence.
Qed.

Lemma retyped_setTown (tiles : TileMap) c :
  retyped tiles (updateTile setTown c tiles).
Proof.
  intros a. rewrite getTile_updateTile. case_decide as Ha.
  - destruct (getTile tiles a); simpl; auto.
  - destruct (getTile tiles a); auto.
Qed.

Lemma spaced_le r r' (tiles : TileMap) : r' <= r -> spaced r tiles -> spaced r' tiles.
Proof.
  intros Hle Hs a b ta tb Hne Ha Hta Hb Htb.
  specialize (Hs a b ta tb Hne Ha Hta Hb Htb). lia.
Qed.

Section PlacementGeneral.
Context `{HexUtil}.

Lemma canBeTown_true (tiles : TileMap) c r b t :
  canBeTown tiles c r = true -> b <> c ->
  getTile tiles b = Some t -> Type_ t = TileType.Town -> r < hexDistance c b.
Proof.
  intros Hcan Hne Hb Ht. destruct (decide (r < hexDistance c b)); [done|].
  assert (canBeTown tiles c r = false); [|congruence].
  apply canBeTown_spec. exists b, t. split_and!; [done|lia|done..].
Qed.

Lemma spaced_setTown r (tiles : TileMap) c :
  canBeTown tiles c r = true -> spaced r tiles ->
  spaced r (updateTile setTown c tiles).
Proof.
  intros Hcan Hs a b ta tb Hne. rewrite !getTile_updateTile.
  destruct (decide (a = c)) as [->|Hac], (decide (b = c)) as [->|Hbc]; [done|..].
  - intros _ _ Hb Htb. by eapply canBeTown_true.
  - intros Ha Hta _ _. rewrite hexDistance_sym. by eapply canBeTown_true.
  - by apply Hs.
Qed.

(** The loop over the candidates: what it does to the grid and the counters,
    for any list of candidates. *)
Lemma placeCandidates_general r l (g : TileMap) n b :
  retyped g (placeCandidates r (g, n, b) l).1.1 /\
  n <= (placeCandidates r (g, n, b) l).1.2 <= n + Z.of_nat (length l) /\
  ((placeCandidates r (g, n, b) l).2 = true <->
   b = true \/ n < (placeCandidates r (g, n, b) l).1.2) /\
  Z.of_nat (countType TileType.Town (placeCandidates r (g, n, b) l).1.1)
    - (placeCandidates r (g, n, b) l).1.2
  <= Z.of_nat (countType TileType.Town g) - n /\
  (spaced r g -> spaced r (placeCandidates r (g, n, b) l).1.1).
Proof.
  revert g n b. induction l as [|c l IH]; intros g n b.
  - simpl. split; [apply retyped_refl|]. split; [lia|].
    split; [|split; [lia|done]].
    split; [auto|]. intros [?|?]; [done|lia].
  - rewrite placeCandidates_cons.
    assert (placeCandidate r (g, n, b) c
            = if canBeTown g c r then (updateTile setTown c g, n + 1, true)
              else (g, n, b)) as -> by reflexivity.
    destruct (canBeTown g c r) eqn:Hcan.
    + destruct (IH (updateTile setTown c g) (n + 1) true)
        as (Hr & Hn & Hb & Ht & Hs).
      pose proof (countType_setTown_le g c) as Hle.
      assert (Z.of_nat (countType TileType.Town (updateTile setTown c g))
              <= Z.of_nat (countType TileType.Town g) + 1) as Hle'.
      { destruct (getTile g c) as [t|] eqn:Hc.
        - pose proof (countType_updateTile TileType.Town setTown c g t Hc) as Hc'.
          simpl in Hc'. case_decide; lia.
        - rewrite updateTile_None by done. lia. }
      cbn [length]. split; [|split; [|split; [|split]]].
      * eapply retyped_trans; [apply retyped_setTown|done].
      * lia.
      * split; [intros _; right; lia|intros _; apply Hb; by left].
      * lia.
      * intros Hsp. by apply Hs, spaced_setTown.
    + destruct (IH g n b) as (Hr & Hn & Hb & Ht & Hs).
      cbn [length]. split; [done|]. split; [lia|done].
Qed.

(** A round of the placement loop, for any sampler. *)
Lemma placeRound_general totalTowns st :
  retyped (pTiles st) (pTiles (placeRound totalTowns st)) /\
  townsGenerated st <= townsGenerated (placeRound totalTowns st) /\
  (samplerBounded -> townsGenerated st <= totalTowns ->
   townsGenerated (placeRound totalTowns st) <= totalTowns) /\
  Z.of_nat (countType TileType.Town (pTiles (placeRound totalTowns st)))
    - townsGenerated (placeRound totalTowns st)
  <= Z.of_nat (countType TileType.Town (pTiles st)) - townsGenerated st /\
  (spaced (townExclusionZoneRadius st) (pTiles st) ->
   spaced (townExclusionZoneRadius (placeRound totalTowns st))
     (pTiles (placeRound totalTowns st))) /\
  pLog (placeRound totalTowns st) = pLog st /\
  townExclusionZoneRadius st - 1
    <= townExclusionZoneRadius (placeRound totalTowns st)
    <= townExclusionZoneRadius st /\
  (0 <= townExclusionZoneRetries st <= 2 ->
   0 <= townExclusionZoneRetries (placeRound totalTowns st) <= 2 /\
   (townExclusionZoneRadius (placeRound totalTowns st)
    < townExclusionZoneRadius st ->
    townsGenerated (placeRound totalTowns st) = townsGenerated st)).
Proof.
  destruct (placeRound_fields totalTowns st) as (-> & -> & -> & -> & ->).
  destruct (placeCandidates_general (townExclusionZoneRadius st)
              (getRandomMapTiles (pTiles st) (totalTowns - townsGenerated st)
                 TileType.Land (pRand st)).1
              (pTiles st) (townsGenerated st) false)
    as (Hr & Hn & Hb & Ht & Hs).
  split_and!; try done.
  - lia.
  - intros Hbound Hle.
    specialize (Hbound (pTiles st) (totalTowns - townsGenerated st) TileType.Land
                  (pRand st)). lia.
  - intros Hsp. apply Hs in Hsp. eapply spaced_le; [|done]. case_decide; lia.
  - case_decide; lia.
  - case_decide; lia.
  - intros Hretries.
    set (res := placeCandidates (townExclusionZoneRadius st)
                  (pTiles st, townsGenerated st, false)
                  (getRandomMapTiles (pTiles st) (totalTowns - townsGenerated st)
                     TileType.Land (pRand st)).1) in *.
    destruct (res.2) eqn:Hflag.
    + rewrite !decide_False by lia. split; [lia|lia].
    + assert (res.1.2 = townsGenerated st) as Heq.
      { destruct (decide (townsGenerated st < res.1.2)) as [Hlt|]; [|lia].
        assert (false = true); [|done]. apply Hb. by right. }
      case_decide; split; (lia || done).
Qed.
End PlacementGeneral.

Section PlacementLoopGeneral.
Context `{HexUtil}.

(** The placement loop, for any sampler: what a finished loop has done. *)
Lemma placeTowns_general totalTowns fuel st st' :
  placeTowns totalTowns fuel st = Some st' ->
  retyped (pTiles st) (pTiles st') /\
  townsGenerated st <= townsGenerated st' /\
  (samplerBounded -> townsGenerated st <= totalTowns ->
   townsGenerated st' <= totalTowns) /\
  Z.of_nat (countType TileType.Town (pTiles st')) - townsGenerated st'
  <= Z.of_nat (countType TileType.Town (pTiles st)) - townsGenerated st /\
  townExclusionZoneRadius st' <= townExclusionZoneRadius st /\
  (spaced (townExclusionZoneRadius st) (pTiles st) ->
   spaced (townExclusionZoneRadius st') (pTiles st')) /\
  (0 <= townExclusionZoneRadius st -> 0 <= townExclusionZoneRetries st <= 2 ->
   (totalTowns <= townsGenerated st' /\ 0 <= townExclusionZoneRadius st' /\
    exists log, pLog st' = pLog st ++ log /\
      Forall (fun e => forall t n, e <> WarnFailedTowns t n) log) \/
   (townsGenerated st' < totalTowns /\ townExclusionZoneRadius st' = -1 /\
    exists log,
      pLog st' = pLog st ++ log ++ [WarnFailedTowns totalTowns (townsGenerated st')] /\
      Forall (fun e => forall t n, e <> WarnFailedTowns t n) log)).
Proof.
  revert st. induction fuel as [|fuel IH]; intros st; cbn [placeTowns];
    (case_decide as Hlt;
     [|intros [= <-]; split; [apply retyped_refl|]; split; [lia|];
       split; [done|]; split; [lia|]; split; [lia|]; split; [done|];
       intros Hr _; left; split; [lia|]; split; [done|];
       exists []; by rewrite app_nil_r]);
    [done|].
  destruct (placeRound_general totalTowns st)
    as (Hre & Hn & Hbound & Ht & Hsp & Hlog & Hrad & Hretries).
  case_decide as Hexit.
  - intros [= <-].
    cbn [pTiles pRand townsGenerated townExclusionZoneRadius
         townExclusionZoneRetries pLog].
    split; [done|]. split; [done|]. split; [intros ??; apply Hbound; [done|lia]|].
    split; [done|]. split; [lia|]. split; [done|].
    intros Hr Hret. right. destruct (Hretries Hret) as [_ Hsame].
    rewrite Hsame by lia. split; [done|]. split; [done|].
    exists []. by rewrite Hlog.
  - intros Hrun. apply IH in Hrun as (Hre' & Hn' & Hbound' & Ht' & Hrad' & Hsp' & Hout).
    cbn [pTiles pRand townsGenerated townExclusionZoneRadius
         townExclusionZoneRetries pLog] in *.
    split; [by eapply retyped_trans|]. split; [lia|].
    split; [intros Hb Hle; apply Hbound'; [done|]; apply Hbound; [done|lia]|].
    split; [lia|]. split; [lia|]. split; [intros Hs; by apply Hsp', Hsp|].
    intros Hr Hret. destruct (Hretries Hret) as [Hret' _].
    destruct (Hout ltac:(lia) Hret') as [(Hge & Hr' & log & Hlog' & Hnw)
                                         |(Hlt' & Hr' & log & Hlog' & Hnw)].
    + left. split; [done|]. split; [done|].
      exists ([PrintTowns (townsGenerated (placeRound totalTowns st)) totalTowns;
               HeartbeatWait] ++ log).
      split; [by rewrite Hlog', Hlog, <- !app_assoc|].
      apply Forall_app. split; [|done]. by repeat constructor.
    + right. split; [done|]. split; [done|].
      exists ([PrintTowns (townsGenerated (placeRound totalTowns st)) totalTowns;
               HeartbeatWait] ++ log).
      split; [by rewrite Hlog', Hlog, <- !app_assoc|].
      apply Forall_app. split; [|done]. by repeat constructor.
Qed.

(** With a sampler that keeps its contract and a radius that is not negative,
    the placement loop ends. *)
Lemma placeTowns_terminates totalTowns fuel st :
  samplerContract ->
  0 <= townExclusionZoneRadius st ->
  0 <= townExclusionZoneRetries st <= 2 ->
  Z.of_nat (countType TileType.Land (pTiles st))
    + 3 * (townExclusionZoneRadius st + 1) - townExclusionZoneRetries st
    <= Z.of_nat fuel ->
  exists st', placeTowns totalTowns fuel st = Some st'.
Proof.
  intros contract. revert st.
  induction fuel as [|fuel IH]; intros st Hr Hretries Hfuel; [lia|].
  cbn [placeTowns]. case_decide as Hlt; [|by eexists].
  destruct (placeRound_contract contract totalTowns st)
    as (_ & Hn & Hl & _ & _ & Hprogress & Hstall).
  case_decide as Hexit; [by eexists|].
  apply IH;
    cbn [pTiles pRand townsGenerated townExclusionZoneRadius
         townExclusionZoneRetries pLog].
  - destruct (decide (townsGenerated st < townsGenerated (placeRound totalTowns st)))
      as [Hp|Hp].
    + destruct (Hprogress Hp) as [Hr1 _]; lia.
    + destruct (Hstall ltac:(lia)) as [H3 Hn3].
      destruct (decide (townExclusionZoneRetries st + 1 = 3)) as [Hthree|Hthree];
        [destruct (H3 Hthree)|destruct (Hn3 Hthree)]; lia.
  - destruct (decide (townsGenerated st < townsGenerated (placeRound totalTowns st)))
      as [Hp|Hp].
    + destruct (Hprogress Hp) as [_ Hr2]; lia.
    + destruct (Hstall ltac:(lia)) as [H3 Hn3].
      destruct (decide (townExclusionZoneRetries st + 1 = 3)) as [Hthree|Hthree];
        [destruct (H3 Hthree)|destruct (Hn3 Hthree)]; lia.
  - destruct (decide (townsGenerated st < townsGenerated (placeRound totalTowns st)))
      as [Hp|Hp].
    + destruct (Hprogress Hp) as [Hr1 Hr2]; lia.
    + destruct (Hstall ltac:(lia)) as [H3 Hn3].
      destruct (decide (townExclusionZoneRetries st + 1 = 3)) as [Hthree|Hthree];
        [destruct (H3 Hthree)|destruct (Hn3 Hthree)]; lia.
Qed.
End PlacementLoopGeneral.

(** ** The returned map *)

Section ReturnedMap.
Context `{HexUtil}.

(** X4.  Whatever the sampler returns, the grid of the returned map has a
    tile at every coordinate within the radius, stored under its own
    [Position], and none elsewhere: the filter and the placement neither add
    nor remove a tile.  For a radius R >= 0 it has 3R^2 + 3R + 1 tiles. *)
Theorem returned_grid_shape fuel mathRandom config r :
  BuildMapDefinition fuel mathRandom config = Some r ->
  (forall a, cubeDistance a <= MapConfig.Radius config ->
     exists t, getTile (Tiles (returned r)) a = Some t /\ Position t = a) /\
  (forall a, MapConfig.Radius config < cubeDistance a ->
     getTile (Tiles (returned r)) a = None) /\
  (0 <= MapConfig.Radius config ->
   Z.of_nat (tileCount (Tiles (returned r)))
   = 3 * MapConfig.Radius config * MapConfig.Radius config
     + 3 * MapConfig.Radius config + 1).
Proof.
  intros Hrun.
  apply BuildMapDefinition_Some in Hrun as (visited & st' & _ & Hplace & ->).
  apply placeTowns_general in Hplace as (Hre & _). cbn [pTiles returned Tiles] in *.
  assert (forall a, cubeDistance a <= MapConfig.Radius config ->
    exists t, getTile (pTiles st') a = Some t /\ Position t = a) as Hin.
  { intros a Ha. specialize (Hre a). rewrite getTile_filtered in Hre.
    rewrite decide_True in Hre by done.
    destruct (getTile (pTiles st') a) as [t|]; [|done].
    exists t. split; [done|]. destruct Hre as (-> & _).
    by rewrite demoteTile_Position, newTile_Position. }
  assert (forall a, MapConfig.Radius config < cubeDistance a ->
    getTile (pTiles st') a = None) as Hout.
  { intros a Ha. specialize (Hre a). rewrite getTile_filtered in Hre.
    rewrite decide_False in Hre by (simpl; lia).
    by destruct (getTile (pTiles st') a). }
  split; [done|]. split; [done|]. intros HR.
  rewrite <- length_hexOffsets by done. f_equal.
  apply tileCount_keys; [apply NoDup_hexOffsets|].
  intros a. rewrite elem_of_hexOffsets. split.
  - intros Ha. destruct (Hin a Ha) as (t & Ht & _). by exists t.
  - intros [t Ht]. destruct (decide (cubeDistance a <= MapConfig.Radius config));
      [done|]. rewrite Hout in Ht by lia. done.
Qed.

(** X5.  With a sampler that returns at most as many tiles as it is asked
    for, the returned map never has more Town tiles than [TotalTowns] (none
    when [TotalTowns] is negative). *)
Theorem towns_at_most_requested fuel mathRandom config r :
  samplerBounded ->
  BuildMapDefinition fuel mathRandom config = Some r ->
  Z.of_nat (countType TileType.Town (Tiles (returned r)))
  <= Z.max 0 (MapConfig.TotalTowns config).
Proof.
  intros Hbounded Hrun.
  apply BuildMapDefinition_Some in Hrun as (visited & st' & _ & Hplace & ->).
  cbn [returned Tiles].
  destruct (decide (MapConfig.TotalTowns config <= 0)) as [Hneg|Hpos].
  - rewrite placeTowns_done in Hplace by done. injection Hplace as <-.
    cbn [pTiles]. rewrite filtered_no_Town. lia.
  - apply placeTowns_general in Hplace as (_ & _ & Hle & Ht & _).
    cbn [pTiles townsGenerated] in *. rewrite filtered_no_Town in Ht.
    specialize (Hle Hbounded ltac:(lia)). lia.
Qed.

(** X6.  With a radius that is not negative and a sampler that keeps its
    contract and returns at most as many tiles as it is asked for, a call that
    returns has one of two outcomes: the map has exactly [TotalTowns] Town
    tiles (none for a negative [TotalTowns]) and no warning was issued; or it
    has fewer, and the last output is the warning, which carries the number of
    Town tiles of the map. *)
Theorem placement_outcome fuel mathRandom config r :
  samplerContract -> samplerBounded ->
  0 <= MapConfig.Radius config ->
  BuildMapDefinition fuel mathRandom config = Some r ->
  (Z.of_nat (countType TileType.Town (Tiles (returned r)))
   = Z.max 0 (MapConfig.TotalTowns config) /\
   Forall (fun e => forall t n, e <> WarnFailedTowns t n) (output r)) \/
  (Z.of_nat (countType TileType.Town (Tiles (returned r)))
   < MapConfig.TotalTowns config /\
   last (output r)
   = Some (WarnFailedTowns (MapConfig.TotalTowns config)
             (Z.of_nat (countType TileType.Town (Tiles (returned r)))))).
Proof.
  intros contract Hbounded HR Hrun.
  apply BuildMapDefinition_Some in Hrun as (visited & st' & _ & Hplace & ->).
  cbn [returned Tiles output].
  pose proof (placeTowns_contract contract _ _ _ _ Hplace) as (_ & _ & _ & Hcount).
  pose proof Hplace as Hplace'.
  apply placeTowns_general in Hplace as (_ & Hn & Hle & _ & _ & _ & Hout).
  cbn [pTiles townsGenerated townExclusionZoneRadius townExclusionZoneRetries pLog]
    in *.
  rewrite filtered_no_Town in Hcount.
  destruct (Hout ltac:(lia) ltac:(lia))
    as [(Hge & _ & log & -> & Hnw)|(Hlt & _ & log & -> & _)].
  - left. split.
    + destruct (decide (0 <= MapConfig.TotalTowns config)) as [Hpos|Hneg].
      * specialize (Hle Hbounded Hpos). lia.
      * rewrite placeTowns_done in Hplace' by (cbn [townsGenerated]; lia).
        injection Hplace' as <-. cbn [townsGenerated] in Hcount. lia.
    + apply Forall_app. split; [by repeat constructor|done].
  - right. split; [lia|].
    replace (Z.of_nat (countType TileType.Town (pTiles st')))
      with (townsGenerated st') by lia.
    rewrite !app_assoc. apply last_snoc.
Qed.
End ReturnedMap.

Section ReturnedMapMore.
Context `{HexUtil}.

(** X7.  Whatever the sampler returns, any two Town tiles of the returned map
    are farther apart than the exclusion radius with which the placement loop
    ended, and that radius is at most min(Radius, 10). *)
Theorem towns_spaced fuel mathRandom config r :
  BuildMapDefinition fuel mathRandom config = Some r ->
  exists visited st',
    floodFill (asMapConfigImpl mathRandom config) fuel = Some visited /\
    placeTowns (MapConfig.TotalTowns config) fuel
      (mkPlacer
         (removeUnreached visited (buildTiles (asMapConfigImpl mathRandom config)))
         (Random_new (MapConfigImpl.Seed (asMapConfigImpl mathRandom config)))
         0 (Z.min (MapConfig.Radius config) 10) 0
         [PrintSeed (MapConfigImpl.Seed (asMapConfigImpl mathRandom config))])
    = Some st' /\
    Tiles (returned r) = pTiles st' /\
    townExclusionZoneRadius st' <= Z.min (MapConfig.Radius config) 10 /\
    spaced (townExclusionZoneRadius st') (Tiles (returned r)).
Proof.
  intros Hrun.
  apply BuildMapDefinition_Some in Hrun as (visited & st' & Hff & Hplace & ->).
  exists visited, st'. split; [done|]. split; [done|]. split; [done|].
  apply placeTowns_general in Hplace as (_ & _ & _ & _ & Hrad & Hsp & _).
  cbn [pTiles townExclusionZoneRadius returned Tiles] in *.
  split; [done|]. apply Hsp.
  intros a b ta tb _ Ha Hta _ _. exfalso.
  rewrite getTile_filtered in Ha. case_decide; [|done]. injection Ha as <-.
  revert Hta. apply demoteTile_not_Town, newTile_not_Town.
Qed.

(** X8.  With a sampler that keeps its contract, a tile of the returned map
    is Land or Town exactly when its height is above the water level and it is
    joined to the origin by ring-1 steps through heights above the water
    level; every other tile is Water.  In particular every Town stands on the
    central island. *)
Theorem returned_map_island fuel mathRandom config r t :
  samplerContract ->
  BuildMapDefinition fuel mathRandom config = Some r ->
  t ∈ tileList (Tiles (returned r)) ->
  (Type_ t <> TileType.Water <->
   aboveWater (asMapConfigImpl mathRandom config) (Position t) /\
   reachable (asMapConfigImpl mathRandom config) (Position t)).
Proof.
  intros contract Hrun Ht.
  destruct (returned_tile _ _ _ _ _ contract Hrun Ht)
    as (visited & Hff & _ & _ & _ & Hty).
  assert (forall c, visited !! axialKey c = Some true <->
                    reachable (asMapConfigImpl mathRandom config) c) as Htrue.
  { intros c. split; [by apply (floodFill_sound _ fuel)|].
    by apply (floodFill_complete _ fuel). }
  destruct (filtered_tile_cases (asMapConfigImpl mathRandom config) visited (Position t))
    as [(Hl & _ & Habove & Hv)|[(Heq & Habove & Hv)|(Hw & _ & Hbelow)]].
  - rewrite Hl in Hty. apply Htrue in Hv. split; [done|]. intros _.
    destruct Hty as [->|[_ ->]]; done.
  - rewrite Heq in Hty. simpl in Hty. split.
    + intros Hnw. destruct Hty as [Hty|[Hty _]]; done.
    + intros [_ Hr]. by apply Htrue in Hr.
  - rewrite Hw in Hty. split.
    + intros Hnw. destruct Hty as [Hty|[Hty _]]; done.
    + by intros [? _].
Qed.

(** X9.  With a sampler that keeps its contract, a radius that is not
    negative and heights at or below the water level beyond some cube distance
    [D] from the origin, [BuildMapDefinition] returns: neither of its two
    unbounded loops runs for ever. *)
Theorem BuildMapDefinition_terminates mathRandom config (D : Z) :
  samplerContract ->
  0 <= MapConfig.Radius config ->
  (forall a, D < cubeDistance a ->
     (BiomeManager.height (asMapConfigImpl mathRandom config) a
      <= MapConfigImpl.WaterLevel (asMapConfigImpl mathRandom config))%Q) ->
  exists fuel r,
    forall fuel', (fuel <= fuel')%nat ->
      BuildMapDefinition fuel' mathRandom config = Some r.
Proof.
  intros contract HR Hdecay.
  destruct (floodFill_terminates (asMapConfigImpl mathRandom config) D)
    as [visited Hff].
  { intros a Ha Habove%aboveWater_spec. apply Qlt_not_le in Habove.
    by apply Habove, Hdecay. }
  set (st0 := mkPlacer
         (removeUnreached visited (buildTiles (asMapConfigImpl mathRandom config)))
         (Random_new (MapConfigImpl.Seed (asMapConfigImpl mathRandom config)))
         0 (Z.min (MapConfig.Radius config) 10) 0
         [PrintSeed (MapConfigImpl.Seed (asMapConfigImpl mathRandom config))]).
  set (fuel1 := Z.to_nat (Z.of_nat (countType TileType.Land (pTiles st0))
                          + 3 * (Z.min (MapConfig.Radius config) 10 + 1))).
  destruct (placeTowns_terminates (MapConfig.TotalTowns config) fuel1 st0 contract)
    as [st' Hplace];
    [unfold fuel1, st0;
     cbn [pTiles townExclusionZoneRadius townExclusionZoneRetries]; lia..|].
  exists (Nat.max (S (length (hexOffsets (Z.max D 0)))) fuel1).
  eexists. intros fuel' Hfuel. apply BuildMapDefinition_Some.
  exists visited, st'. split; [eapply floodFill_fuel; [done|lia]|].
  split; [eapply placeTowns_fuel; [exact Hplace|lia]|reflexivity].
Qed.

(** X10.  With a sampler that keeps its contract, [RenderMap] draws every
    Water tile of a returned map at the water level and every Land or Town
    tile strictly above it. *)
Theorem renderHeight_above_water fuel mathRandom config r t :
  samplerContract ->
  BuildMapDefinition fuel mathRandom config = Some r ->
  t ∈ tileList (Tiles (returned r)) ->
  (Type_ t = TileType.Water ->
   renderHeight (returned r) t = MapConfigImpl.WaterLevel (Config (returned r))) /\
  (Type_ t <> TileType.Water ->
   (MapConfigImpl.WaterLevel (Config (returned r)) < renderHeight (returned r) t)%Q).
Proof.
  intros contract Hrun Ht. unfold renderHeight. split.
  - intros Hw. by rewrite decide_True.
  - intros Hnw. rewrite decide_False by done.
    destruct (returned_tile _ _ _ _ _ contract Hrun Ht)
      as (visited & _ & _ & _ & _ & Hty).
    assert (aboveWater (asMapConfigImpl mathRandom config) (Position t)) as Habove.
    { destruct (filtered_tile_cases (asMapConfigImpl mathRandom config) visited
                  (Position t))
        as [(_ & _ & Habove & _)|[(Heq & _)|(Hw & _)]]; [done|..].
      - rewrite Heq in Hty. simpl in Hty. destruct Hty as [Hty|[Hty _]]; done.
      - rewrite Hw in Hty. destruct Hty as [Hty|[Hty _]]; done. }
    apply aboveWater_spec in Habove.
    apply BuildMapDefinition_Some in Hrun as (visited' & st' & _ & _ & ->).
    exact Habove.
Qed.
End ReturnedMapMore.

(** *** Witnesses on the bar island *)

Lemma islandUtil_bounded land : @samplerBounded (islandUtil land).
Proof.
  intros tiles count ty rand. simpl. unfold firstTiles. simpl.
  rewrite length_take. lia.
Qed.

Lemma returned_grid_shape_witness :
  exists r,
    @BuildMapDefinition (islandUtil barLand) 20 0 (plainConfig 1 2 None) = Some r /\
    Z.of_nat (tileCount (Tiles (returned r))) = 7.
Proof.
  destruct barLand_run as (r & _ & Hrun & _). exists r. split; [exact Hrun|].
  destruct (returned_grid_shape _ _ _ _ Hrun) as (_ & _ & Hcount).
  rewrite Hcount; [reflexivity|]. simpl. lia.
Defined.

Lemma towns_at_most_requested_witness :
  exists r,
    @samplerBounded (islandUtil barLand) /\
    @BuildMapDefinition (islandUtil barLand) 20 0 (plainConfig 1 2 None) = Some r /\
    Z.of_nat (countType TileType.Town (Tiles (returned r))) <= 2.
Proof.
  destruct barLand_run as (r & _ & Hrun & _). exists r.
  split; [apply islandUtil_bounded|]. split; [exact Hrun|].
  apply (towns_at_most_requested _ _ _ _ (islandUtil_bounded _) Hrun).
Defined.

Lemma placement_outcome_witness :
  exists r,
    @samplerContract (islandUtil barLand) /\
    @samplerBounded (islandUtil barLand) /\
    0 <= MapConfig.Radius (plainConfig 1 2 None) /\
    @BuildMapDefinition (islandUtil barLand) 20 0 (plainConfig 1 2 None) = Some r /\
    (Z.of_nat (countType TileType.Town (Tiles (returned r))) = 2 \/
     Z.of_nat (countType TileType.Town (Tiles (returned r))) < 2).
Proof.
  destruct barLand_run as (r & _ & Hrun & _). exists r.
  assert (0 <= MapConfig.Radius (plainConfig 1 2 None)) as HR by (simpl; lia).
  split; [apply islandUtil_contract|]. split; [apply islandUtil_bounded|].
  split; [exact HR|]. split; [exact Hrun|].
  destruct (placement_outcome _ _ _ _ (islandUtil_contract _) (islandUtil_bounded _)
              HR Hrun) as [[Heq _]|[Hlt _]]; [left; exact Heq|right; exact Hlt].
Defined.

Lemma towns_spaced_witness :
  exists r (st' : @PlacerState (islandUtil barLand)),
    @BuildMapDefinition (islandUtil barLand) 20 0 (plainConfig 1 2 None) = Some r /\
    Tiles (returned r) = pTiles st' /\
    townExclusionZoneRadius st' <= 1 /\
    spaced (townExclusionZoneRadius st') (Tiles (returned r)).
Proof.
  destruct barLand_run as (r & _ & Hrun & _).
  destruct (towns_spaced _ _ _ _ Hrun) as (visited & st' & _ & _ & Heq & Hr & Hsp).
  exists r, st'. split; [exact Hrun|]. split; [exact Heq|].
  split; [exact Hr|exact Hsp].
Defined.

Lemma returned_map_island_witness :
  exists r t,
    @samplerContract (islandUtil barLand) /\
    @BuildMapDefinition (islandUtil barLand) 20 0 (plainConfig 1 2 None) = Some r /\
    t ∈ tileList (Tiles (returned r)) /\
    Type_ t = TileType.Town /\
    @reachable (islandUtil barLand) (asMapConfigImpl 0 (plainConfig 1 2 None))
      (Position t).
Proof.
  destruct barLand_run as (r & t & Hrun & Ht & _ & Htown). exists r, t.
  split; [apply islandUtil_contract|]. split; [exact Hrun|].
  split; [exact Ht|]. split; [exact Htown|].
  apply (returned_map_island _ _ _ _ _ (islandUtil_contract _) Hrun Ht).
  rewrite Htown. discriminate.
Defined.

Lemma BuildMapDefinition_terminates_witness :
  exists fuel r,
    @samplerContract (islandUtil barLand) /\
    0 <= MapConfig.Radius (plainConfig 1 1 None) /\
    (forall a, 1 < cubeDistance a ->
       (@BiomeManager.height (islandUtil barLand)
          (asMapConfigImpl 0 (plainConfig 1 1 None)) a
        <= MapConfigImpl.WaterLevel (asMapConfigImpl 0 (plainConfig 1 1 None)))%Q) /\
    @BuildMapDefinition (islandUtil barLand) fuel 0 (plainConfig 1 1 None) = Some r.
Proof.
  assert (0 <= MapConfig.Radius (plainConfig 1 1 None)) as HR by (simpl; lia).
  destruct (@BuildMapDefinition_terminates (islandUtil barLand) 0
              (plainConfig 1 1 None) 1 (islandUtil_contract _) HR barLand_decays)
    as (fuel & r & Hrun).
  exists fuel, r. split; [apply islandUtil_contract|]. split; [exact HR|].
  split; [exact barLand_decays|]. apply Hrun. lia.
Defined.

Lemma renderHeight_above_water_witness :
  exists r t,
    @samplerContract (islandUtil barLand) /\
    @BuildMapDefinition (islandUtil barLand) 20 0 (plainConfig 1 2 None) = Some r /\
    t ∈ tileList (Tiles (returned r)) /\
    Type_ t = TileType.Town /\
    (MapConfigImpl.WaterLevel (Config (returned r))
     < @renderHeight (islandUtil barLand) (returned r) t)%Q.
Proof.
  destruct barLand_run as (r & t & Hrun & Ht & _ & Htown). exists r, t.
  split; [apply islandUtil_contract|]. split; [exact Hrun|].
  split; [exact Ht|]. split; [exact Htown|].
  apply (renderHeight_above_water _ _ _ _ _ (islandUtil_contract _) Hrun Ht).
  rewrite Htown. discriminate.
Defined.

(** ** [BiomeManager]: the region-growing biome *)

Section SpecialBiomeProperties.
Context `{HexUtil}.
Variable NextInteger : Random -> Z -> Z -> Z * Random.
Variable tileHasSpecialBiome : MapConfigImpl.t -> AxialCoordinates -> bool.
Variable config : MapConfigImpl.t.

(** X11.  With a random source whose [NextInteger(min, max)] stays within its
    bounds, [randomBiome] returns MountainSnow or Mountain, and never Water,
    Grassland or Coastline. *)
Theorem randomBiome_mountains (rand : Random) :
  nextIntegerInRange NextInteger ->
  ((randomBiome NextInteger rand).1 = biomeNumber Biome.MountainSnow \/
   (randomBiome NextInteger rand).1 = biomeNumber Biome.Mountain) /\
  (randomBiome NextInteger rand).1 <> biomeNumber Biome.Water /\
  (randomBiome NextInteger rand).1 <> biomeNumber Biome.Grassland /\
  (randomBiome NextInteger rand).1 <> biomeNumber Biome.Coastline.
Proof.
  intros Hrange. unfold randomBiome.
  change (foldl _ (-1) biomeObject) with 4.
  specialize (Hrange rand 3 4 ltac:(lia)). unfold biomeNumber. lia.
Qed.

Variable seed : AxialCoordinates.

(** The queue is the seed followed by distinct coordinates within the radius,
    whose keys make up [willVisit]. *)
Lemma pushNeighbor_queue (willVisit : gset string) rest n :
  NoDup rest ->
  (forall k, k ∈ willVisit <-> exists a, a ∈ rest /\ k = axialKey a) ->
  (forall a, a ∈ rest -> cubeDistance a <= MapConfigImpl.Radius config) ->
  exists l,
    (pushNeighbor config (willVisit, seed :: rest) n).2 = seed :: (rest ++ l) /\
    NoDup (rest ++ l) /\
    (forall k, k ∈ (pushNeighbor config (willVisit, seed :: rest) n).1 <->
       exists a, a ∈ rest ++ l /\ k = axialKey a) /\
    (forall a, a ∈ l -> a = n /\ cubeDistance a <= MapConfigImpl.Radius config) /\
    (cubeDistance n <= MapConfigImpl.Radius config -> n ∈ rest ++ l).
Proof.
  intros Hnd Hkeys Hin. unfold pushNeighbor.
  destruct (bool_decide (axialKey n ∈ willVisit)) eqn:Hw; simpl.
  - exists []. rewrite app_nil_r. split_and!; try done.
    + intros a Ha. by apply not_elem_of_nil in Ha.
    + intros _. apply bool_decide_eq_true in Hw. apply Hkeys in Hw as (a & Ha & Hk).
      apply (inj axialKey) in Hk. by subst.
  - apply bool_decide_eq_false in Hw.
    destruct (bool_decide (cubeDistance n <= MapConfigImpl.Radius config)) eqn:Hd;
      simpl.
    + apply bool_decide_eq_true in Hd. exists [n]. split_and!.
      * done.
      * apply NoDup_app. split_and!; [done| |apply NoDup_singleton].
        intros a Ha ->%list_elem_of_singleton. apply Hw, Hkeys. by exists n.
      * intros k. rewrite elem_of_union, elem_of_singleton, Hkeys. split.
        -- intros [->|(a & Ha & ->)].
           ++ exists n. split; [|done]. apply elem_of_app. right. apply list_elem_of_here.
           ++ exists a. split; [|done]. apply elem_of_app. by left.
        -- intros (a & [Ha| ->%list_elem_of_singleton]%elem_of_app & ->); [|by left].
           right. by exists a.
      * by intros a ->%list_elem_of_singleton.
      * intros _. apply elem_of_app. right. apply list_elem_of_here.
    + apply bool_decide_eq_false in Hd. exists []. rewrite app_nil_r.
      split_and!; try done. intros a Ha. by apply not_elem_of_nil in Ha.
Qed.

Lemma pushNeighbors_queue ns (willVisit : gset string) rest :
  NoDup rest ->
  (forall k, k ∈ willVisit <-> exists a, a ∈ rest /\ k = axialKey a) ->
  (forall a, a ∈ rest -> cubeDistance a <= MapConfigImpl.Radius config) ->
  exists l,
    (foldl (pushNeighbor config) (willVisit, seed :: rest) ns).2
    = seed :: (rest ++ l) /\
    NoDup (rest ++ l) /\
    (forall k, k ∈ (foldl (pushNeighbor config) (willVisit, seed :: rest) ns).1 <->
       exists a, a ∈ rest ++ l /\ k = axialKey a) /\
    (forall a, a ∈ l -> a ∈ ns /\ cubeDistance a <= MapConfigImpl.Radius config) /\
    (forall n, n ∈ ns -> cubeDistance n <= MapConfigImpl.Radius config ->
       n ∈ rest ++ l).
Proof.
  revert willVisit rest. induction ns as [|n ns IH]; intros w rest Hnd Hkeys Hin.
  - exists []. rewrite app_nil_r. simpl. split_and!; try done.
    + intros a Ha. by apply not_elem_of_nil in Ha.
    + intros n Hn. by apply not_elem_of_nil in Hn.
  - cbn [foldl].
    destruct (pushNeighbor_queue w rest n Hnd Hkeys Hin)
      as (l1 & Hq & Hnd1 & Hkeys1 & Hl1 & Hn1).
    destruct (pushNeighbor config (w, seed :: rest) n) as [w1 q1]. simpl in *.
    subst q1.
    destruct (IH w1 (rest ++ l1) Hnd1 Hkeys1) as (l2 & Hq2 & Hnd2 & Hkeys2 & Hl2 & Hn2).
    { intros a [Ha|Ha]%elem_of_app; [by apply Hin|]. by apply Hl1. }
    exists (l1 ++ l2). rewrite app_assoc. split_and!; try done.
    + intros a [Ha|Ha]%elem_of_app.
      * destruct (Hl1 a Ha) as [-> Hd]. split; [apply list_elem_of_here|done].
      * destruct (Hl2 a Ha) as [Hns Hd]. split; [by apply list_elem_of_further|done].
    + intros m [->|Hm]%elem_of_cons Hd.
      * apply elem_of_app. left. by apply Hn1.
      * by apply Hn2.
Qed.
End SpecialBiomeProperties.

Section SpecialBiomeLoop.
Context `{HexUtil}.
Variable NextInteger : Random -> Z -> Z -> Z * Random.
Variable tileHasSpecialBiome : MapConfigImpl.t -> AxialCoordinates -> bool.
Variable config : MapConfigImpl.t.
Variable seed : AxialCoordinates.

(** The loop ends: the queue never holds more than the seed and the
    coordinates within the radius. *)
Lemma createBiomeLoop_terminates fuel (visited willVisit : gset string) rest
    biomeTiles visitIndex :
  NoDup rest ->
  (forall k, k ∈ willVisit <-> exists a, a ∈ rest /\ k = axialKey a) ->
  (forall a, a ∈ rest -> cubeDistance a <= MapConfigImpl.Radius config) ->
  (1 <= fuel)%nat ->
  (length (hexOffsets (Z.max (MapConfigImpl.Radius config) 0)) + 2
   <= fuel + visitIndex)%nat ->
  exists result,
    createBiomeLoop tileHasSpecialBiome config fuel visited willVisit
      (seed :: rest) biomeTiles visitIndex = Some result.
Proof.
  revert visited willVisit rest biomeTiles visitIndex.
  induction fuel as [|fuel IH]; intros v w rest bt idx Hnd Hkeys Hin Hfuel Hbound;
    [lia|].
  cbn [createBiomeLoop].
  destruct ((seed :: rest) !! idx) as [tile|] eqn:Htile; [|by eexists].
  assert (length rest
          <= length (hexOffsets (Z.max (MapConfigImpl.Radius config) 0)))%nat as Hlen.
  { apply submseteq_length, NoDup_submseteq; [done|].
    intros a Ha. apply elem_of_hexOffsets. apply Hin in Ha. lia. }
  apply lookup_lt_Some in Htile. cbn [length] in Htile.
  case_decide.
  - apply IH; [done..|lia|lia].
  - destruct (tileHasSpecialBiome config tile).
    + destruct (pushNeighbors_queue config seed (getNearbyCoordinates tile 1) w rest
                  Hnd Hkeys Hin) as (l & Hq & Hnd' & Hkeys' & Hl & _).
      destruct (foldl _ _ _) as [w1 q1]. simpl in Hq, Hkeys'. subst q1.
      apply IH; [done|done| |lia|lia].
      intros a [Ha|Ha]%elem_of_app; [by apply Hin|]. by apply Hl.
    + apply IH; [done..|lia|lia].
Qed.

(** What the loop has collected when it ends: the region of the seed. *)
Lemma createBiomeLoop_region fuel (visited willVisit : gset string) rest
    biomeTiles visitIndex result :
  NoDup rest ->
  (forall k, k ∈ willVisit <-> exists a, a ∈ rest /\ k = axialKey a) ->
  (forall a, a ∈ rest -> cubeDistance a <= MapConfigImpl.Radius config) ->
  (forall k, k ∈ visited <->
     exists i a, (i < visitIndex)%nat /\ (seed :: rest) !! i = Some a /\
       k = axialKey a) ->
  (forall a, a ∈ biomeTiles <->
     tileHasSpecialBiome config a = true /\ axialKey a ∈ visited) ->
  (forall a n, a ∈ biomeTiles -> hexDistance a n = 1 ->
     cubeDistance n <= MapConfigImpl.Radius config -> n ∈ rest) ->
  (forall a, a ∈ rest ->
     exists b, specialRegion (tileHasSpecialBiome config)
                 (MapConfigImpl.Radius config) seed b /\ hexDistance b a = 1) ->
  (forall a, a ∈ biomeTiles ->
     specialRegion (tileHasSpecialBiome config) (MapConfigImpl.Radius config) seed a) ->
  createBiomeLoop tileHasSpecialBiome config fuel visited willVisit
    (seed :: rest) biomeTiles visitIndex = Some result ->
  forall a, a ∈ result <->
    specialRegion (tileHasSpecialBiome config) (MapConfigImpl.Radius config) seed a.
Proof.
  revert visited willVisit rest biomeTiles visitIndex.
  induction fuel as [|fuel IH];
    intros v w rest bt idx Hnd Hkeys Hin Hvis Hbt Hclosed Hfrom Hsound Hrun; [done|].
  cbn [createBiomeLoop] in Hrun.
  destruct ((seed :: rest) !! idx) as [tile|] eqn:Htile.
  - assert (forall (l : list AxialCoordinates) k,
      (exists i a, (i < S idx)%nat /\ (seed :: rest ++ l) !! i = Some a /\
         k = axialKey a) <->
      k = axialKey tile \/
      exists i a, (i < idx)%nat /\ (seed :: rest) !! i = Some a /\ k = axialKey a)
      as Hstep.
    { intros l k. pose proof (lookup_lt_Some _ _ _ Htile) as Hlt.
      change (seed :: rest ++ l) with ((seed :: rest) ++ l). split.
      - intros (i & a & Hi & Ha & ->). rewrite lookup_app_l in Ha by lia.
        destruct (decide (i = idx)) as [->|Hne].
        + left. congruence.
        + right. exists i, a. split; [lia|done].
      - intros [->|(i & a & Hi & Ha & ->)].
        + exists idx, tile. split; [lia|]. by rewrite lookup_app_l by lia.
        + exists i, a. split; [lia|]. by rewrite lookup_app_l by lia. }
    assert (specialRegion (tileHasSpecialBiome config) (MapConfigImpl.Radius config)
              seed tile \/ tileHasSpecialBiome config tile = false) as Htile_region.
    { destruct (tileHasSpecialBiome config tile) eqn:Hsp; [left|by right].
      apply list_elem_of_lookup_2, elem_of_cons in Htile as [->|Hrest].
      - by constructor.
      - destruct (Hfrom tile Hrest) as (b & Hb & Hd).
        eapply specialRegion_step; [done..|by apply Hin|done]. }
    case_decide as Hseen.
    + apply (IH v w rest bt (S idx)); try done.
      intros k. specialize (Hstep [] k). rewrite app_nil_r in Hstep.
      rewrite Hstep, Hvis. split; [by right|]. intros [->|?]; [|done].
      by apply Hvis.
    + destruct (tileHasSpecialBiome config tile) eqn:Hsp.
      * destruct Htile_region as [Hregion|?]; [|done].
        destruct (pushNeighbors_queue config seed (getNearbyCoordinates tile 1) w rest
                    Hnd Hkeys Hin) as (l & Hq & Hnd' & Hkeys' & Hl & Hpushed).
        destruct (foldl _ _ _) as [w1 q1]. simpl in Hq, Hkeys'. subst q1.
        eapply (IH _ _ _ _ _ Hnd' Hkeys'); [| | | | | |exact Hrun].
        -- intros a [Ha|Ha]%elem_of_app; [by apply Hin|]. by apply Hl.
        -- intros k. rewrite Hstep, elem_of_union, elem_of_singleton, Hvis. done.
        -- intros a. rewrite elem_of_app, list_elem_of_singleton, Hbt,
             elem_of_union, elem_of_singleton. split.
           ++ intros [[Hs Hv]| ->]; [by auto|]. split; [done|by left].
           ++ intros [Hs [Hk|Hv]]; [|by left]. right. by apply (inj axialKey).
        -- intros a n [Ha| ->%list_elem_of_singleton]%elem_of_app Hd Hr.
           ++ apply elem_of_app. left. by eapply Hclosed.
           ++ apply Hpushed; [by apply elem_of_ring1|done].
        -- intros a [Ha|Ha]%elem_of_app; [by apply Hfrom|].
           exists tile. split; [done|]. apply elem_of_ring1. by apply Hl.
        -- intros a [Ha| ->%list_elem_of_singleton]%elem_of_app; [by apply Hsound|done].
      * eapply (IH _ w rest bt (S idx)); [done|done|done| | |done|done|done|exact Hrun].
        -- intros k. specialize (Hstep [] k). rewrite app_nil_r in Hstep.
           rewrite Hstep, elem_of_union, elem_of_singleton, Hvis. done.
        -- intros a. rewrite Hbt, elem_of_union, elem_of_singleton. split.
           ++ intros [Hs Hv]. split; [done|by right].
           ++ intros [Hs [Hk|Hv]]; [|done].
              apply (inj axialKey) in Hk. congruence.
  - injection Hrun as <-. intros a. split; [apply Hsound|].
    apply lookup_ge_None in Htile. cbn [length] in Htile.
    assert (forall c, c ∈ seed :: rest -> axialKey c ∈ v) as Hall.
    { intros c [i Hi]%list_elem_of_lookup. apply Hvis. exists i, c.
      split; [|done]. apply lookup_lt_Some in Hi. cbn [length] in Hi. lia. }
    induction 1 as [Hs|b c Hb IHb Hd Hr Hs].
    + apply Hbt. split; [done|]. apply Hall, list_elem_of_here.
    + apply Hbt. split; [done|]. apply Hall, list_elem_of_further.
      by eapply Hclosed.
Qed.
End SpecialBiomeLoop.

Lemma cache_fold_hit (newBiome : Z) (biomeTiles : list AxialCoordinates)
    (biomeCache : gmap string Z) a :
  a ∈ biomeTiles ->
  foldl (fun cache tile => <[axialKey tile := newBiome]> cache) biomeCache biomeTiles
    !! axialKey a = Some newBiome.
Proof.
  induction biomeTiles as [|t l IH] using rev_ind; intros Ha.
  - by apply not_elem_of_nil in Ha.
  - rewrite foldl_app. cbn [foldl].
    destruct (decide (axialKey t = axialKey a)) as [->|Hne].
    + apply lookup_insert_eq.
    + rewrite lookup_insert_ne by done. apply IH.
      apply elem_of_app in Ha as [Ha| ->%list_elem_of_singleton]; done.
Qed.

Lemma cache_fold_miss (newBiome : Z) (biomeTiles : list AxialCoordinates)
    (biomeCache : gmap string Z) k :
  (forall a, a ∈ biomeTiles -> k <> axialKey a) ->
  foldl (fun cache tile => <[axialKey tile := newBiome]> cache) biomeCache biomeTiles
    !! k = biomeCache !! k.
Proof.
  induction biomeTiles as [|t l IH] using rev_ind; intros Hk; [done|].
  rewrite foldl_app. cbn [foldl]. rewrite lookup_insert_ne.
  - apply IH. intros a Ha. apply Hk, elem_of_app. by left.
  - intros Heq. eapply Hk; [|by symmetry]. apply elem_of_app. right.
    apply list_elem_of_here.
Qed.

Section SpecialBiomeRegion.
Context `{HexUtil}.
Variable NextInteger : Random -> Z -> Z -> Z * Random.
Variable tileHasSpecialBiome : MapConfigImpl.t -> AxialCoordinates -> bool.
Variable config : MapConfigImpl.t.
Variable seed : AxialCoordinates.

(** X12.  The region-growing loop of [createBiomeFromSeed] always ends,
    whatever the special-biome test, the seed and the radius (negative ones
    included): one turn for the seed, one for each coordinate within the
    radius, and one to find the queue exhausted are enough, and any further
    allowance changes nothing about that. *)
Theorem createBiomeFromSeed_terminates (extra : nat)
    (biomeCache : gmap string Z) (rand : Random) :
  exists result,
    createBiomeFromSeed NextInteger tileHasSpecialBiome config
      (length (hexOffsets (Z.max (MapConfigImpl.Radius config) 0)) + 2 + extra)
      biomeCache rand seed = Some result.
Proof.
  unfold createBiomeFromSeed. destruct (randomBiome NextInteger rand) as [b r].
  destruct (createBiomeLoop_terminates tileHasSpecialBiome config seed
              (length (hexOffsets (Z.max (MapConfigImpl.Radius config) 0)) + 2 + extra)
              ∅ ∅ [] [] 0) as [result ->].
  - apply NoDup_nil_2.
  - intros k. split; [set_solver|]. intros (a & Ha & _).
    by apply not_elem_of_nil in Ha.
  - intros a Ha. by apply not_elem_of_nil in Ha.
  - lia.
  - lia.
  - by eexists.
Qed.

(** X13.  When [createBiomeFromSeed] returns, the biome it returns is the
    one drawn by [NextInteger(3, 4)], drawn once; the cache holds that biome
    at every coordinate of the seed's region, that is the seed if it passes
    the special-biome test (wherever it lies: the seed is not checked against
    the radius) and every coordinate within the radius that passes the test
    and is next to a coordinate of the region; every other key of the cache
    keeps its entry; and with a seed that fails the test the cache is left
    unchanged, the random number being drawn all the same. *)
Theorem createBiomeFromSeed_cache (fuel : nat) (biomeCache : gmap string Z)
    (rand : Random) newBiome biomeCache' rand' :
  createBiomeFromSeed NextInteger tileHasSpecialBiome config fuel biomeCache rand seed
  = Some (newBiome, biomeCache', rand') ->
  (newBiome, rand') = NextInteger rand 3 4 /\
  (forall a,
     specialRegion (tileHasSpecialBiome config) (MapConfigImpl.Radius config) seed a ->
     biomeCache' !! axialKey a = Some newBiome) /\
  (forall k,
     (forall a,
        specialRegion (tileHasSpecialBiome config) (MapConfigImpl.Radius config) seed a ->
        k <> axialKey a) ->
     biomeCache' !! k = biomeCache !! k) /\
  (tileHasSpecialBiome config seed = false -> biomeCache' = biomeCache).
Proof.
  unfold createBiomeFromSeed, randomBiome.
  change (foldl _ (-1) biomeObject) with 4.
  destruct (NextInteger rand 3 4) as [b r].
  destruct (createBiomeLoop _ _ _ _ _ _ _ _) as [biomeTiles|] eqn:Hloop; [|done].
  intros [= <- <- <-].
  assert (forall a, a ∈ biomeTiles <->
            specialRegion (tileHasSpecialBiome config) (MapConfigImpl.Radius config)
              seed a) as Hregion.
  { eapply (createBiomeLoop_region tileHasSpecialBiome config seed _ ∅ ∅ [] [] 0);
      [apply NoDup_nil_2| | | | | | | |exact Hloop].
    - intros k. split; [set_solver|]. intros (a & Ha & _).
      by apply not_elem_of_nil in Ha.
    - intros a Ha. by apply not_elem_of_nil in Ha.
    - intros k. split; [set_solver|]. intros (i & a & Hi & _). lia.
    - intros a. split; [by intros ?%not_elem_of_nil|]. intros [_ ?]. set_solver.
    - intros a n Ha. by apply not_elem_of_nil in Ha.
    - intros a Ha. by apply not_elem_of_nil in Ha.
    - intros a Ha. by apply not_elem_of_nil in Ha. }
  split; [done|]. split; [|split].
  - intros a Ha. by apply cache_fold_hit, Hregion.
  - intros k Hk. apply cache_fold_miss. intros a Ha. by apply Hk, Hregion.
  - intros Hseed. apply map_eq. intros k. apply cache_fold_miss.
    intros a Ha%Hregion. exfalso. clear -Ha Hseed.
    induction Ha; [congruence|done].
Qed.
End SpecialBiomeRegion.

Lemma lowestInteger_in_range : nextIntegerInRange lowestInteger.
Proof. intros rand lo hi Hle. cbn. lia. Qed.

Lemma randomBiome_mountains_witness :
  nextIntegerInRange lowestInteger /\
  (randomBiome (H := islandUtil barLand) lowestInteger tt).1
  <> biomeNumber Biome.Coastline.
Proof.
  split; [exact lowestInteger_in_range|].
  apply (randomBiome_mountains (H := islandUtil barLand) lowestInteger tt
           lowestInteger_in_range).
Defined.

Lemma createBiomeFromSeed_cache_witness :
  exists biomeCache',
    createBiomeFromSeed (H := islandUtil barLand) lowestInteger
      (specialOn [origin; Axial 1 0]) (asMapConfigImpl 0 (plainConfig 1 2 None))
      9 ∅ tt origin = Some (3, biomeCache', tt) /\
    biomeCache' !! axialKey (Axial 1 0) = Some 3 /\
    biomeCache' !! axialKey (Axial 0 1) = None.
Proof.
  assert (exists biomeCache',
    createBiomeFromSeed (H := islandUtil barLand) lowestInteger
      (specialOn [origin; Axial 1 0]) (asMapConfigImpl 0 (plainConfig 1 2 None))
      9 ∅ tt origin = Some (3, biomeCache', tt)) as [biomeCache' Hrun]
    by (eexists; vm_compute; reflexivity).
  exists biomeCache'. split; [exact Hrun|].
  destruct (createBiomeFromSeed_cache (H := islandUtil barLand) lowestInteger
              (specialOn [origin; Axial 1 0]) (asMapConfigImpl 0 (plainConfig 1 2 None))
              origin 9 ∅ tt 3 biomeCache' tt Hrun) as (_ & Hhit & Hmiss & _).
  split.
  - apply Hhit. eapply (specialRegion_step _ _ _ origin); [by constructor|done..].
  - rewrite Hmiss; [done|]. intros a Ha Hkey. apply (inj axialKey) in Hkey. subst a.
    inversion Ha; done.
Defined.

(** ** What the function prints *)

Section Output.
Context `{HexUtil}.

(** A round neither reads nor writes the output. *)
Lemma placeRound_log totalTowns st log :
  placeRound totalTowns
    (mkPlacer (pTiles st) (pRand st) (townsGenerated st)
       (townExclusionZoneRadius st) (townExclusionZoneRetries st) log)
  = mkPlacer (pTiles (placeRound totalTowns st)) (pRand (placeRound totalTowns st))
      (townsGenerated (placeRound totalTowns st))
      (townExclusionZoneRadius (placeRound totalTowns st))
      (townExclusionZoneRetries (placeRound totalTowns st)) log.
Proof.
  unfold placeRound.
  cbn [pTiles pRand townsGenerated townExclusionZoneRadius townExclusionZoneRetries
       pLog].
  destruct (getRandomMapTiles _ _ _ _) as [townSeeds rand].
  destruct (placeCandidates _ _ _) as [[tiles generated] newTown].
  by case_decide.
Qed.

Lemma placeRounds_log totalTowns (i : nat) st log :
  Nat.iter i (placeRound totalTowns)
    (mkPlacer (pTiles st) (pRand st) (townsGenerated st)
       (townExclusionZoneRadius st) (townExclusionZoneRetries st) log)
  = mkPlacer (pTiles (Nat.iter i (placeRound totalTowns) st))
      (pRand (Nat.iter i (placeRound totalTowns) st))
      (townsGenerated (Nat.iter i (placeRound totalTowns) st))
      (townExclusionZoneRadius (Nat.iter i (placeRound totalTowns) st))
      (townExclusionZoneRetries (Nat.iter i (placeRound totalTowns) st)) log.
Proof.
  induction i as [|i IH]; [done|].
  rewrite !Nat.iter_succ, IH. apply placeRound_log.
Qed.

Lemma placeRounds_towns totalTowns st (i j : nat) :
  (i <= j)%nat ->
  townsGenerated (Nat.iter i (placeRound totalTowns) st)
  <= townsGenerated (Nat.iter j (placeRound totalTowns) st).
Proof.
  induction 1 as [|j Hij IH]; [lia|].
  rewrite Nat.iter_succ.
  destruct (placeRound_general totalTowns (Nat.iter j (placeRound totalTowns) st))
    as (_ & Hle & _).
  lia.
Qed.

(** The output of the placement loop, round by round. *)
Lemma placeTowns_rounds totalTowns fuel st st' :
  placeTowns totalTowns fuel st = Some st' ->
  exists rounds : nat,
    (forall i, (i < rounds)%nat ->
       townsGenerated (Nat.iter i (placeRound totalTowns) st) < totalTowns /\
       townExclusionZoneRadius (Nat.iter (S i) (placeRound totalTowns) st) <> -1) /\
    (totalTowns <= townsGenerated (Nat.iter rounds (placeRound totalTowns) st) /\
     pLog st' = pLog st ++
       flat_map (fun i =>
                   [PrintTowns
                      (townsGenerated (Nat.iter (S i) (placeRound totalTowns) st))
                      totalTowns;
                    HeartbeatWait]) (seq 0 rounds)
     \/
     townsGenerated (Nat.iter rounds (placeRound totalTowns) st) < totalTowns /\
     townExclusionZoneRadius (Nat.iter (S rounds) (placeRound totalTowns) st) = -1 /\
     pLog st' = pLog st ++
       flat_map (fun i =>
                   [PrintTowns
                      (townsGenerated (Nat.iter (S i) (placeRound totalTowns) st))
                      totalTowns;
                    HeartbeatWait]) (seq 0 rounds) ++
       [WarnFailedTowns totalTowns
          (townsGenerated (Nat.iter (S rounds) (placeRound totalTowns) st))]).
Proof.
  revert st. induction fuel as [|fuel IH]; intros st; cbn [placeTowns].
  - case_decide as Hlt; [done|]. intros [= <-]. exists 0%nat.
    split; [lia|]. left. cbn [Nat.iter nat_rect seq flat_map].
    split; [lia|]. by rewrite app_nil_r.
  - case_decide as Hlt.
    + assert (pLog (placeRound totalTowns st) = pLog st) as Hlog
        by apply placeRound_general.
      case_decide as Hexit.
      * intros [= <-]. exists 0%nat. split; [lia|]. right.
        cbn [Nat.iter nat_rect seq flat_map app pLog townsGenerated].
        split; [done|]. split; [done|]. by rewrite Hlog.
      * intros Hrun. apply IH in Hrun as (rounds & Hbefore & Hshape).
        cbn [pLog] in Hshape.
        assert (forall i,
          townsGenerated
            (Nat.iter i (placeRound totalTowns)
               (mkPlacer (pTiles (placeRound totalTowns st))
                  (pRand (placeRound totalTowns st))
                  (townsGenerated (placeRound totalTowns st))
                  (townExclusionZoneRadius (placeRound totalTowns st))
                  (townExclusionZoneRetries (placeRound totalTowns st))
                  (pLog (placeRound totalTowns st) ++
                   [PrintTowns (townsGenerated (placeRound totalTowns st)) totalTowns;
                    HeartbeatWait])))
          = townsGenerated (Nat.iter (S i) (placeRound totalTowns) st) /\
          townExclusionZoneRadius
            (Nat.iter i (placeRound totalTowns)
               (mkPlacer (pTiles (placeRound totalTowns st))
                  (pRand (placeRound totalTowns st))
                  (townsGenerated (placeRound totalTowns st))
                  (townExclusionZoneRadius (placeRound totalTowns st))
                  (townExclusionZoneRetries (placeRound totalTowns st))
                  (pLog (placeRound totalTowns st) ++
                   [PrintTowns (townsGenerated (placeRound totalTowns st)) totalTowns;
                    HeartbeatWait])))
          = townExclusionZoneRadius (Nat.iter (S i) (placeRound totalTowns) st))
          as Hshift.
        { intros i. rewrite placeRounds_log, <- Nat.iter_succ_r. done. }
        exists (S rounds). split.
        -- intros [|i] Hi.
           ++ cbn [Nat.iter nat_rect]. done.
           ++ destruct (Hbefore i ltac:(lia)) as [Ht Hr].
              rewrite (proj1 (Hshift i)) in Ht. rewrite (proj2 (Hshift (S i))) in Hr.
              done.
        -- assert (flat_map
                     (fun i =>
                        [PrintTowns
                           (townsGenerated
                              (Nat.iter (S i) (placeRound totalTowns) st)) totalTowns;
                         HeartbeatWait]) (seq 0 (S rounds))
                   = [PrintTowns (townsGenerated (placeRound totalTowns st)) totalTowns;
                      HeartbeatWait] ++
                     flat_map
                       (fun i =>
                          [PrintTowns
                             (townsGenerated
                                (Nat.iter (S i) (placeRound totalTowns)
                                   (mkPlacer (pTiles (placeRound totalTowns st))
                                      (pRand (placeRound totalTowns st))
                                      (townsGenerated (placeRound totalTowns st))
                                      (townExclusionZoneRadius (placeRound totalTowns st))
                                      (townExclusionZoneRetries (placeRound totalTowns st))
                                      (pLog (placeRound totalTowns st) ++
                                       [PrintTowns
                                          (townsGenerated (placeRound totalTowns st))
                                          totalTowns;
                                        HeartbeatWait])))) totalTowns;
                           HeartbeatWait]) (seq 0 rounds)) as ->.
           { cbn [seq flat_map]. f_equal. rewrite <- seq_shift, flat_map_concat_map,
               map_map, <- flat_map_concat_map.
             apply flat_map_ext. intros i. by rewrite (proj1 (Hshift (S i))). }
           rewrite <- Hlog, <- !app_assoc.
           destruct Hshape as [[Hdone Hout]|(Hshort & Hrad & Hout)].
           ++ left. rewrite (proj1 (Hshift rounds)) in Hdone.
              split; [done|]. by rewrite Hout, <- !app_assoc.
           ++ right. rewrite (proj1 (Hshift rounds)) in Hshort.
              rewrite (proj2 (Hshift (S rounds))) in Hrad.
              split; [done|]. split; [done|].
              by rewrite Hout, (proj1 (Hshift (S rounds))), <- !app_assoc.
    + intros [= <-]. exists 0%nat.
      split; [lia|]. left. cbn [Nat.iter nat_rect seq flat_map].
      split; [lia|]. by rewrite app_nil_r.
Qed.
(** X14.  What a returning call prints, whatever the sampler does, round by
    round of the placement loop.  First comes the line with the resolved
    seed.  Then, for each of the rounds that start with fewer towns generated
    than [TotalTowns] and do not end with the exclusion radius at -1, there is
    one progress line, carrying the number of towns generated when that round
    ends, followed by one wait for the next heartbeat.  After these, either
    the number of towns generated has reached [TotalTowns] and nothing more
    is printed, or one more round ends with the radius at -1 and the warning,
    carrying the number of towns generated when that round ends, is the last
    thing printed: that round prints no progress line and does not wait.
    The numbers printed are never negative and never decrease, and with
    [TotalTowns <= 0] only the seed line is printed. *)
Theorem output_shape fuel mathRandom config r :
  BuildMapDefinition fuel mathRandom config = Some r ->
  exists visited (rounds : nat),
    floodFill (asMapConfigImpl mathRandom config) fuel = Some visited /\
    let totalTowns := MapConfig.TotalTowns config in
    let seed := MapConfigImpl.Seed (Config (returned r)) in
    let towns (i : nat) :=
      townsGenerated
        (Nat.iter i (placeRound totalTowns)
           (mkPlacer
              (removeUnreached visited (buildTiles (asMapConfigImpl mathRandom config)))
              (Random_new seed) 0 (Z.min (MapConfig.Radius config) 10) 0
              [PrintSeed seed])) in
    let radius (i : nat) :=
      townExclusionZoneRadius
        (Nat.iter i (placeRound totalTowns)
           (mkPlacer
              (removeUnreached visited (buildTiles (asMapConfigImpl mathRandom config)))
              (Random_new seed) 0 (Z.min (MapConfig.Radius config) 10) 0
              [PrintSeed seed])) in
    (forall i, (i < rounds)%nat -> towns i < totalTowns /\ radius (S i) <> -1) /\
    (totalTowns <= towns rounds /\
     output r
     = PrintSeed seed ::
       flat_map (fun i => [PrintTowns (towns (S i)) totalTowns; HeartbeatWait])
         (seq 0 rounds)
     \/
     towns rounds < totalTowns /\ radius (S rounds) = -1 /\
     output r
     = PrintSeed seed ::
       flat_map (fun i => [PrintTowns (towns (S i)) totalTowns; HeartbeatWait])
         (seq 0 rounds) ++
       [WarnFailedTowns totalTowns (towns (S rounds))]) /\
    (forall i j, (i <= j)%nat -> 0 <= towns i <= towns j) /\
    (totalTowns <= 0 -> rounds = 0%nat /\ output r = [PrintSeed seed]).
Proof.
  intros (visited & st' & Hff & Hplace & ->)%BuildMapDefinition_Some.
  exists visited. cbn [output returned Config].
  apply placeTowns_rounds in Hplace as (rounds & Hbefore & Hshape).
  cbn [pLog] in Hshape. exists rounds. split; [exact Hff|]. cbv zeta.
  split; [exact Hbefore|]. split; [exact Hshape|]. split.
  - intros i j Hij. split; [|by apply placeRounds_towns].
    etrans; [|apply (placeRounds_towns _ _ 0 i); lia]. done.
  - intros Hle. assert (rounds = 0%nat) as ->.
    { destruct rounds as [|k]; [done|]. destruct (Hbefore 0%nat ltac:(lia)) as [Ht _].
      cbn in Ht. lia. }
    split; [done|]. destruct Hshape as [[_ ->]|(Hlt & _)]; [done|].
    cbn in Hlt. lia.
Qed.
End Output.

Lemma output_shape_witness :
  exists r visited (rounds : nat),
    @BuildMapDefinition (islandUtil barLand) 20 0 (plainConfig 1 2 None) = Some r /\
    @floodFill (islandUtil barLand) (asMapConfigImpl 0 (plainConfig 1 2 None)) 20
    = Some visited /\
    (MapConfig.TotalTowns (plainConfig 1 2 None)
     <= townsGenerated
          (Nat.iter rounds
             (@placeRound (islandUtil barLand) (MapConfig.TotalTowns (plainConfig 1 2 None)))
             (@mkPlacer (islandUtil barLand)
                (removeUnreached visited
                   (@buildTiles (islandUtil barLand)
                      (asMapConfigImpl 0 (plainConfig 1 2 None))))
                (Random_new (MapConfigImpl.Seed (Config (returned r)))) 0 (Z.min (MapConfig.Radius (plainConfig 1 2 None)) 10) 0
                [PrintSeed (MapConfigImpl.Seed (Config (returned r)))])) \/
     last (output r)
     = Some (WarnFailedTowns (MapConfig.TotalTowns (plainConfig 1 2 None))
               (townsGenerated
                  (Nat.iter (S rounds)
                     (@placeRound (islandUtil barLand)
                        (MapConfig.TotalTowns (plainConfig 1 2 None)))
                     (@mkPlacer (islandUtil barLand)
                        (removeUnreached visited
                           (@buildTiles (islandUtil barLand)
                              (asMapConfigImpl 0 (plainConfig 1 2 None))))
                        (Random_new (MapConfigImpl.Seed (Config (returned r)))) 0 (Z.min (MapConfig.Radius (plainConfig 1 2 None)) 10) 0
                        [PrintSeed (MapConfigImpl.Seed (Config (returned r)))]))))).
Proof.
  destruct barLand_run as (r & _ & Hrun & _).
  destruct (output_shape _ _ _ _ Hrun)
    as (visited & rounds & Hff & _ & [[Hdone _]|(_ & _ & Hout)] & _);
    exists r, visited, rounds; (split; [exact Hrun|]); (split; [exact Hff|]).
  - left. exact Hdone.
  - right. rewrite Hout, app_comm_cons. apply last_snoc.
Defined.
